(** * tndocx: text normalisation and sectioning of TribeNet turn reports

    A shallow embedding of the Go package [tndocx] (filters.go, parse.go and
    the sectioning code) together with the properties of its scrubbers,
    line classifiers, section splitter and step-list normaliser. *)

From Stdlib Require Import Ascii String NArith Bool Arith Lia List.
From Equations Require Import Equations.
Import ListNotations.

Local Open Scope char_scope.
Local Open Scope list_scope.

(** ** Bytes

    A Go [[]byte] is a list of 8-bit characters.  Where the code tells a nil
    slice from an empty one the slice is an [option bytes]. *)

Definition bytes := list ascii.

(** [[]byte("...")] *)
Definition B (s : string) : bytes := list_ascii_of_string s.

Definition code (c : ascii) : N := N_of_ascii c.

Definition SP : ascii := " ".
Definition TAB : ascii := "009".
Definition LF : ascii := "010".
Definition CR : ascii := "013".

(** Strong induction on the length of the remaining input, the measure of
    the loops. *)
Lemma bytes_length_ind (P : bytes -> Prop) :
  (forall input, (forall shorter, length shorter < length input -> P shorter) -> P input) ->
  forall input, P input.
Proof.
  intros step input.
  remember (length input) as n eqn:Hn. revert input Hn.
  induction n as [n IH] using lt_wf_ind.
  intros input ->. apply step. intros shorter Hlt. exact (IH _ Hlt _ eq_refl).
Qed.

(** ** filters.go: CompressSpaces *)

(** The lookup table [isSpaceDelimiter], filled by [init] from
    [{'\n', ',', '(', ')', '\\', ':'}]. *)
Definition isSpaceDelimiter (ch : ascii) : bool :=
  existsb (Ascii.eqb ch) [LF; ","; "("; ")"; "\"; ":"].

(** [input[0] == ' ' || input[0] == '\t'] *)
Definition isBlank (ch : ascii) : bool :=
  Ascii.eqb ch " " || Ascii.eqb ch TAB.

(** The inner loop: advance input to the end of the run of spaces. *)
Fixpoint skipBlanks (input : bytes) : bytes :=
  match input with
  | ch :: rest => if isBlank ch then skipBlanks rest else input
  | [] => []
  end.

(** [len(input) == 0 || isSpaceDelimiter[input[0]]] *)
Definition nextCharIsDelimiter (input : bytes) : bool :=
  match input with
  | [] => true
  | ch :: _ => isSpaceDelimiter ch
  end.

(** The main loop of [CompressSpaces], over the remaining input, the flag
    [prevCharWasDelimiter] and the output buffer.  On a blank the inner loop
    runs from that blank on, which it skips first: it leaves
    [skipBlanks rest]. *)
Equations? compressLoop (input : bytes) (prevCharWasDelimiter : bool)
    (output : bytes) : bytes by wf (length input) lt :=
  compressLoop [] _ output := output;
  compressLoop (ch :: rest) prev output with isBlank ch := {
    | true with prev || nextCharIsDelimiter (skipBlanks rest) := {
        | true := compressLoop (skipBlanks rest) prev output;
        | false := compressLoop (skipBlanks rest) prev (output ++ [SP]) };
    | false := compressLoop rest (isSpaceDelimiter ch) (output ++ [ch]) }.
Proof.
  all: try (simpl; lia).
  all: clear; induction rest as [|c r IH]; simpl; [lia|];
    destruct (isBlank c); simpl in *; lia.
Qed.

Definition CompressSpaces (input : bytes) : bytes :=
  match input with
  | [] => input
  | _ => compressLoop input false []
  end.

(** *** Maximal runs of blanks

    The vocabulary in which the behaviour of [CompressSpaces] on a run of
    spaces and tabs is stated: the buffer is cut as [pre ++ run ++ post]. *)

Fixpoint lastByte (l : bytes) : option ascii :=
  match l with
  | [] => None
  | [ch] => Some ch
  | _ :: rest => lastByte rest
  end.

Definition startsWithBlank (l : bytes) : bool :=
  match l with
  | ch :: _ => isBlank ch
  | [] => false
  end.

Definition endsWithBlank (l : bytes) : bool :=
  match lastByte l with
  | Some ch => isBlank ch
  | None => false
  end.

(** [run] is a non-empty run of spaces and tabs that cannot be extended on
    either side. *)
Definition maximalRun (pre run post : bytes) : bool :=
  match run with [] => false | _ :: _ => true end
  && forallb isBlank run
  && negb (endsWithBlank pre)
  && negb (startsWithBlank post).

(** The byte just before the run is a delimiter. *)
Definition precededByDelimiter (pre : bytes) : bool :=
  match lastByte pre with
  | Some ch => isSpaceDelimiter ch
  | None => false
  end.

(** The byte just after the run is a delimiter. *)
Definition followedByDelimiter (post : bytes) : bool :=
  match post with
  | ch :: _ => isSpaceDelimiter ch
  | [] => false
  end.

Definition touchesStart (pre : bytes) : bool :=
  match pre with [] => true | _ :: _ => false end.

Definition touchesEnd (post : bytes) : bool :=
  match post with [] => true | _ :: _ => false end.

(** What the loop writes for a maximal run. *)
Definition runImage (pre post : bytes) : bytes :=
  if precededByDelimiter pre || followedByDelimiter post || touchesEnd post
  then [] else [SP].

(** What the specification says is written for a maximal run: nothing also
    when the run touches the start of the input. *)
Definition runImage_spec (pre post : bytes) : bytes :=
  if precededByDelimiter pre || followedByDelimiter post
     || touchesStart pre || touchesEnd post
  then [] else [SP].

(** ** filters.go: ScrubBadUTF8 *)

(** *** Go's [unicode/utf8.DecodeRune]

    The decoder of the Go standard library, table driven as in its source:
    [first] gives for a leading byte the size of the sequence and the index
    of the range its second byte must lie in. *)

Definition RuneError : N := 65533.   (* U+FFFD *)

Definition xx : N := 241.  (* 0xF1 invalid: size 1 *)
Definition as_ : N := 240. (* 0xF0 ASCII: size 1 *)
Definition s1 : N := 2.    (* 0x02 accept 0, size 2 *)
Definition s2 : N := 19.   (* 0x13 accept 1, size 3 *)
Definition s3 : N := 3.    (* 0x03 accept 0, size 3 *)
Definition s4 : N := 35.   (* 0x23 accept 2, size 3 *)
Definition s5 : N := 52.   (* 0x34 accept 3, size 4 *)
Definition s6 : N := 4.    (* 0x04 accept 0, size 4 *)
Definition s7 : N := 68.   (* 0x44 accept 4, size 4 *)

Definition locb : N := 128. (* 0b10000000 *)
Definition hicb : N := 191. (* 0b10111111 *)
Definition maskx : N := 63.
Definition mask2 : N := 31.
Definition mask3 : N := 15.
Definition mask4 : N := 7.

Definition first (p0 : N) : N :=
  (if p0 <=? 127 then as_          (* 0x00-0x7F *)
  else if p0 <=? 193 then xx      (* 0x80-0xC1 *)
  else if p0 <=? 223 then s1      (* 0xC2-0xDF *)
  else if p0 =? 224 then s2       (* 0xE0 *)
  else if p0 <=? 236 then s3      (* 0xE1-0xEC *)
  else if p0 =? 237 then s4       (* 0xED *)
  else if p0 <=? 239 then s3      (* 0xEE-0xEF *)
  else if p0 =? 240 then s5       (* 0xF0 *)
  else if p0 <=? 243 then s6      (* 0xF1-0xF3 *)
  else if p0 =? 244 then s7       (* 0xF4 *)
  else xx)%N.                     (* 0xF5-0xFF *)

(** [acceptRanges[i]] as a pair (lo, hi). *)
Definition acceptRanges (i : N) : N * N :=
  match i with
  | 0 => (locb, hicb)
  | 1 => (160, hicb)
  | 2 => (locb, 159)
  | 3 => (144, hicb)
  | _ => (locb, 143)
  end%N.

(** [utf8.DecodeRune(p)]: the rune and its width in bytes. *)
Definition DecodeRune (p : bytes) : N * nat :=
  match p with
  | [] => (RuneError, 0%nat)
  | c0 :: _ =>
    let p0 := code c0 in
    let x := first p0 in
    if as_ <=? x then ((if x =? xx then RuneError else p0), 1%nat)
    else
      let sz := N.to_nat (N.land x 7) in
      let accept := acceptRanges (N.shiftr x 4) in
      if (length p <? sz)%nat then (RuneError, 1%nat)
      else
        let b1 := code (nth 1 p zero) in
        if (b1 <? fst accept) || (snd accept <? b1) then (RuneError, 1%nat)
        else if (sz <=? 2)%nat then
          (N.lor (N.shiftl (N.land p0 mask2) 6) (N.land b1 maskx), 2%nat)
        else
          let b2 := code (nth 2 p zero) in
          if (b2 <? locb) || (hicb <? b2) then (RuneError, 1%nat)
          else if (sz <=? 3)%nat then
            (N.lor (N.lor (N.shiftl (N.land p0 mask3) 12)
                          (N.shiftl (N.land b1 maskx) 6))
                   (N.land b2 maskx), 3%nat)
          else
            let b3 := code (nth 3 p zero) in
            if (b3 <? locb) || (hicb <? b3) then (RuneError, 1%nat)
            else
              (N.lor (N.lor (N.lor (N.shiftl (N.land p0 mask4) 18)
                                   (N.shiftl (N.land b1 maskx) 12))
                            (N.shiftl (N.land b2 maskx) 6))
                     (N.land b3 maskx), 4%nat)
  end%N.

(** [[]byte(string(utf8.RuneError))]: EF BF BD. *)
Definition runeErrorByte : bytes := ["239"; "191"; "189"].

(** *** The loop of ScrubBadUTF8

    The loop need not end, so it runs on fuel: [None] is a loop still
    running when the fuel is spent.  One unit of fuel is one iteration. *)
Fixpoint scrubLoop (fuel : nat) (input output : bytes) : option bytes :=
  match input with
  | [] => Some output
  | _ :: _ =>
    match fuel with
    | O => None
    | S fuel =>
      let (r, w) := DecodeRune input in
      if (r =? RuneError)%N then
        (* output.Write(runeErrorByte); continue *)
        scrubLoop fuel input (output ++ runeErrorByte)
      else
        scrubLoop fuel (skipn w input) (output ++ firstn w input)
    end
  end.

(** [ScrubBadUTF8]: a nil slice is [None]; the result is [None] when the
    loop has not returned within the fuel. *)
Definition ScrubBadUTF8 (fuel : nat) (input : option bytes)
    : option (option bytes) :=
  match input with
  | None => Some None
  | Some input => option_map Some (scrubLoop fuel input [])
  end.

(** ** Go's [regexp], as far as the package uses it

    A pattern is a backtracking matcher: from a cursor in the text it gives
    the cursors after every way of matching, in the order in which a
    backtracking engine tries them, so that the head of the list is Go's
    leftmost-first match.  A cursor remembers the byte before it (for [\b])
    and the text of the capture groups closed so far.  All patterns of the
    package are made of ASCII bytes, so matching bytes and matching runes
    agree. *)

Record cursor := Cursor {
  c_prev : option ascii;          (* the byte before the cursor, if any *)
  c_rest : bytes;                 (* the text from the cursor on *)
  c_caps : list (nat * bytes)     (* capture groups, latest first *)
}.

Definition rx := cursor -> list cursor.

Definition inRange (lo hi ch : ascii) : bool :=
  (code lo <=? code ch)%N && (code ch <=? code hi)%N.

(** [\d] *)
Definition isDigit (ch : ascii) : bool := inRange "0" "9" ch.

(** [\w]: ASCII word bytes *)
Definition isWordChar (ch : ascii) : bool :=
  inRange "0" "9" ch || inRange "A" "Z" ch || inRange "a" "z" ch
  || Ascii.eqb ch "_".

(** [\s]: tab, newline, form feed, carriage return, space *)
Definition isSpaceChar (ch : ascii) : bool :=
  existsb (Ascii.eqb ch) [TAB; LF; "012"; CR; SP].

(** A bracket class listing its members, [[cefg]] *)
Definition oneOf (members : string) (ch : ascii) : bool :=
  existsb (Ascii.eqb ch) (B members).

Definition eps : rx := fun c => [c].

(** One byte of a class. *)
Definition chr (p : ascii -> bool) : rx := fun c =>
  match c_rest c with
  | ch :: rest => if p ch then [Cursor (Some ch) rest (c_caps c)] else []
  | [] => []
  end.

Definition seq (a b : rx) : rx := fun c => flat_map b (a c).

(** [a|b]: the alternatives of [a] are tried first. *)
Definition alt (a b : rx) : rx := fun c => a c ++ b c.

(** [a?], greedy *)
Definition opt (a : rx) : rx := alt a eps.

Fixpoint litBytes (s : bytes) : rx :=
  match s with
  | [] => eps
  | ch :: s' => seq (chr (Ascii.eqb ch)) (litBytes s')
  end.

(** A literal string. *)
Definition lit (s : string) : rx := litBytes (B s).

(** [a{n}] *)
Fixpoint times (n : nat) (a : rx) : rx :=
  match n with
  | O => eps
  | S n => seq a (times n a)
  end.

Fixpoint manyFrom (p : ascii -> bool) (prev : option ascii) (s : bytes)
    (caps : list (nat * bytes)) : list cursor :=
  match s with
  | ch :: rest =>
    if p ch then manyFrom p (Some ch) rest caps ++ [Cursor prev s caps]
    else [Cursor prev s caps]
  | [] => [Cursor prev [] caps]
  end.

(** [x*] for a class [x], greedy: the longest run first. *)
Definition many (p : ascii -> bool) : rx := fun c =>
  manyFrom p (c_prev c) (c_rest c) (c_caps c).

(** [x+] for a class [x], greedy *)
Definition many1 (p : ascii -> bool) : rx := seq (chr p) (many p).

Definition isWordAt (o : option ascii) : bool :=
  match o with
  | Some ch => isWordChar ch
  | None => false
  end.

(** [\b]: a word byte on exactly one side. *)
Definition wordBoundary : rx := fun c =>
  if xorb (isWordAt (c_prev c)) (isWordAt (hd_error (c_rest c)))
  then [c] else [].

(** [(a)] as capture group [n]. *)
Definition group (n : nat) (a : rx) : rx := fun c =>
  map (fun c' =>
         Cursor (c_prev c') (c_rest c')
           ((n, firstn (length (c_rest c) - length (c_rest c')) (c_rest c))
              :: c_caps c'))
      (a c).

Declare Scope rx_scope.
Delimit Scope rx_scope with rx.
Bind Scope rx_scope with rx.
Notation "a ;; b" := (seq a b) (at level 61, right associativity) : rx_scope.
Notation "a <|> b" := (alt a b) (at level 62, right associativity) : rx_scope.

(** The cursor at the start of the text [s]. *)
Definition startOf (s : bytes) : cursor := Cursor None s [].

(** [re.Match(b)] for a pattern that begins with [^]. *)
Definition Match (re : rx) (b : bytes) : bool :=
  match re (startOf b) with
  | [] => false
  | _ :: _ => true
  end.

(** [re.Find(b)] for a pattern that begins with [^]: the matched text, or
    [None] for Go's nil. *)
Definition Find (re : rx) (b : bytes) : option bytes :=
  match re (startOf b) with
  | [] => None
  | c :: _ => Some (firstn (length b - length (c_rest c)) b)
  end.

(** [bytes.HasPrefix(s, prefix)] *)
Fixpoint HasPrefix (s prefix : bytes) {struct prefix} : bool :=
  match prefix, s with
  | [], _ => true
  | p :: prefix', ch :: s' => Ascii.eqb ch p && HasPrefix s' prefix'
  | _ :: _, [] => false
  end.

(** ** The line classifier

    The patterns and predicates as they are declared beside [SectionInput]
    (filters.go declares an older set of them). *)

Local Open Scope rx_scope.

Definition digit : rx := chr isDigit.

Definition rxCourierHeader : rx :=    (* ^courier \d{4}c\d, *)
  lit "courier " ;; times 4 digit ;; lit "c" ;; digit ;; lit ",".
Definition rxElementHeader : rx :=    (* ^element \d{4}e\d, *)
  lit "element " ;; times 4 digit ;; lit "e" ;; digit ;; lit ",".
Definition rxFleetHeader : rx :=      (* ^fleet \d{4}f\d, *)
  lit "fleet " ;; times 4 digit ;; lit "f" ;; digit ;; lit ",".
Definition rxGarrisonHeader : rx :=   (* ^garrison \d{4}g\d, *)
  lit "garrison " ;; times 4 digit ;; lit "g" ;; digit ;; lit ",".
Definition rxTribeHeader : rx :=      (* ^tribe \d{4}, *)
  lit "tribe " ;; times 4 digit ;; lit ",".

Definition rxTurnHeader : rx :=       (* ^current turn \d{3,4}-\d{1,2}\(#\d+\), *)
  lit "current turn " ;; times 3 digit ;; opt digit ;; lit "-"
  ;; digit ;; opt digit ;; lit "(#" ;; many1 isDigit ;; lit "),".

Definition rxFleetMovement : rx :=
  (* ^(calm|mild|strong|gale) (ne|se|sw|nw|n|s) fleet movement: *)
  group 1 (lit "calm" <|> lit "mild" <|> lit "strong" <|> lit "gale")
  ;; lit " "
  ;; group 2 (lit "ne" <|> lit "se" <|> lit "sw" <|> lit "nw" <|> lit "n" <|> lit "s")
  ;; lit " fleet movement:".
Definition rxScoutLine : rx :=        (* ^scout [1-8]: *)
  lit "scout " ;; chr (inRange "1" "8") ;; lit ":".

Definition rxCourierStatus : rx :=    (* ^\d{4}c\d status: *)
  times 4 digit ;; lit "c" ;; digit ;; lit " status:".
Definition rxElementStatus : rx :=    (* ^\d{4}e\d status: *)
  times 4 digit ;; lit "e" ;; digit ;; lit " status:".
Definition rxFleetStatus : rx :=      (* ^\d{4}f\d status: *)
  times 4 digit ;; lit "f" ;; digit ;; lit " status:".
Definition rxGarrisonStatus : rx :=   (* ^\d{4}g\d status: *)
  times 4 digit ;; lit "g" ;; digit ;; lit " status:".
Definition rxTribeStatus : rx :=      (* ^\d{4} status: *)
  times 4 digit ;; lit " status:".

Definition IsFleetMovement (line : bytes) : bool := Match rxFleetMovement line.

(** IsScoutLine: for example "scout 1: scout s-pr". *)
Definition IsScoutLine (line : bytes) : bool := Match rxScoutLine line.

Definition IsTribeFollows (line : bytes) : bool :=
  HasPrefix line (B "tribe follows ").

Definition IsTribeGoesTo (line : bytes) : bool :=
  HasPrefix line (B "tribe goes to ").

Definition IsTribeMovement (line : bytes) : bool :=
  HasPrefix line (B "tribe movement:").

Definition IsMovementLine (line : bytes) : bool :=
  IsTribeMovement line || IsTribeFollows line || IsTribeGoesTo line
  || IsScoutLine line || IsFleetMovement line.

Definition IsTurnHeader (line : bytes) : bool := Match rxTurnHeader line.

(** IsUnitHeader: a tribe, courier, element, fleet or garrison header. *)
Definition IsUnitHeader (line : bytes) : bool :=
  Match rxTribeHeader line || Match rxCourierHeader line
  || Match rxElementHeader line || Match rxFleetHeader line
  || Match rxGarrisonHeader line.

(** IsUnitStatus: a tribe, courier, element, fleet or garrison status line. *)
Definition IsUnitStatus (line : bytes) : bool :=
  Match rxTribeStatus line || Match rxCourierStatus line
  || Match rxElementStatus line || Match rxFleetStatus line
  || Match rxGarrisonStatus line.

(** RemoveNonMappingLines keeps unit headers, turn headers, movement lines
    and unit status lines. *)
Definition RemoveNonMappingLines (input : list bytes) : list bytes :=
  filter (fun line =>
            if IsUnitHeader line then true
            else if IsTurnHeader line then true
            else if IsMovementLine line then true
            else if IsUnitStatus line then true
            else false) input.

Local Close Scope rx_scope.

(** The kinds of line, and the kind the else-if chain of [SectionInput]
    gives a line (the chain tests the unit header first, then fleet
    movement, follows, goes to, tribe movement, scout, turn and status). *)
Inductive LineKind :=
| UnitHeader | TurnHeader | TribeMovement | TribeFollows | TribeGoesTo
| FleetMovement | ScoutMovement | UnitStatus | Unclassified.

Definition lineKind (line : bytes) : LineKind :=
  if IsUnitHeader line then UnitHeader
  else if IsFleetMovement line then FleetMovement
  else if IsTribeFollows line then TribeFollows
  else if IsTribeGoesTo line then TribeGoesTo
  else if IsTribeMovement line then TribeMovement
  else if IsScoutLine line then ScoutMovement
  else if IsTurnHeader line then TurnHeader
  else if IsUnitStatus line then UnitStatus
  else Unclassified.

(** The predicates of the defined kinds, and how many of them hold. *)
Definition kindPredicates : list (bytes -> bool) :=
  [IsUnitHeader; IsTurnHeader; IsFleetMovement; IsTribeFollows;
   IsTribeGoesTo; IsTribeMovement; IsScoutLine; IsUnitStatus].

Definition kindsOf (line : bytes) : nat :=
  length (filter (fun p => p line) kindPredicates).

(** ** The section splitter *)

(** [bytes.Split(input, []byte{'\n'})]: the pieces between newlines; one
    (empty) piece for an empty input. *)
Fixpoint Split (input : bytes) : list bytes :=
  match input with
  | [] => [[]]
  | ch :: rest =>
    if Ascii.eqb ch LF then [] :: Split rest
    else match Split rest with
         | line :: lines => (ch :: line) :: lines
         | [] => [[ch]]
         end
  end.

(** The struct [Section].  A field of type [[]byte] that was never assigned
    is [[]]: the code only ever asks such a field for its length. *)
Record SectionMoves := mkMoves {
  Movement : bytes;
  Follows : bytes;
  GoesTo : bytes;
  Fleet : bytes;
  Scouts : list bytes
}.

Record Section := mkSection {
  Id : nat;
  Header : bytes;
  Turn : bytes;
  Moves : SectionMoves;
  Status : bytes
}.

(** [&Section{Id: id, Header: line}] *)
Definition newSection (id : nat) (line : bytes) : Section :=
  mkSection id line [] (mkMoves [] [] [] [] []) [].

Definition setMoves (f : SectionMoves -> SectionMoves) (s : Section) : Section :=
  mkSection (Id s) (Header s) (Turn s) (f (Moves s)) (Status s).

(** The assignments a line that is not a header makes through the pointer
    [section]; the first test that holds decides. *)
Definition assignLine (line : bytes) (section : Section) : Section :=
  if IsFleetMovement line then
    setMoves (fun m => mkMoves (Movement m) (Follows m) (GoesTo m) line (Scouts m)) section
  else if IsTribeFollows line then
    setMoves (fun m => mkMoves (Movement m) line (GoesTo m) (Fleet m) (Scouts m)) section
  else if IsTribeGoesTo line then
    setMoves (fun m => mkMoves (Movement m) (Follows m) line (Fleet m) (Scouts m)) section
  else if IsTribeMovement line then
    setMoves (fun m => mkMoves line (Follows m) (GoesTo m) (Fleet m) (Scouts m)) section
  else if IsScoutLine line then
    setMoves (fun m => mkMoves (Movement m) (Follows m) (GoesTo m) (Fleet m)
                               (Scouts m ++ [line])) section
  else if IsTurnHeader line then
    mkSection (Id section) (Header section) line (Moves section) (Status section)
  else if IsUnitStatus line then
    mkSection (Id section) (Header section) (Turn section) (Moves section) line
  else section.

(** A write through a pointer to the section stored at index [p] of the
    slice [sections]. *)
Fixpoint store (p : nat) (f : Section -> Section) (sections : list Section)
    : list Section :=
  match sections, p with
  | [], _ => []
  | s :: rest, O => f s :: rest
  | s :: rest, S p => s :: store p f rest
  end.

(** The state of the loop of [SectionInput]: the slice [sections] and the
    pointer [section], which is nil ([None]) or points at the section
    stored at the given index of the slice. *)
Definition splitterState := (list Section * option nat)%type.

Definition sectionStep (st : splitterState) (line : bytes) : splitterState :=
  let '(sections, section) := st in
  if (length line =? 0)%nat then st
  else if IsUnitHeader line then
    (sections ++ [newSection (length sections + 1) line], Some (length sections))
  else match section with
       | None => st
       | Some p => (store p (assignLine line) sections, section)
       end.

Definition sectionLines (lines : list bytes) : list Section :=
  fst (fold_left sectionStep lines ([], None)).

(** SectionInput splits the input into lines and assigns lines to their own
    sections. *)
Definition SectionInput (input : bytes) : list Section :=
  sectionLines (Split input).

(** The last line of [body] accepted by [p], or [[]] when there is none. *)
Definition lastOf (p : bytes -> bool) (body : list bytes) : bytes :=
  last (filter p body) [].

Definition noHeader (lines : list bytes) : bool :=
  forallb (fun line => negb (IsUnitHeader line)) lines.

(** What follows the body of a section: the end of the input or the next
    unit header. *)
Definition sectionEnds (rest : list bytes) : bool :=
  match rest with
  | [] => true
  | line :: _ => IsUnitHeader line
  end.

(** The section a header line and the lines of its body amount to. *)
Definition sectionOf (id : nat) (header : bytes) (body : list bytes) : Section :=
  mkSection id header (lastOf IsTurnHeader body)
    (mkMoves (lastOf IsTribeMovement body) (lastOf IsTribeFollows body)
             (lastOf IsTribeGoesTo body) (lastOf IsFleetMovement body)
             (filter IsScoutLine body))
    (lastOf IsUnitStatus body).

(** The input of the three-unit scenario, and its sections. *)
Definition threeUnits : bytes :=
  B "tribe 0987,,current hex = ## 0709,(previous hex = ## 0709)" ++ [LF]
  ++ B "0987 status:prairie,0987" ++ [LF]
  ++ B "garrison 0987g1,,current hex = ## 0709,(previous hex = ## 0709)" ++ [LF]
  ++ B "0987g1 status:prairie,0987g1" ++ [LF]
  ++ B "fleet 0987f1,,current hex = ## 0710,(previous hex = ## 0709)" ++ [LF]
  ++ B "0987f1 status:ocean,0987f1".

Definition statusOnly (id : nat) (header status : string) : Section :=
  mkSection id (B header) [] (mkMoves [] [] [] [] []) (B status).

(** ** The step-list normaliser (parse.go) *)

Local Open Scope rx_scope.

(** The unit id [\d{4}([cefg]\d)?] with its suffix as capture group [n]. *)
Definition unitIdWithGroup (n : nat) : rx :=
  times 4 digit ;; opt (group n (chr (oneOf "cefg") ;; digit)).

Definition isCommaOrSpace (ch : ascii) : bool :=
  Ascii.eqb ch "," || isSpaceChar ch.   (* [,\s] *)

Definition edgeCodePattern : rx :=       (* ^,(hsm|l|lcm|ljm|lsm|o)\b *)
  lit ","
  ;; group 1 (lit "hsm" <|> lit "l" <|> lit "lcm" <|> lit "ljm" <|> lit "lsm"
              <|> lit "o")
  ;; wordBoundary.
Definition unitIDPattern : rx :=         (* ^,\d{4}([cefg]\d)?\b *)
  lit "," ;; unitIdWithGroup 1 ;; wordBoundary.
Definition listDirectionPattern : rx :=  (* ^[,\s]([ns][ew]?)\b *)
  chr isCommaOrSpace
  ;; group 1 (chr (oneOf "ns") ;; opt (chr (oneOf "ew")))
  ;; wordBoundary.
Definition listUnitIDPattern : rx :=     (* ^[,\s]\d{4}([cefg]\d)?\b *)
  chr isCommaOrSpace ;; unitIdWithGroup 1 ;; wordBoundary.

Local Close Scope rx_scope.

(** *** Matches are prefixes of the text

    What the loops below need in order to end: a match of one of the four
    patterns is a non-empty prefix of the text it was found in. *)

Definition Consumes (re : rx) : Prop :=
  forall c c', In c' (re c) -> exists m, c_rest c = m ++ c_rest c'.

Definition Advances (re : rx) : Prop :=
  forall c c', In c' (re c) -> exists ch m, c_rest c = ch :: m ++ c_rest c'.

Lemma Advances_Consumes re : Advances re -> Consumes re.
Proof. intros H c c' Hin. destruct (H c c' Hin) as (ch & m & E). now exists (ch :: m). Qed.

Lemma Consumes_eps : Consumes eps.
Proof. intros c c' [<-|[]]. now exists []. Qed.

Lemma Advances_chr p : Advances (chr p).
Proof.
  intros c c' H. unfold chr in H.
  destruct (c_rest c) as [|ch rest]; [destruct H|].
  destruct (p ch); [|destruct H].
  destruct H as [<-|[]]. now exists ch, [].
Qed.

Lemma Consumes_seq a b : Consumes a -> Consumes b -> Consumes (seq a b).
Proof.
  intros Ha Hb c c'' H. apply in_flat_map in H as (c' & H1 & H2).
  destruct (Ha _ _ H1) as (m1 & E1). destruct (Hb _ _ H2) as (m2 & E2).
  exists (m1 ++ m2). now rewrite E1, E2, app_assoc.
Qed.

Lemma Advances_seq a b : Advances a -> Consumes b -> Advances (seq a b).
Proof.
  intros Ha Hb c c'' H. apply in_flat_map in H as (c' & H1 & H2).
  destruct (Ha _ _ H1) as (ch & m1 & E1). destruct (Hb _ _ H2) as (m2 & E2).
  exists ch, (m1 ++ m2). now rewrite E1, E2, app_assoc.
Qed.

Lemma Consumes_alt a b : Consumes a -> Consumes b -> Consumes (alt a b).
Proof. intros Ha Hb c c' H. apply in_app_iff in H as [H|H]; eauto. Qed.

Lemma Advances_alt a b : Advances a -> Advances b -> Advances (alt a b).
Proof. intros Ha Hb c c' H. apply in_app_iff in H as [H|H]; eauto. Qed.

Lemma Consumes_opt a : Consumes a -> Consumes (opt a).
Proof. intros Ha. apply Consumes_alt; [assumption | apply Consumes_eps]. Qed.

Lemma Consumes_wordBoundary : Consumes wordBoundary.
Proof.
  intros c c' H. unfold wordBoundary in H.
  destruct (xorb _ _); [|destruct H]. destruct H as [<-|[]]. now exists [].
Qed.

Lemma Consumes_group n a : Consumes a -> Consumes (group n a).
Proof.
  intros Ha c c' H. apply in_map_iff in H as (c0 & <- & H). exact (Ha _ _ H).
Qed.

Lemma Advances_group n a : Advances a -> Advances (group n a).
Proof.
  intros Ha c c' H. apply in_map_iff in H as (c0 & <- & H). exact (Ha _ _ H).
Qed.

Lemma Consumes_litBytes s : Consumes (litBytes s).
Proof.
  induction s as [|ch s IH]; [apply Consumes_eps|].
  apply Consumes_seq; [apply Advances_Consumes, Advances_chr | exact IH].
Qed.

Lemma Advances_lit ch s : Advances (lit (String ch s)).
Proof. apply Advances_seq; [apply Advances_chr | apply Consumes_litBytes]. Qed.

Lemma Consumes_lit s : Consumes (lit s).
Proof. apply Consumes_litBytes. Qed.

Lemma Consumes_times n a : Consumes a -> Consumes (times n a).
Proof.
  intros Ha. induction n as [|n IH]; [apply Consumes_eps|].
  now apply Consumes_seq.
Qed.

Lemma Consumes_many p : Consumes (many p).
Proof.
  intros c c'. unfold many.
  generalize (c_prev c) (c_caps c). generalize (c_rest c). clear c.
  intros s. induction s as [|ch rest IH]; intros prev caps; simpl.
  - intros [<-|[]]. now exists [].
  - destruct (p ch).
    + intros H. apply in_app_iff in H as [H|[<-|[]]].
      * destruct (IH _ _ H) as (m & E). exists (ch :: m). simpl. now rewrite <- E.
      * now exists [].
    + intros [<-|[]]. now exists [].
Qed.

Create HintDb rx.
#[local] Hint Resolve Advances_Consumes Consumes_eps Advances_chr Consumes_seq
  Advances_seq Consumes_alt Advances_alt Consumes_opt Consumes_wordBoundary
  Consumes_group Advances_group Advances_lit Consumes_lit Consumes_times
  Consumes_many : rx.

Lemma Find_prefix re b m :
  Consumes re -> Find re b = Some m ->
  exists c, hd_error (re (startOf b)) = Some c /\ b = m ++ c_rest c.
Proof.
  intros Hre. unfold Find.
  destruct (re (startOf b)) as [|c l] eqn:E; [discriminate|].
  intros [= <-]. exists c. split; [reflexivity|].
  destruct (Hre (startOf b) c) as (m & Hm); [rewrite E; now left|].
  simpl in Hm. rewrite Hm at 2 3.
  rewrite Hm, length_app, Nat.add_sub, firstn_app, Nat.sub_diag, firstn_all.
  simpl. now rewrite app_nil_r.
Qed.

Lemma Find_nonempty re b m :
  Advances re -> Find re b = Some m -> exists ch m', m = ch :: m'.
Proof.
  intros Hre H.
  destruct (Find_prefix re b m (Advances_Consumes _ Hre) H) as (c & Hc & Hb).
  destruct (Hre (startOf b) c) as (ch & m' & Hm).
  { destruct (re (startOf b)); [discriminate|]. injection Hc as ->. now left. }
  simpl in Hm. rewrite Hm in Hb.
  change (ch :: m' ++ c_rest c) with ((ch :: m') ++ c_rest c) in Hb.
  apply app_inv_tail in Hb. now exists ch, m'.
Qed.

Lemma edgeCodePattern_advances : Advances edgeCodePattern.
Proof. unfold edgeCodePattern. auto 20 with rx. Qed.

Lemma unitIDPattern_advances : Advances unitIDPattern.
Proof. unfold unitIDPattern, unitIdWithGroup, digit. auto 20 with rx. Qed.

Lemma listDirectionPattern_advances : Advances listDirectionPattern.
Proof. unfold listDirectionPattern. auto 20 with rx. Qed.

Lemma listUnitIDPattern_advances : Advances listUnitIDPattern.
Proof. unfold listUnitIDPattern, unitIdWithGroup, digit. auto 20 with rx. Qed.

(** After [step = step[len(match):]] the slice is shorter. *)
Lemma skip_match_shorter re step m (patch : bytes -> bytes) :
  Advances re -> Find re step = Some m ->
  length (patch step) = length step ->
  length (skipn (length m) (patch step)) < length step.
Proof.
  intros Hre H Hpatch.
  destruct (Find_nonempty re step m Hre H) as (ch & m' & ->).
  destruct (Find_prefix re step _ (Advances_Consumes _ Hre) H) as (c & _ & Hb).
  rewrite length_skipn, Hpatch. rewrite Hb at 1 2. rewrite length_app. simpl. lia.
Qed.

(** *** scrubStepResults

    The slice [step] is a window on the tail of the array of [line]; the
    state of the scan is the part of the array before the window, [done],
    and the window itself, so that the array reads [done ++ step].  A write
    to [step[0]] is a write to the array. *)

Definition inspect {A} (a : A) : {b : A | a = b} := exist _ a eq_refl.

(** [step[0] = ' '] *)
Definition blankFirst (step : bytes) : bytes := SP :: tl step.

Lemma blankFirst_length step m re :
  Advances re -> Find re step = Some m ->
  length (blankFirst step) = length step.
Proof.
  intros Hre H.
  destruct (Find_nonempty re step m Hre H) as (ch & m' & ->).
  destruct (Find_prefix re step _ (Advances_Consumes _ Hre) H) as (c & _ & ->).
  reflexivity.
Qed.

(** [for len(step) != 0 && step[0] != ',' { step = step[1:] }] *)
Fixpoint toComma (done step : bytes) : bytes * bytes :=
  match step with
  | ch :: rest =>
    if Ascii.eqb ch "," then (done, step) else toComma (done ++ [ch]) rest
  | [] => (done, [])
  end.

Lemma toComma_length step : forall done,
  length (snd (toComma done step)) <= length step.
Proof.
  induction step as [|ch rest IH]; intros done; simpl; [lia|].
  destruct (Ascii.eqb ch ","); simpl; [lia|]. specialize (IH (done ++ [ch])). lia.
Qed.

(** The loop over a list of direction codes: while the list pattern
    matches, blank the separator and skip the element. *)
Equations? directionList (done step : bytes) : bytes * bytes
    by wf (length step) lt :=
  directionList done step with inspect (Find listDirectionPattern step) := {
    | exist _ (Some elementMatch) _ :=
        directionList
          (done ++ firstn (length elementMatch) (blankFirst step))
          (skipn (length elementMatch) (blankFirst step));
    | exist _ None _ := (done, step) }.
Proof.
  eapply skip_match_shorter; eauto using listDirectionPattern_advances.
  eapply blankFirst_length; eauto using listDirectionPattern_advances.
Qed.

(** The loop over a list of unit ids. *)
Equations? unitIDList (done step : bytes) : bytes * bytes
    by wf (length step) lt :=
  unitIDList done step with inspect (Find listUnitIDPattern step) := {
    | exist _ (Some elementMatch) _ :=
        unitIDList
          (done ++ firstn (length elementMatch) (blankFirst step))
          (skipn (length elementMatch) (blankFirst step));
    | exist _ None _ := (done, step) }.
Proof.
  eapply skip_match_shorter; eauto using listUnitIDPattern_advances.
  eapply blankFirst_length; eauto using listUnitIDPattern_advances.
Qed.

Lemma directionList_step done step :
  directionList done step =
  match Find listDirectionPattern step with
  | Some elementMatch =>
    directionList (done ++ firstn (length elementMatch) (blankFirst step))
                  (skipn (length elementMatch) (blankFirst step))
  | None => (done, step)
  end.
Proof.
  rewrite directionList_equation_1.
  generalize (inspect (Find listDirectionPattern step)).
  intros [[m|] E].
  - rewrite directionList_clause_1_equation_1. now rewrite E.
  - rewrite directionList_clause_1_equation_2. now rewrite E.
Qed.

Lemma unitIDList_step done step :
  unitIDList done step =
  match Find listUnitIDPattern step with
  | Some elementMatch =>
    unitIDList (done ++ firstn (length elementMatch) (blankFirst step))
               (skipn (length elementMatch) (blankFirst step))
  | None => (done, step)
  end.
Proof.
  rewrite unitIDList_equation_1.
  generalize (inspect (Find listUnitIDPattern step)).
  intros [[m|] E].
  - rewrite unitIDList_clause_1_equation_1. now rewrite E.
  - rewrite unitIDList_clause_1_equation_2. now rewrite E.
Qed.

Lemma directionList_length step : forall done,
  length (snd (directionList done step)) <= length step.
Proof.
  induction step as [step IH] using bytes_length_ind. intros done.
  rewrite directionList_step.
  destruct (Find listDirectionPattern step) as [m|] eqn:E; simpl; [|lia].
  pose proof (skip_match_shorter _ step m blankFirst
                listDirectionPattern_advances E
                (blankFirst_length _ _ _ listDirectionPattern_advances E)) as Hlt.
  specialize (IH _ Hlt (done ++ firstn (length m) (blankFirst step))). lia.
Qed.

Lemma unitIDList_length step : forall done,
  length (snd (unitIDList done step)) <= length step.
Proof.
  induction step as [step IH] using bytes_length_ind. intros done.
  rewrite unitIDList_step.
  destruct (Find listUnitIDPattern step) as [m|] eqn:E; simpl; [|lia].
  pose proof (skip_match_shorter _ step m blankFirst
                listUnitIDPattern_advances E
                (blankFirst_length _ _ _ listUnitIDPattern_advances E)) as Hlt.
  specialize (IH _ Hlt (done ++ firstn (length m) (blankFirst step))). lia.
Qed.

(** The loop that processes all the results; it returns the array. *)
Equations? resultsLoop (done step : bytes) : bytes by wf (length step) lt :=
  resultsLoop done [] := done;
  resultsLoop done (ch :: rest)
    with inspect (Find edgeCodePattern (ch :: rest)) := {
    | exist _ (Some m) _
        with inspect (directionList (done ++ m)
                        (skipn (length m) (ch :: rest))) := {
        | exist _ (done', step') _ := resultsLoop done' step' };
    | exist _ None _ with inspect (Find unitIDPattern (ch :: rest)) := {
        | exist _ (Some m) _
            with inspect (unitIDList (done ++ m)
                            (skipn (length m) (ch :: rest))) := {
            | exist _ (done', step') _ := resultsLoop done' step' };
        | exist _ None _
            with inspect (toComma (done ++ [ch]) rest) := {
            | exist _ (done', step') _ := resultsLoop done' step' } } }.
Proof.
  - pose proof (directionList_length (skipn (length m) (ch :: rest)) (done ++ m)) as H.
    match goal with E : directionList _ _ = _ |- _ => rewrite E in H end.
    pose proof (skip_match_shorter _ (ch :: rest) m (fun s => s)
                  edgeCodePattern_advances ltac:(eassumption) eq_refl) as H'.
    simpl in *. lia.
  - pose proof (unitIDList_length (skipn (length m) (ch :: rest)) (done ++ m)) as H.
    match goal with E : unitIDList _ _ = _ |- _ => rewrite E in H end.
    pose proof (skip_match_shorter _ (ch :: rest) m (fun s => s)
                  unitIDPattern_advances ltac:(eassumption) eq_refl) as H'.
    simpl in *. lia.
  - pose proof (toComma_length rest (done ++ [ch])) as H.
    match goal with E : toComma _ _ = _ |- _ => rewrite E in H end.
    simpl in *. lia.
Qed.

(** scrubStepResults processes a step to normalize commas and spaces around
    direction codes and unit IDs. *)
Definition scrubStepResults (line : bytes) : bytes :=
  let '(done, step) := toComma [] line in   (* advance to the first comma *)
  resultsLoop done step.

(** What the scan may do to a byte: leave it, or turn a separator (a comma
    or a white-space byte) into a space. *)
Definition blanked (a b : ascii) : Prop :=
  a = b \/ (isCommaOrSpace a = true /\ b = SP).

Definition blankedText : bytes -> bytes -> Prop := Forall2 blanked.

(** *** Result lists in a scanned line

    A result list is a head, found by [head] at a comma, and the elements
    that [element] finds one after the other behind it.  [listWalk element s
    t]: from the text [s] a walk over zero or more elements arrives at the
    text [t]. *)
Inductive listWalk (element : rx) : bytes -> bytes -> Prop :=
| walk_here s : listWalk element s s
| walk_next s m t :
    Find element s = Some m ->
    listWalk element (skipn (length m) s) t ->
    listWalk element s t.

(** [t] is the text of [out] from an element of one of its result lists on:
    a direction behind an edge code, or a unit id behind a unit id. *)
Inductive listElement (out : bytes) (t : bytes) : Prop :=
| direction_element pre s m em :
    out = pre ++ s ->
    Find edgeCodePattern s = Some m ->
    listWalk listDirectionPattern (skipn (length m) s) t ->
    Find listDirectionPattern t = Some em ->
    listElement out t
| unitID_element pre s m em :
    out = pre ++ s ->
    Find unitIDPattern s = Some m ->
    listWalk listUnitIDPattern (skipn (length m) s) t ->
    Find listUnitIDPattern t = Some em ->
    listElement out t.

(** *** [regexp.ReplaceAll], [bytes.ReplaceAll], [bytes.TrimRight]

    A replacement template is literal text with references [$n] to capture
    groups. *)
Inductive templateItem :=
| TText (text : bytes)
| TGroup (n : nat).

Fixpoint capture (n : nat) (caps : list (nat * bytes)) : bytes :=
  match caps with
  | [] => []
  | (k, text) :: caps' => if (k =? n)%nat then text else capture n caps'
  end.

Fixpoint expand (template : list templateItem) (caps : list (nat * bytes))
    : bytes :=
  match template with
  | [] => []
  | TText text :: template' => text ++ expand template' caps
  | TGroup n :: template' => capture n caps ++ expand template' caps
  end.

(** [re.ReplaceAll(src, template)]: the text is searched from the left; at a
    position where the pattern matches, the expansion of the template is
    written and the search goes on behind the match; elsewhere the byte is
    copied.  [skip] counts the bytes of the last match still to be passed
    over.  None of the package's patterns matches the empty text. *)
Fixpoint replaceFrom (re : rx) (template : list templateItem)
    (prev : option ascii) (src : bytes) (skip : nat) : bytes :=
  match src with
  | [] => []
  | ch :: rest =>
    match skip with
    | S skip' => replaceFrom re template (Some ch) rest skip'
    | O =>
      match re (Cursor prev src []) with
      | c :: _ =>
        expand template (c_caps c)
        ++ match length src - length (c_rest c) with
           | O => ch :: replaceFrom re template (Some ch) rest 0
           | S skip' => replaceFrom re template (Some ch) rest skip'
           end
      | [] => ch :: replaceFrom re template (Some ch) rest 0
      end
    end
  end.

Definition ReplaceAll (re : rx) (src : bytes) (template : list templateItem)
    : bytes :=
  replaceFrom re template None src 0.

(** [bytes.ReplaceAll(s, old, new)] for a non-empty [old]. *)
Fixpoint bytesReplaceFrom (old new s : bytes) (skip : nat) : bytes :=
  match s with
  | [] => []
  | ch :: rest =>
    match skip with
    | S skip' => bytesReplaceFrom old new rest skip'
    | O =>
      if HasPrefix s old then new ++ bytesReplaceFrom old new rest (length old - 1)
      else ch :: bytesReplaceFrom old new rest 0
    end
  end.

Definition bytesReplaceAll (s old new : bytes) : bytes :=
  bytesReplaceFrom old new s 0.

(** [bytes.TrimRight(s, cutset)] for a cutset of one ASCII byte. *)
Fixpoint TrimRight (s : bytes) (cut : ascii) : bytes :=
  match s with
  | [] => []
  | ch :: rest =>
    match TrimRight rest cut with
    | [] => if Ascii.eqb ch cut then [] else [ch]
    | kept => ch :: kept
    end
  end.

(** [bytes.TrimPrefix(s, prefix)] *)
Definition TrimPrefix (s prefix : bytes) : bytes :=
  if HasPrefix s prefix then skipn (length prefix) s else s.

Local Open Scope rx_scope.

Definition isBackslash (ch : ascii) : bool := Ascii.eqb ch "\".
Definition isComma (ch : ascii) : bool := Ascii.eqb ch ",".

(** The unit id [\d{4}(?:[cefg]\d)?] *)
Definition unitId : rx := times 4 digit ;; opt (chr (oneOf "cefg") ;; digit).

(** [(ne|se|sw|nw|n|s)] *)
Definition direction : rx :=
  lit "ne" <|> lit "se" <|> lit "sw" <|> lit "nw" <|> lit "n" <|> lit "s".

Definition reBackslashDash : rx :=      (* \\+-+ * *)
  many1 isBackslash ;; many1 (Ascii.eqb "-") ;; many (Ascii.eqb " ").
Definition reBackslashComma : rx :=     (* \\+,+ *)
  many1 isBackslash ;; many1 isComma.
Definition reBackslashUnit : rx :=      (* \\+(\d{4}(?:[cefg]\d)?) *)
  many1 isBackslash ;; group 1 unitId.
Definition reCommaBackslash : rx :=     (* ,+\\ *)
  many1 isComma ;; lit "\".
Definition reDirectionUnit : rx :=      (* \b(ne|se|sw|nw|n|s) (\d{4}(?:[cefg]\d)?) *)
  wordBoundary ;; group 1 direction ;; lit " " ;; group 2 unitId.
Definition reRunOfBackslashes : rx :=   (* \\\\+ *)
  lit "\" ;; many1 isBackslash.
Definition reRunOfComma : rx :=         (* ,,+ *)
  lit "," ;; many1 isComma.

Local Close Scope rx_scope.

Definition backslash : list templateItem := [TText ["\"]].

(** The passes that the movement, scout, status and fleet scrubbers and
    PreProcessMovementLine share. *)

(** replace backslash+dash with backslash *)
Definition collapseBackslashDash (line : bytes) : bytes :=
  ReplaceAll reBackslashDash line backslash.

(** replace backslash+comma and comma+backslash with backslash *)
Definition collapseSeparators (line : bytes) : bytes :=
  let line := ReplaceAll reBackslashComma line backslash in
  ReplaceAll reCommaBackslash line backslash.

(** fix issues with backslash or direction followed by a unit ID *)
Definition separateUnits (line : bytes) : bytes :=
  let line := ReplaceAll reBackslashUnit line [TText [","]; TGroup 1] in
  ReplaceAll reDirectionUnit line [TGroup 1; TText [","]; TGroup 2].

(** reduce runs of certain punctuation to a single punctuation character *)
Definition collapseRuns (line : bytes) : bytes :=
  let line := ReplaceAll reRunOfBackslashes line backslash in
  ReplaceAll reRunOfComma line [TText [","]].

(** PreProcessMovementLine processes a movement line to fix issues with
    backslash or direction followed by a unit ID. *)
Definition PreProcessMovementLine (line : bytes) : bytes :=
  let line := collapseBackslashDash line in
  let line := collapseSeparators line in
  let line := separateUnits line in
  let line := collapseRuns line in
  (* remove the trailing comma from the observations *)
  let line := bytesReplaceAll line (B ",)") (B ")") in
  (* remove all trailing backslashes from the line *)
  TrimRight line "\".

(** scrubFleetLine does some pre-processing on the fleet line. *)
Definition scrubFleetLine (line : bytes) : bytes :=
  match line with
  | [] => line
  | _ =>
    let line := collapseBackslashDash line in
    let line := collapseSeparators line in
    let line := separateUnits line in
    let line := collapseRuns line in
    let line := bytesReplaceAll line (B ",)") (B ")") in
    TrimRight line "\"
  end.

(** scrubMovementLine does some pre-processing on the movement line. *)
Definition scrubMovementLine (line : bytes) : bytes :=
  match line with
  | [] => line
  | _ =>
    let line := collapseBackslashDash line in
    let line := collapseSeparators line in
    let line := separateUnits line in
    let line := collapseRuns line in
    let line := scrubStepResults line in
    TrimRight line "\"
  end.

(** scrubScoutLine does some pre-processing on the scout line. *)
Definition scrubScoutLine (line : bytes) : bytes :=
  match line with
  | [] => line
  | _ =>
    let line := collapseBackslashDash line in
    let line := collapseSeparators line in
    let line := separateUnits line in
    let line := collapseRuns line in
    let line := scrubStepResults line in
    TrimRight line "\"
  end.

(** scrubStatusLine does some pre-processing on the status line. *)
Definition scrubStatusLine (line : bytes) : bytes :=
  match line with
  | [] => line
  | _ =>
    let line := collapseBackslashDash line in
    let line := collapseSeparators line in
    let line := separateUnits line in
    let line := collapseRuns line in
    let line := scrubStepResults line in
    TrimRight line "\"
  end.

(** scrubGoesToLine does some pre-processing on the goes to line: in
    parse.go, none (the other copy of the file trims the prefix
    "tribe goes to" and the spaces around the rest). *)
Definition scrubGoesToLine (line : bytes) : bytes := line.

(** ** filters.go: its own PreProcessMovementLine

    filters.go declares the patterns and PreProcessMovementLine a second
    time, without [reBackslashComma]. *)
Module FiltersGo.

(** replace comma+backslash with backslash *)
Definition collapseSeparators (line : bytes) : bytes :=
  ReplaceAll reCommaBackslash line backslash.

Definition PreProcessMovementLine (line : bytes) : bytes :=
  let line := collapseBackslashDash line in
  let line := collapseSeparators line in
  let line := separateUnits line in
  let line := collapseRuns line in
  let line := bytesReplaceAll line (B ",)") (B ")") in
  TrimRight line "\".

(** The classifier of filters.go.  Its patterns for the unit headers and
    the status lines are those declared beside [SectionInput]; the three
    below ask for more text. *)
Definition rxFleetMovement : rx :=
  (* ^(calm|mild|strong|gale) (ne|se|sw|nw|n|s) fleet movement: move *)
  (group 1 (lit "calm" <|> lit "mild" <|> lit "strong" <|> lit "gale")
   ;; lit " "
   ;; group 2 (lit "ne" <|> lit "se" <|> lit "sw" <|> lit "nw" <|> lit "n" <|> lit "s")
   ;; lit " fleet movement: move")%rx.
Definition rxScoutMovement : rx :=    (* ^scout [1-8]: scout *)
  (lit "scout " ;; chr (inRange "1" "8") ;; lit ": scout")%rx.
Definition rxTurnHeader : rx :=  (* ^current turn \d{3,4}-\d{1,2}\(#\d{1,2}\), *)
  (lit "current turn " ;; times 3 digit ;; opt digit ;; lit "-"
   ;; digit ;; opt digit ;; lit "(#" ;; digit ;; opt digit ;; lit "),")%rx.

Definition IsFleetMovement (line : bytes) : bool := Match rxFleetMovement line.

(** IsScoutMovement: for example "scout 1: scout s-pr". *)
Definition IsScoutMovement (line : bytes) : bool := Match rxScoutMovement line.

Definition IsTurnHeader (line : bytes) : bool := Match rxTurnHeader line.

Definition IsUnitMovement (line : bytes) : bool :=
  HasPrefix line (B "tribe movement:") || HasPrefix line (B "tribe follows ")
  || HasPrefix line (B "tribe goes to ").

Definition IsMovementLine (line : bytes) : bool :=
  IsScoutMovement line || IsUnitMovement line || IsFleetMovement line.

Definition RemoveNonMappingLines (input : list bytes) : list bytes :=
  filter (fun line =>
            if IsUnitHeader line then true
            else if IsTurnHeader line then true
            else if IsMovementLine line then true
            else if IsUnitStatus line then true
            else false) input.

End FiltersGo.

(** ** errors.go and the entry points of parse.go *)

(** [type Error string] and its constants. *)
Definition Error := string.

Definition ErrEmptyInput : Error := "empty input"%string.
Definition ErrInvalidElementId : Error := "invalid element id"%string.
Definition ErrMissingElementHeader : Error := "missing element header"%string.
Definition ErrMissingField : Error := "missing field"%string.
Definition ErrNotImplemented : Error := "not implemented"%string.
Definition ErrUnexpectedInput : Error := "unexpected input"%string.
Definition ErrUnknownFormat : Error := "unknown format"%string.

(** A non-nil value of the interface [error]: one of the package's own
    errors, or an error of some other type, such as the package docx may
    report. *)
Inductive error :=
| tndocxError (e : Error)
| foreignError (description : string).

Definition error_eqb (a b : error) : bool :=
  match a, b with
  | tndocxError x, tndocxError y => String.eqb x y
  | foreignError x, foreignError y => String.eqb x y
  | _, _ => false
  end.

(** [errors.Is(err, target)] for errors that wrap nothing. *)
Definition errorsIs (err target : error) : bool := error_eqb err target.

Definition isascii (b : ascii) : bool :=
  (0 <? code b)%N && (code b <=? 127)%N.

(** [len(input) > 3 && isascii(input[0]) && isascii(input[1]) &&
    isascii(input[2])] *)
Definition looksLikeText (input : bytes) : bool :=
  (3 <? length input)%nat
  && isascii (nth 0 input zero) && isascii (nth 1 input zero)
  && isascii (nth 2 input zero).

(** The check as the specification words it: the first three bytes are
    plain ASCII. *)
Definition firstThreeASCII_spec (input : bytes) : bool :=
  (3 <=? length input)%nat
  && forallb (fun b => (code b <=? 127)%N) (firstn 3 input).

Section Parse.

(** Of the Go library, [bytes.ToLower] and [bytes.TrimSpace] go through the
    Unicode tables; of the package docx only the declarations are at hand.
    All four are parameters of the entry points. *)
Variable ToLower : bytes -> bytes.
Variable TrimSpace : bytes -> bytes.
Variable isDocx : bytes -> bool.   (* docx.DetectWordDocType(input) == docx.Docx *)
Variable ReadBuffer : bytes -> bytes * option error.

(** scrubFollowsLine does some pre-processing on the follows line. *)
Definition scrubFollowsLine (line : bytes) : bytes :=
  match line with
  | [] => line
  | _ => TrimSpace (TrimPrefix line (B "tribe follows"))
  end.

(** The body of the loop of ParseText over the sections. *)
Definition scrubSection (section : Section) : Section :=
  let m := Moves section in
  mkSection (Id section) (Header section) (Turn section)
    (mkMoves (scrubMovementLine (Movement m))
             (scrubFollowsLine (Follows m))
             (scrubGoesToLine (GoesTo m))
             (scrubFleetLine (Fleet m))
             (map scrubScoutLine (Scouts m)))
    (scrubStatusLine (Status section)).

Definition ParseText (input : bytes) : list Section * option error :=
  if negb (looksLikeText input) then ([], Some (tndocxError ErrUnknownFormat))
  else
    (* bug: have to force the entire file to lower case *)
    let input := ToLower input in
    (* compress spaces within the input *)
    let input := CompressSpaces input in
    let sections := SectionInput input in
    (map scrubSection sections, None).

Definition ParseDocx (input : bytes) : list Section * option error :=
  if negb (isDocx input) then ([], Some (tndocxError ErrUnknownFormat))
  else
    (* extract the text from the Word document *)
    let '(text, err) := ReadBuffer input in
    match err with
    | Some e => ([], Some e)
    | None => ParseText text
    end.

Definition ParseSections (input : bytes) : list Section * option error :=
  if (length input =? 0)%nat then ([], Some (tndocxError ErrEmptyInput))
  else
    let '(sections, err) := ParseDocx input in
    match err with
    | Some e =>
      if errorsIs (tndocxError ErrUnknownFormat) e then ParseText input
      else (sections, err)
    | None => (sections, err)
    end.

End Parse.

(** [bytes.ToLower] and [bytes.TrimSpace] on ASCII text, for the examples. *)
Definition asciiToLower (s : bytes) : bytes :=
  map (fun ch => if inRange "A" "Z" ch
                 then ascii_of_N (code ch + 32) else ch) s.

Fixpoint trimLeftSpace (s : bytes) : bytes :=
  match s with
  | ch :: rest =>
    if existsb (Ascii.eqb ch) [TAB; LF; "011"; "012"; CR; SP]
    then trimLeftSpace rest else s
  | [] => []
  end.

Definition asciiTrimSpace (s : bytes) : bytes :=
  rev (trimLeftSpace (rev (trimLeftSpace s))).

(** The byte [a] immediately followed by the byte [b] somewhere in [s]. *)
Fixpoint hasPair (a b : ascii) (s : bytes) : bool :=
  match s with
  | x :: rest =>
    (Ascii.eqb x a
     && match rest with y :: _ => Ascii.eqb y b | [] => false end)
    || hasPair a b rest
  | [] => false
  end.

(** The text decodes, within [fuel] runes, without [DecodeRune] ever
    reporting [RuneError]: it is valid UTF-8 and holds no U+FFFD. *)
Fixpoint decodesCleanly (fuel : nat) (input : bytes) : bool :=
  match input with
  | [] => true
  | _ :: _ =>
    match fuel with
    | O => false
    | S fuel =>
      let (r, w) := DecodeRune input in
      negb (r =? RuneError)%N && decodesCleanly fuel (skipn w input)
    end
  end.

(** ** filters.go: ScrubEOL *)

(** The loop of [ScrubEOL] over the remaining input and the output buffer:
    a CR, with the LF that may follow it, is written as one LF. *)
Fixpoint scrubEOLLoop (input output : bytes) : bytes :=
  match input with
  | [] => output
  | ch :: rest =>
    if Ascii.eqb ch CR then
      (* found CR, check for CR LF *)
      match rest with
      | ch' :: rest' =>
        if Ascii.eqb ch' LF then scrubEOLLoop rest' (output ++ [LF])
        else scrubEOLLoop rest (output ++ [LF])
      | [] => scrubEOLLoop rest (output ++ [LF])
      end
    else scrubEOLLoop rest (output ++ [ch])
  end.

(** ScrubEOL converts different types of EOL to Unix EOL. *)
Definition ScrubEOL (input : bytes) : bytes :=
  match input with
  | [] => input
  | _ => scrubEOLLoop input []
  end.

(** A byte that is neither a blank nor a delimiter. *)
Definition ordinaryByte (ch : ascii) : bool :=
  negb (isBlank ch) && negb (isSpaceDelimiter ch).

(** ** filters.go: the blank-line trimmers

    A slice of lines is [None] for Go's nil, which both functions return
    as it is. *)

(** [for len(lines) != 0 && len(lines[0]) == 0 { lines = lines[1:] }] *)
Fixpoint dropBlankLines (lines : list bytes) : list bytes :=
  match lines with
  | line :: rest =>
    if (length line =? 0)%nat then dropBlankLines rest else lines
  | [] => []
  end.

Definition RemoveLeadingBlankLines (lines : option (list bytes))
    : option (list bytes) :=
  match lines with
  | None => None
  | Some lines => Some (dropBlankLines lines)
  end.

(** [for end > 0 && len(lines[end-1]) == 0 { end-- }] *)
Fixpoint lastLineEnd (lines : list bytes) (end_ : nat) : nat :=
  match end_ with
  | S e => if (length (nth e lines []) =? 0)%nat then lastLineEnd lines e else end_
  | O => O
  end.

Definition RemoveTrailingBlankLines (lines : option (list bytes))
    : option (list bytes) :=
  match lines with
  | None => None
  | Some lines => Some (firstn (lastLineEnd lines (length lines)) lines)
  end.

(** ** parse.go: parseElementHeader

    A run-time panic of the Go code (an index out of range) is [None]. *)

(** [$]: the end of the text. *)
Definition endOfText : rx := fun c =>
  match c_rest c with
  | [] => [c]
  | _ :: _ => []
  end.

Definition rxUnitCourier : rx :=     (* ^courier \d{4}c\d$ *)
  (lit "courier " ;; times 4 digit ;; lit "c" ;; digit ;; endOfText)%rx.
Definition rxUnitElement : rx :=     (* ^element \d{4}e\d$ *)
  (lit "element " ;; times 4 digit ;; lit "e" ;; digit ;; endOfText)%rx.
Definition rxUnitFleet : rx :=       (* ^fleet \d{4}f\d$ *)
  (lit "fleet " ;; times 4 digit ;; lit "f" ;; digit ;; endOfText)%rx.
Definition rxUnitGarrison : rx :=    (* ^garrison \d{4}g\d$ *)
  (lit "garrison " ;; times 4 digit ;; lit "g" ;; digit ;; endOfText)%rx.
Definition rxUnitTribe : rx :=       (* ^tribe \d{4}$ *)
  (lit "tribe " ;; times 4 digit ;; endOfText)%rx.

(** [re.FindSubmatch(b)] for a pattern that begins with [^] and has
    [numSubexp] capture groups: the text of the match followed by the text
    of each group, or [None] for nil. *)
Definition FindSubmatch (re : rx) (numSubexp : nat) (b : bytes)
    : option (list bytes) :=
  match re (startOf b) with
  | [] => None
  | c :: _ =>
    Some (firstn (length b - length (c_rest c)) b
          :: map (fun n => capture n (c_caps c)) (List.seq 1 numSubexp))
  end.

(** [bytes.Split(s, []byte{sep})] *)
Fixpoint SplitOn (sep : ascii) (input : bytes) : list bytes :=
  match input with
  | [] => [[]]
  | ch :: rest =>
    if Ascii.eqb ch sep then [] :: SplitOn sep rest
    else match SplitOn sep rest with
         | field :: fields => (ch :: field) :: fields
         | [] => [[ch]]
         end
  end.

(** [bytes.Join(s, []byte{sep})] *)
Fixpoint Join (s : list bytes) (sep : ascii) : bytes :=
  match s with
  | [] => []
  | [x] => x
  | x :: rest => x ++ sep :: Join rest sep
  end.

(** The nodes [parseElementHeader] builds: the fields of the struct that
    the function assigns. *)
Module Node.

#[local] Unset Elimination Schemes.

Inductive t := make {
  Kind : string;
  Error : option Error;
  Input : bytes;
  Value : bytes;
  Children : list t
}.

End Node.

Section ElementHeader.

Variable TrimSpace : bytes -> bytes.

(** [element.Value = string(match[1])] *)
Definition valueOfGroup (kind : string) (match_ : list bytes) : option Node.t :=
  match nth_error match_ 1 with
  | Some value => Some (Node.make kind None [] value [])
  | None => None
  end.

(** The node for the first field of the header. *)
Definition elementId (field : bytes) : option Node.t :=
  match FindSubmatch rxUnitCourier 0 field with
  | Some match_ => valueOfGroup "element-id" match_
  | None =>
  match FindSubmatch rxUnitElement 0 field with
  | Some match_ => valueOfGroup "element-id" match_
  | None =>
  match FindSubmatch rxUnitFleet 0 field with
  | Some match_ => valueOfGroup "element-id" match_
  | None =>
  match FindSubmatch rxUnitGarrison 0 field with
  | Some match_ => valueOfGroup "element-id" match_
  | None =>
  match FindSubmatch rxUnitTribe 0 field with
  | Some match_ => valueOfGroup "element-id" match_
  | None =>
    Some (Node.make "element-id" (Some ErrInvalidElementId) field [] [])
  end end end end end.

(** The node for the field at index [i + 1], which the code reads unless
    [len(fields) < i + 1]. *)
Definition fieldNode (kind : string) (fields : list bytes) (i : nat)
    (keep : bool) : option Node.t :=
  if (length fields <? i + 1)%nat
  then Some (Node.make kind (Some ErrMissingField) [] [] [])
  else match nth_error fields (i + 1) with
       | Some field =>
         Some (Node.make kind None []
                 (if keep then TrimSpace field else []) [])
       | None => None
       end.

(** element header should contain four comma separated fields *)
Definition parseElementHeader (elementHeader : bytes) : option Node.t :=
  let fields := SplitOn "," elementHeader in
  match nth_error fields 0 with
  | None => None
  | Some field =>
    match elementId (TrimSpace field) with
    | None => None
    | Some element =>
      match fieldNode "name" fields 0 true with
      | None => None
      | Some name =>
        match fieldNode "current-hex" fields 1 false with
        | None => None
        | Some currentHex =>
          match fieldNode "previous-hex" fields 2 false with
          | None => None
          | Some previousHex =>
            let extra :=
              if (4 <? length fields)%nat
              then [Node.make "extra-input" (Some ErrUnexpectedInput)
                      (Join (skipn 4 fields) ",") [] []]
              else [] in
            Some (Node.make "element-header"
                    (if (length elementHeader =? 0)%nat
                     then Some ErrMissingElementHeader else None)
                    [] []
                    ([element; name; currentHex; previousHex] ++ extra))
          end
        end
      end
    end
  end.

End ElementHeader.

(** ** main: the text written for a document

    What [main] does to the text it read from a Word document before it
    writes the text file: compress the spaces, split into lines, remove the
    lines that are of no use for mapping, join the lines. *)
Definition mappingText (text : bytes) : bytes :=
  let text := CompressSpaces text in
  let lines := Split text in
  let lines := RemoveNonMappingLines lines in
  Join lines LF.

(** ** main: the iterators over the folders

    [os.ReadDir] is a parameter: the entries of the folder, as read.  An
    iterator is the list of the values it yields to a loop that runs to its
    end, as the loops of [main] do. *)

Record DirEntry := mkDirEntry {
  Name : bytes;
  IsDir : bool
}.

(** [.]: any character but a newline.  The engine steps over the text rune
    by rune, a byte that begins no valid sequence counting for one. *)
Definition anyRune : rx := fun c =>
  match c_rest c with
  | [] => []
  | ch :: _ =>
    let (r, w) := DecodeRune (c_rest c) in
    if (r =? 10)%N then []
    else [Cursor (Some ch) (skipn w (c_rest c)) (c_caps c)]
  end.

Definition rxClanId : rx :=          (* ^0\d\d\d$ *)
  (lit "0" ;; digit ;; digit ;; digit ;; endOfText)%rx.
Definition rxTurnReport : rx :=
  (* ^(\d+-\d+)\.(\d{4}).report\.(docx|txt)$ *)
  (group 1 (many1 isDigit ;; lit "-" ;; many1 isDigit)
   ;; lit "."
   ;; group 2 (times 4 digit)
   ;; anyRune ;; lit "report."
   ;; group 3 (lit "docx" <|> lit "txt")
   ;; endOfText)%rx.

(** [==] on strings *)
Definition sameText (a b : bytes) : bool :=
  if list_eq_dec ascii_dec a b then true else false.

(** Clans: the names of all the clans in the folder. *)
Definition Clans (items : list DirEntry) : list bytes :=
  flat_map (fun item =>
              if negb (IsDir item) then []
              else match FindSubmatch rxClanId 0 (Name item) with
                   | None => []
                   | Some _ => [Name item]
                   end) items.

(** TurnIds: the turn id of all the turn reports in the folder. *)
Definition TurnIds (items : list DirEntry) : list bytes :=
  flat_map (fun item =>
              match FindSubmatch rxTurnReport 3 (Name item) with
              | None => []
              | Some matches => [nth 1 matches []]
              end) items.

(** TurnReports: the names of the turn reports of a turn in the folder,
    Word documents or text documents as [ext] says. *)
Definition TurnReports (items : list DirEntry) (turnId ext : bytes)
    : list bytes :=
  flat_map (fun item =>
              match FindSubmatch rxTurnReport 3 (Name item) with
              | None => []
              | Some matches =>
                if negb (sameText turnId (nth 1 matches [])
                         && sameText ext (nth 3 matches []))
                then []
                else [Name item]
              end) items.

(** The reports that the loops of [main] load from a folder, in the order
    in which they are loaded. *)
Definition reportsLoaded (items : list DirEntry) : list bytes :=
  flat_map (fun turnId => TurnReports items turnId (B "docx")) (TurnIds items).

(** ** The vocabulary of the further properties *)

(** The seam of a concatenation splits no CR LF pair. *)
Definition seamSplitsCRLF (a b : bytes) : bool :=
  match lastByte a, b with
  | Some x, y :: _ => Ascii.eqb x CR && Ascii.eqb y LF
  | _, _ => false
  end.

(** A line without a byte. *)
Definition blankLine (line : bytes) : bool := (length line =? 0)%nat.

(** What the scrubbers promise of a line. *)
Definition noRuns (out : bytes) : Prop :=
  hasPair "\" "\" out = false /\ hasPair "," "," out = false
  /\ lastByte out <> Some "\"%char.

(** No backslash stands next to a comma. *)
Definition separated (s : bytes) : Prop :=
  hasPair "\" "," s = false /\ hasPair "," "\" s = false.

(** The first field is the name of a unit. *)
Definition isUnitName (field : bytes) : bool :=
  Match rxUnitCourier field || Match rxUnitElement field
  || Match rxUnitFleet field || Match rxUnitGarrison field
  || Match rxUnitTribe field.

(** A field that was never assigned, or a line of the text accepted by
    [p]. *)
Definition fieldOf (p : bytes -> bool) (lines : list bytes) (field : bytes)
    : Prop :=
  field = [] \/ (p field = true /\ In field lines).

(** A section made of lines of the text: its header is a unit header, and
    each field holds a line of the kind of the field, if any. *)
Definition sectionOfLines (lines : list bytes) (s : Section) : Prop :=
  IsUnitHeader (Header s) = true /\ In (Header s) lines
  /\ fieldOf IsTurnHeader lines (Turn s)
  /\ fieldOf IsTribeMovement lines (Movement (Moves s))
  /\ fieldOf IsTribeFollows lines (Follows (Moves s))
  /\ fieldOf IsTribeGoesTo lines (GoesTo (Moves s))
  /\ fieldOf IsFleetMovement lines (Fleet (Moves s))
  /\ Forall (fun line => IsScoutLine line = true /\ In line lines)
            (Scouts (Moves s))
  /\ fieldOf IsUnitStatus lines (Status s).

(** Every space is significant, for a loop that starts with the flag
    [prev]. *)
Definition significantFrom (prev : bool) (input : bytes) : Prop :=
  ~ In TAB input
  /\ forall pre post,
       input = pre ++ SP :: post ->
       (exists ch post', post = ch :: post' /\ ordinaryByte ch = true)
       /\ match lastByte pre with
          | Some ch => ordinaryByte ch = true
          | None => prev = false
          end.

(** The name of the folder of a clan: a zero and three digits. *)
Definition isClanName (name : bytes) : bool :=
  match name with
  | [z; d1; d2; d3] =>
    Ascii.eqb z "0" && isDigit d1 && isDigit d2 && isDigit d3
  | _ => false
  end.

(** * Properties *)

(** ** CompressSpaces *)

Lemma skipBlanks_length input : length (skipBlanks input) <= length input.
Proof.
  induction input as [|ch rest IH]; simpl; [lia|].
  destruct (isBlank ch); simpl; lia.
Qed.

Lemma compressLoop_char ch rest prev output :
  isBlank ch = false ->
  compressLoop (ch :: rest) prev output =
  compressLoop rest (isSpaceDelimiter ch) (output ++ [ch]).
Proof. intros H. simp compressLoop. rewrite H. reflexivity. Qed.

Lemma compressLoop_blank ch rest prev output :
  isBlank ch = true ->
  compressLoop (ch :: rest) prev output =
  compressLoop (skipBlanks rest) prev
    (if prev || nextCharIsDelimiter (skipBlanks rest) then output
     else output ++ [SP]).
Proof.
  intros H. simp compressLoop. rewrite H. simpl.
  destruct (prev || nextCharIsDelimiter (skipBlanks rest)); reflexivity.
Qed.

(** The output buffer is only ever appended to. *)
Lemma compressLoop_output input : forall prev output,
  compressLoop input prev output = output ++ compressLoop input prev [].
Proof.
  induction input as [input IH] using bytes_length_ind.
  intros prev output. destruct input as [|ch rest].
  - simp compressLoop. now rewrite app_nil_r.
  - destruct (isBlank ch) eqn:Hch.
    + rewrite !compressLoop_blank by assumption.
      pose proof (skipBlanks_length rest) as Hlen.
      destruct (prev || nextCharIsDelimiter (skipBlanks rest)).
      * apply IH. simpl. lia.
      * rewrite (IH (skipBlanks rest)) by (simpl; lia).
        rewrite (IH (skipBlanks rest) ltac:(simpl; lia) prev ([] ++ [SP])).
        now rewrite <- !app_assoc.
    + rewrite !compressLoop_char by assumption.
      rewrite (IH rest) by (simpl; lia).
      rewrite (IH rest ltac:(simpl; lia) _ ([] ++ [ch])).
      now rewrite <- !app_assoc.
Qed.

Lemma skipBlanks_head input :
  match skipBlanks input with
  | [] => True
  | ch :: _ => isBlank ch = false
  end.
Proof.
  induction input as [|ch rest IH]; simpl; [exact I|].
  destruct (isBlank ch) eqn:Hch; [exact IH | exact Hch].
Qed.

(** A second pass with the same flag leaves the output of a pass alone. *)
Lemma compressLoop_stable input : forall prev,
  compressLoop (compressLoop input prev []) prev [] = compressLoop input prev [].
Proof.
  induction input as [input IH] using bytes_length_ind.
  intros prev. destruct input as [|ch rest].
  - simp compressLoop. reflexivity.
  - destruct (isBlank ch) eqn:Hch.
    + rewrite compressLoop_blank by assumption.
      pose proof (skipBlanks_length rest) as Hlen.
      pose proof (skipBlanks_head rest) as Hhead.
      destruct (prev || nextCharIsDelimiter (skipBlanks rest)) eqn:Hdrop.
      * apply IH. simpl. lia.
      * apply orb_false_iff in Hdrop as [-> Hnext].
        destruct (skipBlanks rest) as [|d more] eqn:Hrest; [discriminate|].
        simpl in Hnext.
        assert (Hd : compressLoop (d :: more) false [] =
                     d :: compressLoop more (isSpaceDelimiter d) []).
        { rewrite compressLoop_char by assumption.
          now rewrite compressLoop_output. }
        assert (Hfix : compressLoop (compressLoop (d :: more) false []) false []
                       = compressLoop (d :: more) false [])
          by (apply IH; simpl in *; lia).
        rewrite (compressLoop_output (d :: more) false ([] ++ [SP])).
        rewrite Hd in *. simpl.
        rewrite (compressLoop_blank SP) by reflexivity.
        simpl skipBlanks. rewrite Hhead. simpl nextCharIsDelimiter.
        rewrite Hnext in *. simpl.
        rewrite compressLoop_output. now rewrite Hfix.
    + rewrite compressLoop_char by assumption.
      rewrite (compressLoop_output rest _ ([] ++ [ch])). simpl.
      rewrite compressLoop_char by assumption.
      rewrite (compressLoop_output _ _ ([] ++ [ch])). simpl.
      f_equal. apply IH. simpl. lia.
Qed.

(** C4. [CompressSpaces] is idempotent: compressing a compressed buffer
    gives the same buffer again. *)
Theorem CompressSpaces_idempotent (x : bytes) :
  CompressSpaces (CompressSpaces x) = CompressSpaces x.
Proof.
  destruct x as [|ch rest]; [reflexivity|].
  unfold CompressSpaces at 2 3.
  destruct (compressLoop (ch :: rest) false []) eqn:Hout; [reflexivity|].
  unfold CompressSpaces. rewrite <- Hout. apply compressLoop_stable.
Qed.

(** *** Runs of blanks *)

Lemma compressLoop_flag_irrelevant input prev prev' :
  startsWithBlank input = false ->
  compressLoop input prev [] = compressLoop input prev' [].
Proof.
  destruct input as [|ch rest]; intros H; simpl in H.
  - simp compressLoop. reflexivity.
  - now rewrite !compressLoop_char by assumption.
Qed.

Lemma skipBlanks_run run post :
  forallb isBlank run = true -> startsWithBlank post = false ->
  skipBlanks (run ++ post) = post.
Proof.
  induction run as [|ch run IH]; simpl; intros Hrun Hpost.
  - destruct post as [|d post]; [reflexivity|]. simpl in *. now rewrite Hpost.
  - apply andb_true_iff in Hrun as [-> Hrun]. now apply IH.
Qed.

Lemma skipBlanks_app pre tail :
  endsWithBlank pre = false -> pre <> [] ->
  skipBlanks (pre ++ tail) = skipBlanks pre ++ tail /\ skipBlanks pre <> [].
Proof.
  unfold endsWithBlank.
  induction pre as [|ch pre IH]; intros Hend Hne; [congruence|].
  destruct pre as [|d pre].
  - simpl in *. rewrite Hend. split; [reflexivity | discriminate].
  - change (lastByte (ch :: d :: pre)) with (lastByte (d :: pre)) in Hend.
    change ((ch :: d :: pre) ++ tail) with (ch :: (d :: pre) ++ tail).
    cbn [skipBlanks]. destruct (isBlank ch).
    + apply IH; [assumption | discriminate].
    + split; [reflexivity | discriminate].
Qed.

Lemma lastByte_skipBlanks pre :
  endsWithBlank pre = false -> lastByte (skipBlanks pre) = lastByte pre.
Proof.
  unfold endsWithBlank.
  induction pre as [|ch pre IH]; intros Hend; [reflexivity|].
  destruct pre as [|d pre].
  - simpl in *. now rewrite Hend.
  - change (lastByte (ch :: d :: pre)) with (lastByte (d :: pre)) in *.
    cbn [skipBlanks]. destruct (isBlank ch); [now apply IH | reflexivity].
Qed.

Lemma lastByte_None l : lastByte l = None -> l = [].
Proof.
  induction l as [|ch l IH]; [reflexivity|].
  destruct l as [|d l]; [discriminate|].
  change (lastByte (ch :: d :: l)) with (lastByte (d :: l)).
  intros H. specialize (IH H). discriminate.
Qed.

(** The flag the loop holds when it reaches the byte after [pre]. *)
Definition flagAfter (prev : bool) (pre : bytes) : bool :=
  match lastByte pre with
  | Some ch => isSpaceDelimiter ch
  | None => prev
  end.

Lemma compressLoop_run pre : forall prev run post,
  maximalRun pre run post = true ->
  compressLoop (pre ++ run ++ post) prev [] =
  compressLoop pre prev []
  ++ (if flagAfter prev pre || nextCharIsDelimiter post then [] else [SP])
  ++ compressLoop post false [].
Proof.
  induction pre as [pre IH] using bytes_length_ind.
  intros prev run post Hmax.
  pose proof Hmax as Hmax'. unfold maximalRun in Hmax'.
  apply andb_true_iff in Hmax' as [Hmax' Hpost].
  apply andb_true_iff in Hmax' as [Hmax' Hpre].
  apply andb_true_iff in Hmax' as [Hne Hrun].
  apply negb_true_iff in Hpost, Hpre.
  destruct pre as [|ch pre].
  - destruct run as [|r run]; [discriminate|].
    simpl in Hrun. apply andb_true_iff in Hrun as [Hr Hrun].
    simp compressLoop. simpl app.
    rewrite compressLoop_blank by assumption.
    rewrite skipBlanks_run by assumption.
    unfold flagAfter. simpl lastByte.
    rewrite compressLoop_output.
    rewrite (compressLoop_flag_irrelevant post prev false) by assumption.
    destruct (prev || nextCharIsDelimiter post); reflexivity.
  - simpl app. destruct (isBlank ch) eqn:Hch.
    + assert (Hpre' : endsWithBlank pre = false /\ pre <> []).
      { destruct pre as [|d pre]; [unfold endsWithBlank in Hpre; simpl in Hpre; congruence|].
        split; [exact Hpre | discriminate]. }
      destruct Hpre' as [Hend Hnil].
      destruct (skipBlanks_app pre (run ++ post) Hend Hnil) as [Hskip Hskipne].
      pose proof (skipBlanks_length pre) as Hlen.
      rewrite !compressLoop_blank by assumption.
      rewrite Hskip.
      assert (Hnext : forall tail, nextCharIsDelimiter (skipBlanks pre ++ tail) =
                       nextCharIsDelimiter (skipBlanks pre)).
      { intros tail. destruct (skipBlanks pre); [congruence | reflexivity]. }
      rewrite Hnext.
      assert (Hflag : flagAfter prev (ch :: pre) = flagAfter prev (skipBlanks pre)).
      { unfold flagAfter. rewrite lastByte_skipBlanks by assumption.
        destruct pre; [congruence | reflexivity]. }
      assert (Hmax2 : maximalRun (skipBlanks pre) run post = true).
      { unfold maximalRun. rewrite Hne, Hrun, Hpost. simpl.
        unfold endsWithBlank in *. rewrite lastByte_skipBlanks by assumption.
        now rewrite Hend. }
      rewrite Hflag.
      rewrite (compressLoop_output (skipBlanks pre ++ run ++ post)).
      rewrite (compressLoop_output (skipBlanks pre)).
      rewrite (IH (skipBlanks pre)) by (simpl; lia || assumption).
      now rewrite <- !app_assoc.
    + rewrite !compressLoop_char by assumption.
      assert (Hflag : flagAfter prev (ch :: pre) = flagAfter (isSpaceDelimiter ch) pre).
      { unfold flagAfter. destruct pre as [|d pre]; [reflexivity|].
        change (lastByte (ch :: d :: pre)) with (lastByte (d :: pre)).
        destruct (lastByte (d :: pre)) eqn:Hlast; [reflexivity|].
        apply lastByte_None in Hlast. discriminate. }
      assert (Hmax2 : maximalRun pre run post = true).
      { unfold maximalRun. rewrite Hne, Hrun, Hpost. simpl.
        destruct pre; [reflexivity|]. unfold endsWithBlank in *.
        change (lastByte (ch :: a :: pre)) with (lastByte (a :: pre)) in Hpre.
        now rewrite Hpre. }
      rewrite Hflag.
      rewrite (compressLoop_output (pre ++ run ++ post)).
      rewrite (compressLoop_output pre).
      rewrite (IH pre) by (simpl; lia || assumption).
      now rewrite <- !app_assoc.
Qed.

Lemma CompressSpaces_loop input : CompressSpaces input = compressLoop input false [].
Proof. destruct input; [now simp compressLoop | reflexivity]. Qed.

Lemma compressLoop_no_blanks input : forall prev output,
  forallb (fun ch => negb (isBlank ch)) input = true ->
  compressLoop input prev output = output ++ input.
Proof.
  induction input as [|ch rest IH]; intros prev output H.
  - simp compressLoop. now rewrite app_nil_r.
  - simpl in H. apply andb_true_iff in H as [Hch H]. apply negb_true_iff in Hch.
    rewrite compressLoop_char, IH by assumption. now rewrite <- app_assoc.
Qed.

(** C2 (amended). Cut the input at any maximal run of spaces and tabs: the
    output is the compression of what precedes the run, then the image of the
    run, then the compression of what follows it.  The image is at most one
    space; it is empty exactly when the byte before the run or the byte after
    it is a delimiter, or when the run reaches the end of the input.  A run at
    the very start of the input gets no special treatment.  An input without
    spaces and tabs is returned as it is.  The sample line of the
    specification compresses as stated. *)
Theorem CompressSpaces_runs :
  (forall pre run post : bytes,
      maximalRun pre run post = true ->
      CompressSpaces (pre ++ run ++ post) =
      CompressSpaces pre ++ runImage pre post ++ CompressSpaces post)
  /\ (forall input : bytes,
         forallb (fun ch => negb (isBlank ch)) input = true ->
         CompressSpaces input = input)
  /\ CompressSpaces (B "tribe   0123,   status:  active  ( good )") =
     B "tribe 0123,status:active(good)".
Proof.
  split; [|split; [|reflexivity]].
  - intros pre run post Hmax.
    rewrite !CompressSpaces_loop, (compressLoop_run pre false run post Hmax).
    unfold runImage, flagAfter, precededByDelimiter, followedByDelimiter, touchesEnd.
    do 2 f_equal.
    destruct (lastByte pre) as [ch|]; destruct post as [|d post]; simpl;
      rewrite ?orb_true_r, ?orb_false_r; reflexivity.
  - intros input H. rewrite CompressSpaces_loop.
    now rewrite compressLoop_no_blanks.
Qed.

Lemma CompressSpaces_runs_witness :
  maximalRun (B "tribe") (B "   ") (B "0123,") = true /\
  CompressSpaces (B "tribe" ++ B "   " ++ B "0123,") =
  CompressSpaces (B "tribe") ++ runImage (B "tribe") (B "0123,")
  ++ CompressSpaces (B "0123,").
Proof.
  split; [reflexivity|].
  apply (proj1 CompressSpaces_runs (B "tribe") (B "   ") (B "0123,")).
  reflexivity.
Defined.

(** C2 as stated fails on a run that touches the start of the input and is
    followed by an ordinary byte: the run is kept as one space. *)
Lemma CompressSpaces_leading_run_kept :
  maximalRun [] (B "  ") (B "a") = true /\
  runImage_spec [] (B "a") = [] /\
  CompressSpaces ([] ++ B "  " ++ B "a") = B " a" /\
  CompressSpaces ([] ++ B "  " ++ B "a") <>
  CompressSpaces [] ++ runImage_spec [] (B "a") ++ CompressSpaces (B "a").
Proof.
  repeat split; try reflexivity. vm_compute. discriminate.
Qed.

(** ** ScrubBadUTF8 *)

(** Once the decoder reports [RuneError] the loop writes the replacement
    bytes and decodes the same input again, for ever. *)
Lemma scrubLoop_stuck input w :
  input <> [] -> DecodeRune input = (RuneError, w) ->
  forall fuel output, scrubLoop fuel input output = None.
Proof.
  intros Hne Hdec fuel. induction fuel as [|fuel IH]; intros output.
  - destruct input; [congruence | reflexivity].
  - destruct input as [|c rest]; [congruence|].
    cbn [scrubLoop]. rewrite Hdec. cbn. apply IH.
Qed.

(** The loop copies what it decodes: whenever it returns, the output is the
    buffer so far followed by the whole input. *)
Lemma scrubLoop_copies fuel : forall input output result,
  scrubLoop fuel input output = Some result -> result = output ++ input.
Proof.
  induction fuel as [|fuel IH]; intros input output result.
  - destruct input; simpl; [|discriminate].
    intros [= <-]. now rewrite app_nil_r.
  - destruct input as [|c rest]; [simpl; intros [= <-]; now rewrite app_nil_r|].
    cbn [scrubLoop]. destruct (DecodeRune (c :: rest)) as [r w] eqn:Hdec.
    destruct (r =? RuneError)%N eqn:Hr.
    + (* the iteration that writes the replacement bytes never returns *)
      apply N.eqb_eq in Hr. subst r. intros H.
      rewrite (scrubLoop_stuck (c :: rest) w) in H; [discriminate| |assumption].
      discriminate.
    + intros H. apply IH in H. rewrite H, <- app_assoc.
      now rewrite firstn_skipn.
Qed.

(** The loop returns exactly on the texts that decode cleanly, and then it
    returns them unchanged. *)
Lemma scrubLoop_returns fuel : forall input output,
  scrubLoop fuel input output =
  if decodesCleanly fuel input then Some (output ++ input) else None.
Proof.
  induction fuel as [|fuel IH]; intros input output.
  - destruct input; simpl; [now rewrite app_nil_r | reflexivity].
  - destruct input as [|c rest]; [simpl; now rewrite app_nil_r|].
    cbn [scrubLoop decodesCleanly].
    destruct (DecodeRune (c :: rest)) as [r w] eqn:Hdec.
    destruct (r =? RuneError)%N eqn:Hr; cbn [negb andb].
    + apply N.eqb_eq in Hr. subst r.
      apply (scrubLoop_stuck (c :: rest) w); [discriminate | assumption].
    + rewrite IH. destruct (decodesCleanly fuel (skipn w (c :: rest)));
        [|reflexivity].
      now rewrite <- app_assoc, firstn_skipn.
Qed.

(** C1. [ScrubBadUTF8] does not return on a buffer holding an invalid byte:
    on the single byte 0xFF the loop is still running after any number of
    iterations.  The same happens on the valid encoding of U+FFFD. *)
Theorem ScrubBadUTF8_never_returns (fuel : nat) :
  ScrubBadUTF8 fuel (Some ["255"]) = None /\
  ScrubBadUTF8 fuel (Some ["239"; "191"; "189"]) = None.
Proof.
  unfold ScrubBadUTF8. split.
  - rewrite (scrubLoop_stuck ["255"] 1); [reflexivity | discriminate | reflexivity].
  - rewrite (scrubLoop_stuck ["239"; "191"; "189"] 3);
      [reflexivity | discriminate | reflexivity].
Qed.

(** A nil buffer yields nil and an empty buffer yields an empty buffer,
    with no iteration at all. *)
Lemma ScrubBadUTF8_nil_empty :
  ScrubBadUTF8 0 None = Some None /\ ScrubBadUTF8 0 (Some []) = Some (Some []).
Proof. split; reflexivity. Qed.

(** ** Patterns: what a match tells about the text *)

Lemma In_seq (a b : rx) c c'' :
  In c'' (seq a b c) <-> exists c', In c' (a c) /\ In c'' (b c').
Proof. unfold seq. apply in_flat_map. Qed.

Lemma In_alt (a b : rx) c c' :
  In c' (alt a b c) <-> In c' (a c) \/ In c' (b c).
Proof. unfold alt. apply in_app_iff. Qed.

Lemma In_chr p c c' :
  In c' (chr p c) <->
  exists ch rest, c_rest c = ch :: rest /\ p ch = true
                  /\ c' = Cursor (Some ch) rest (c_caps c).
Proof.
  unfold chr. destruct (c_rest c) as [|ch rest].
  - split; [intros [] | intros (? & ? & H & _); discriminate].
  - destruct (p ch) eqn:Hp; simpl.
    + split.
      * intros [<-|[]]. now exists ch, rest.
      * intros (ch' & rest' & [= <- <-] & _ & ->). now left.
    + split; [intros [] | intros (ch' & rest' & [= <- <-] & Hp' & _); congruence].
Qed.

Lemma In_litBytes s : forall c c',
  In c' (litBytes s c) -> c_rest c = s ++ c_rest c'.
Proof.
  induction s as [|ch s IH]; intros c c'; simpl.
  - intros [<-|[]]. reflexivity.
  - intros H. apply In_seq in H as (c1 & H1 & H2).
    apply In_chr in H1 as (ch' & rest & Hrest & Heq & ->).
    apply Ascii.eqb_eq in Heq. subst ch'.
    apply IH in H2. simpl in H2. now rewrite Hrest, H2.
Qed.

Lemma In_group n a c c' :
  In c' (group n a c) ->
  exists c0, In c0 (a c) /\ c_rest c' = c_rest c0 /\ c_prev c' = c_prev c0.
Proof.
  unfold group. intros H. apply in_map_iff in H as (c0 & <- & H).
  exists c0. auto.
Qed.

Lemma Match_true re b :
  Match re b = true <-> exists c, In c (re (startOf b)).
Proof.
  unfold Match. destruct (re (startOf b)) as [|c l]; split.
  - discriminate.
  - intros [c []].
  - intros _. exists c. now left.
  - reflexivity.
Qed.

Lemma HasPrefix_app s tail : HasPrefix (s ++ tail) s = true.
Proof.
  induction s as [|ch s IH]; simpl; [reflexivity|].
  now rewrite Ascii.eqb_refl.
Qed.

Lemma HasPrefix_app_l s p q : HasPrefix s (p ++ q) = true -> HasPrefix s p = true.
Proof.
  revert s. induction p as [|a p IH]; intros s; [reflexivity|].
  destruct s as [|ch s]; simpl; [discriminate|].
  intros H. apply andb_true_iff in H as [-> H]. simpl. now apply IH.
Qed.

(** Two prefixes of one text: one is a prefix of the other. *)
Lemma HasPrefix_comparable s : forall p q,
  HasPrefix s p = true -> HasPrefix s q = true ->
  HasPrefix p q = true \/ HasPrefix q p = true.
Proof.
  induction s as [|ch s IH]; intros [|a p] [|b q]; simpl; auto; try discriminate.
  intros Hp Hq.
  apply andb_true_iff in Hp as [Ha Hp]. apply andb_true_iff in Hq as [Hb Hq].
  apply Ascii.eqb_eq in Ha, Hb. subst a b. rewrite Ascii.eqb_refl. simpl.
  now apply IH.
Qed.

(** A pattern that begins with a literal matches only texts that begin
    with it. *)
Lemma Match_lit s (re : rx) b :
  Match (seq (lit s) re) b = true -> HasPrefix b (B s) = true.
Proof.
  intros H. apply Match_true in H as (c & H).
  apply In_seq in H as (c1 & H1 & _).
  apply In_litBytes in H1. simpl in H1. rewrite H1. apply HasPrefix_app.
Qed.

Lemma Match_lit_digit s (re : rx) n b :
  Match (seq (lit s) (seq (times (S n) digit) re)) b = true ->
  exists d, isDigit d = true /\ HasPrefix b (B s ++ [d]) = true.
Proof.
  intros H. apply Match_true in H as (c & H).
  apply In_seq in H as (c1 & H1 & H).
  apply In_litBytes in H1. simpl in H1.
  apply In_seq in H as (c2 & H2 & _).
  simpl in H2. apply In_seq in H2 as (c3 & H3 & _).
  apply In_chr in H3 as (d & rest & Hrest & Hd & _).
  exists d. split; [assumption|].
  rewrite H1, Hrest.
  change (d :: rest) with ([d] ++ rest). rewrite app_assoc.
  apply HasPrefix_app.
Qed.

Lemma Match_digit (re : rx) n b :
  Match (seq (times (S n) digit) re) b = true ->
  exists d, isDigit d = true /\ HasPrefix b [d] = true.
Proof.
  intros H. apply Match_true in H as (c & H).
  apply In_seq in H as (c2 & H2 & _).
  simpl in H2. apply In_seq in H2 as (c3 & H3 & _).
  apply In_chr in H3 as (d & rest & Hrest & Hd & _).
  exists d. split; [assumption|].
  simpl in Hrest. rewrite Hrest. simpl. now rewrite Ascii.eqb_refl.
Qed.

(** *** The opening bytes of each kind of line *)

Lemma IsUnitHeader_opening line :
  IsUnitHeader line = true ->
  (exists d, isDigit d = true /\ HasPrefix line (B "tribe " ++ [d]) = true)
  \/ HasPrefix line (B "courier ") = true
  \/ HasPrefix line (B "element ") = true
  \/ HasPrefix line (B "fleet ") = true
  \/ HasPrefix line (B "garrison ") = true.
Proof.
  unfold IsUnitHeader. rewrite !orb_true_iff.
  intros [[[[H|H]|H]|H]|H].
  - left. exact (Match_lit_digit _ _ _ _ H).
  - right; left. exact (Match_lit _ _ _ H).
  - right; right; left. exact (Match_lit _ _ _ H).
  - right; right; right; left. exact (Match_lit _ _ _ H).
  - right; right; right; right. exact (Match_lit _ _ _ H).
Qed.

Lemma IsTurnHeader_opening line :
  IsTurnHeader line = true -> HasPrefix line (B "current turn ") = true.
Proof. exact (Match_lit _ _ _). Qed.

Lemma IsScoutLine_opening line :
  IsScoutLine line = true -> HasPrefix line (B "scout ") = true.
Proof. exact (Match_lit _ _ _). Qed.

Lemma IsFleetMovement_opening line :
  IsFleetMovement line = true ->
  HasPrefix line (B "calm") = true \/ HasPrefix line (B "mild") = true
  \/ HasPrefix line (B "strong") = true \/ HasPrefix line (B "gale") = true.
Proof.
  unfold IsFleetMovement, rxFleetMovement. intros H.
  apply Match_true in H as (c & H).
  apply In_seq in H as (c1 & H1 & _).
  apply In_group in H1 as (c0 & H0 & _).
  assert (Hlit : forall s, In c0 (lit s (startOf line)) ->
                           HasPrefix line (B s) = true).
  { intros s Hs. apply In_litBytes in Hs. simpl in Hs. rewrite Hs.
    apply HasPrefix_app. }
  apply In_alt in H0 as [H0|H0]; [left; now apply Hlit|].
  apply In_alt in H0 as [H0|H0]; [right; left; now apply Hlit|].
  apply In_alt in H0 as [H0|H0]; [right; right; left; now apply Hlit|].
  right; right; right; now apply Hlit.
Qed.

Lemma IsUnitStatus_opening line :
  IsUnitStatus line = true ->
  exists d, isDigit d = true /\ HasPrefix line [d] = true.
Proof.
  unfold IsUnitStatus. rewrite !orb_true_iff.
  intros [[[[H|H]|H]|H]|H]; exact (Match_digit _ _ _ H).
Qed.

(** *** No line has two kinds *)

Ltac opening H :=
  first
    [ apply IsUnitHeader_opening in H
    | apply IsTurnHeader_opening in H
    | apply IsScoutLine_opening in H
    | apply IsFleetMovement_opening in H
    | apply IsUnitStatus_opening in H
    | unfold IsTribeFollows in H
    | unfold IsTribeGoesTo in H
    | unfold IsTribeMovement in H ].

Ltac split_openings :=
  repeat match goal with
         | H : _ \/ _ |- _ => destruct H as [H|H]
         | H : exists d, isDigit d = true /\ _ |- _ =>
           let d := fresh "d" in
           let Hd := fresh "Hd" in
           destruct H as (d & Hd & H)
         end.

(** Two opening texts that are not prefixes of one another cannot both
    open a line. *)
Ltac eval_closed_eqb C :=
  repeat match type of C with
         | context [Ascii.eqb ?a ?b] =>
           tryif first [is_var a | is_var b] then fail
           else (let v := eval vm_compute in (Ascii.eqb a b) in
                 change (Ascii.eqb a b) with v in C)
         end.

Ltac clash H1 H2 :=
  let C := fresh "C" in
  destruct (HasPrefix_comparable _ _ _ H1 H2) as [C|C];
  cbn -[Ascii.eqb] in C; eval_closed_eqb C;
  cbn -[Ascii.eqb] in C; rewrite ?andb_true_r, ?andb_false_r in C;
  try discriminate C;
  apply Ascii.eqb_eq in C;
  repeat match goal with
         | Hd : isDigit ?d = true |- _ =>
           first [ rewrite C in Hd | rewrite <- C in Hd ];
           vm_compute in Hd; discriminate Hd
         end.

Ltac two_kinds H1 H2 :=
  exfalso; opening H1; opening H2; split_openings; clash H1 H2.

Lemma kinds_at_most_one line : kindsOf line <= 1.
Proof.
  unfold kindsOf, kindPredicates. cbn [filter].
  destruct (IsUnitHeader line) eqn:H1; destruct (IsTurnHeader line) eqn:H2;
    try solve [two_kinds H1 H2];
  destruct (IsFleetMovement line) eqn:H3;
    try solve [two_kinds H1 H3 | two_kinds H2 H3];
  destruct (IsTribeFollows line) eqn:H4;
    try solve [two_kinds H1 H4 | two_kinds H2 H4 | two_kinds H3 H4];
  destruct (IsTribeGoesTo line) eqn:H5;
    try solve [two_kinds H1 H5 | two_kinds H2 H5 | two_kinds H3 H5
              | two_kinds H4 H5];
  destruct (IsTribeMovement line) eqn:H6;
    try solve [two_kinds H1 H6 | two_kinds H2 H6 | two_kinds H3 H6
              | two_kinds H4 H6 | two_kinds H5 H6];
  destruct (IsScoutLine line) eqn:H7;
    try solve [two_kinds H1 H7 | two_kinds H2 H7 | two_kinds H3 H7
              | two_kinds H4 H7 | two_kinds H5 H7 | two_kinds H6 H7];
  destruct (IsUnitStatus line) eqn:H8;
    try solve [two_kinds H1 H8 | two_kinds H2 H8 | two_kinds H3 H8
              | two_kinds H4 H8 | two_kinds H5 H8 | two_kinds H6 H8
              | two_kinds H7 H8];
  simpl; lia.
Qed.

(** C9. Classification is total and the defined kinds exclude one another:
    every line has a kind ([lineKind] is a function, with [Unclassified] for
    the lines no predicate accepts), at most one of the eight predicates
    holds of a line, and each predicate holds exactly of the lines of its
    kind, whatever the order in which the predicates are tried. *)
Theorem line_kinds_total_exclusive (line : bytes) :
  kindsOf line <= 1
  /\ (IsUnitHeader line = true <-> lineKind line = UnitHeader)
  /\ (IsTurnHeader line = true <-> lineKind line = TurnHeader)
  /\ (IsFleetMovement line = true <-> lineKind line = FleetMovement)
  /\ (IsTribeFollows line = true <-> lineKind line = TribeFollows)
  /\ (IsTribeGoesTo line = true <-> lineKind line = TribeGoesTo)
  /\ (IsTribeMovement line = true <-> lineKind line = TribeMovement)
  /\ (IsScoutLine line = true <-> lineKind line = ScoutMovement)
  /\ (IsUnitStatus line = true <-> lineKind line = UnitStatus)
  /\ (kindsOf line = 0 <-> lineKind line = Unclassified).
Proof.
  pose proof (kinds_at_most_one line) as K.
  split; [exact K|].
  unfold kindsOf, kindPredicates, lineKind in *. cbn [filter] in *.
  destruct (IsUnitHeader line), (IsTurnHeader line), (IsFleetMovement line),
    (IsTribeFollows line), (IsTribeGoesTo line), (IsTribeMovement line),
    (IsScoutLine line), (IsUnitStatus line);
    simpl in K; try lia; simpl; repeat split; intros; congruence.
Qed.

(** ** SectionInput *)

Lemma store_length p f sections : length (store p f sections) = length sections.
Proof.
  revert p. induction sections as [|s rest IH]; intros [|p]; simpl; auto.
Qed.

Lemma assignLine_Id_Header line s :
  Id (assignLine line s) = Id s /\ Header (assignLine line s) = Header s.
Proof.
  unfold assignLine.
  repeat match goal with |- context [if ?b then _ else _] => destruct b end;
    split; reflexivity.
Qed.

Lemma store_map {A} (g : Section -> A) p f sections :
  (forall s, g (f s) = g s) ->
  map g (store p f sections) = map g sections.
Proof.
  intros Hg. revert p.
  induction sections as [|s rest IH]; intros [|p]; simpl; auto.
  - now rewrite Hg.
  - now rewrite IH.
Qed.

Lemma IsUnitHeader_blank line : length line = 0 -> IsUnitHeader line = false.
Proof. destruct line; [reflexivity | discriminate]. Qed.

(** The headers and ordinals of the sections, from any state of the loop. *)
Lemma fold_sectionStep_headers lines : forall sections section,
  let out := fst (fold_left sectionStep lines (sections, section)) in
  map Header out = map Header sections ++ filter IsUnitHeader lines
  /\ map Id out =
     map Id sections
     ++ List.seq (length sections + 1) (length (filter IsUnitHeader lines)).
Proof.
  induction lines as [|line lines IH]; intros sections section; simpl.
  - now rewrite !app_nil_r.
  - destruct (length line =? 0)%nat eqn:Hlen.
    + apply Nat.eqb_eq in Hlen. rewrite (IsUnitHeader_blank line Hlen).
      apply IH.
    + destruct (IsUnitHeader line) eqn:Hh.
      * specialize (IH (sections ++ [newSection (length sections + 1) line])
                       (Some (length sections))).
        cbv zeta in IH. destruct IH as [IH1 IH2].
        rewrite IH1, IH2, !map_app, length_app. simpl.
        rewrite <- !app_assoc. simpl.
        replace (length sections + 1 + 1) with (S (length sections + 1)) by lia.
        split; reflexivity.
      * destruct section as [p|]; [|apply IH].
        specialize (IH (store p (assignLine line) sections) (Some p)).
        cbv zeta in IH. destruct IH as [IH1 IH2].
        rewrite IH1, IH2, store_length.
        rewrite !store_map by (intros s; apply assignLine_Id_Header).
        split; reflexivity.
Qed.

(** C6. [SectionInput] returns one section per line accepted by
    [IsUnitHeader]: the headers of the sections are those lines, in the
    order of the input, and the k-th section has the ordinal k. *)
Theorem SectionInput_one_section_per_header (x : bytes) :
  length (SectionInput x) = length (filter IsUnitHeader (Split x))
  /\ map Header (SectionInput x) = filter IsUnitHeader (Split x)
  /\ map Id (SectionInput x) = List.seq 1 (length (SectionInput x)).
Proof.
  unfold SectionInput, sectionLines.
  destruct (fold_sectionStep_headers (Split x) [] None) as [H1 H2].
  simpl in H1, H2.
  assert (Hlen : length (fst (fold_left sectionStep (Split x) ([], None))) =
                 length (filter IsUnitHeader (Split x))).
  { rewrite <- H1. now rewrite length_map. }
  repeat split; [exact Hlen | exact H1 | now rewrite Hlen].
Qed.

(** *** The fields of a section *)

Lemma assignLine_blank s : assignLine [] s = s.
Proof. reflexivity. Qed.

Lemma store_last sections s f :
  store (length sections) f (sections ++ [s]) = sections ++ [f s].
Proof. induction sections as [|s' rest IH]; simpl; [reflexivity | now rewrite IH]. Qed.

(** Between two headers every line goes to the section of the first. *)
Lemma fold_sectionStep_body body : forall sections s,
  noHeader body = true ->
  fold_left sectionStep body (sections ++ [s], Some (length sections)) =
  (sections ++ [fold_left (fun s line => assignLine line s) body s],
   Some (length sections)).
Proof.
  induction body as [|line body IH]; intros sections s Hno; [reflexivity|].
  simpl in Hno. apply andb_true_iff in Hno as [Hline Hno].
  apply negb_true_iff in Hline.
  cbn [fold_left]. unfold sectionStep at 2.
  destruct (length line =? 0)%nat eqn:Hlen.
  - apply Nat.eqb_eq in Hlen. destruct line; [|discriminate].
    rewrite assignLine_blank. now apply IH.
  - rewrite Hline, store_last. now apply IH.
Qed.

Ltac one_kind line :=
  let K := fresh "K" in
  pose proof (kinds_at_most_one line) as K;
  unfold kindsOf, kindPredicates in K; cbn [filter] in K;
  destruct (IsUnitHeader line), (IsTurnHeader line), (IsFleetMovement line),
    (IsTribeFollows line), (IsTribeGoesTo line), (IsTribeMovement line),
    (IsScoutLine line), (IsUnitStatus line);
  simpl in K; try lia; clear K.

Lemma lastOf_snoc p body line :
  lastOf p (body ++ [line]) = if p line then line else lastOf p body.
Proof.
  unfold lastOf. rewrite filter_app. simpl.
  destruct (p line); [apply last_last | now rewrite app_nil_r].
Qed.

(** Each scalar field is the last line of its kind, and the scouts are all
    the scout lines in order. *)
Lemma fold_assignLine id header body :
  fold_left (fun s line => assignLine line s) body (newSection id header) =
  sectionOf id header body.
Proof.
  induction body as [|line body IH] using rev_ind; [reflexivity|].
  rewrite fold_left_app. cbn [fold_left]. rewrite IH.
  unfold sectionOf. rewrite !lastOf_snoc, filter_app. cbn [filter].
  unfold assignLine, setMoves. cbn [Id Header Turn Moves Status
    Movement Follows GoesTo Fleet Scouts].
  one_kind line; rewrite ?app_nil_r; reflexivity.
Qed.

(** Later lines never write to an earlier section: the pointer only ever
    moves to the section appended last. *)
Lemma fold_sectionStep_frame n lines : forall sections section,
  n <= length sections ->
  (forall p, section = Some p -> n <= p) ->
  firstn n (fst (fold_left sectionStep lines (sections, section))) =
  firstn n sections.
Proof.
  induction lines as [|line lines IH]; intros sections section Hn Hp;
    [reflexivity|].
  cbn [fold_left]. unfold sectionStep at 2.
  destruct (length line =? 0)%nat; [now apply IH|].
  destruct (IsUnitHeader line).
  - rewrite IH.
    + rewrite firstn_app.
      replace (n - length sections) with 0 by lia.
      simpl. now rewrite app_nil_r.
    + rewrite length_app. simpl. lia.
    + intros p [= <-]. exact Hn.
  - destruct section as [p|]; [|now apply IH].
    rewrite IH; [|now rewrite store_length|assumption].
    specialize (Hp p eq_refl). clear -Hp.
    revert n p Hp. induction sections as [|s rest IHs]; intros n p Hp.
    + destruct p; reflexivity.
    + destruct p as [|p]; [replace n with 0 by lia; reflexivity|].
      destruct n as [|n]; [reflexivity|].
      simpl. f_equal. apply IHs. lia.
Qed.

(** Lines before the first header change nothing. *)
Lemma fold_sectionStep_preamble pre :
  noHeader pre = true ->
  fold_left sectionStep pre ([], None) = ([], None).
Proof.
  induction pre as [|line pre IH]; intros Hno; [reflexivity|].
  simpl in Hno. apply andb_true_iff in Hno as [Hline Hno].
  apply negb_true_iff in Hline.
  cbn [fold_left]. unfold sectionStep at 2.
  rewrite Hline. destruct (length line =? 0)%nat; now apply IH.
Qed.

Lemma sectionLines_section pre header body rest :
  IsUnitHeader header = true ->
  noHeader body = true ->
  sectionEnds rest = true ->
  nth_error (sectionLines (pre ++ header :: body ++ rest))
            (length (filter IsUnitHeader pre)) =
  Some (sectionOf (length (filter IsUnitHeader pre) + 1) header body).
Proof.
  intros Hh Hbody Hrest. unfold sectionLines.
  rewrite fold_left_app.
  destruct (fold_left sectionStep pre ([], None)) as [sections section] eqn:Hpre.
  assert (Hk : length sections = length (filter IsUnitHeader pre)).
  { destruct (fold_sectionStep_headers pre [] None) as [H1 _].
    rewrite Hpre in H1. simpl in H1. rewrite <- H1. now rewrite length_map. }
  rewrite <- Hk.
  cbn [fold_left]. unfold sectionStep at 2.
  assert (Hlen : (length header =? 0)%nat = false).
  { destruct header; [discriminate Hh | reflexivity]. }
  rewrite Hlen, Hh, fold_left_app, fold_sectionStep_body by assumption.
  rewrite fold_assignLine.
  set (s := sectionOf (length sections + 1) header body).
  assert (Hframe : firstn (length sections + 1)
            (fst (fold_left sectionStep rest (sections ++ [s], Some (length sections))))
            = sections ++ [s]).
  { destruct rest as [|line rest]; cbn [fold_left fst].
    - rewrite firstn_all2; [reflexivity | rewrite length_app; simpl; lia].
    - simpl in Hrest. unfold sectionStep at 2.
      assert (Hl : (length line =? 0)%nat = false)
        by (destruct line; [discriminate Hrest | reflexivity]).
      rewrite Hl, Hrest, fold_sectionStep_frame.
      + rewrite firstn_app, firstn_all2 by (rewrite length_app; simpl; lia).
        rewrite length_app. simpl.
        replace (length sections + 1 - (length sections + 1)) with 0 by lia.
        simpl. now rewrite app_nil_r.
      + rewrite !length_app. simpl. lia.
      + intros p [= <-]. rewrite length_app. simpl. lia. }
  rewrite <- (firstn_skipn (length sections + 1)
                (fst (fold_left sectionStep rest (sections ++ [s], Some (length sections))))).
  rewrite Hframe, nth_error_app1 by (rewrite length_app; simpl; lia).
  rewrite nth_error_app2, Nat.sub_diag by lia. reflexivity.
Qed.

(** C7. In the sections of [SectionInput], each scalar field holds the last
    line of its kind between the section's header and the next one, and
    Scouts holds all the scout lines in order ([sectionOf]); the lines
    before the first header are dropped; and the three-unit input gives
    three sections, in order, each with only its own status line. *)
Theorem SectionInput_fields :
  (forall (x : bytes) (pre : list bytes) (header : bytes)
          (body rest : list bytes),
      Split x = pre ++ header :: body ++ rest ->
      IsUnitHeader header = true ->
      noHeader body = true ->
      sectionEnds rest = true ->
      nth_error (SectionInput x) (length (filter IsUnitHeader pre)) =
      Some (sectionOf (length (filter IsUnitHeader pre) + 1) header body))
  /\ (forall pre rest : list bytes,
         noHeader pre = true ->
         sectionLines (pre ++ rest) = sectionLines rest)
  /\ SectionInput threeUnits =
     [ statusOnly 1 "tribe 0987,,current hex = ## 0709,(previous hex = ## 0709)"
         "0987 status:prairie,0987";
       statusOnly 2 "garrison 0987g1,,current hex = ## 0709,(previous hex = ## 0709)"
         "0987g1 status:prairie,0987g1";
       statusOnly 3 "fleet 0987f1,,current hex = ## 0710,(previous hex = ## 0709)"
         "0987f1 status:ocean,0987f1" ].
Proof.
  split; [|split].
  - intros x pre header body rest Hx Hh Hbody Hrest.
    unfold SectionInput. rewrite Hx. now apply sectionLines_section.
  - intros pre rest Hno. unfold sectionLines.
    now rewrite fold_left_app, fold_sectionStep_preamble.
  - vm_compute. reflexivity.
Qed.

Lemma SectionInput_fields_witness :
  nth_error (SectionInput threeUnits) 1 =
  Some (sectionOf 2
          (B "garrison 0987g1,,current hex = ## 0709,(previous hex = ## 0709)")
          [B "0987g1 status:prairie,0987g1"]).
Proof.
  apply (proj1 SectionInput_fields threeUnits
           [B "tribe 0987,,current hex = ## 0709,(previous hex = ## 0709)";
            B "0987 status:prairie,0987"]
           (B "garrison 0987g1,,current hex = ## 0709,(previous hex = ## 0709)")
           [B "0987g1 status:prairie,0987g1"]
           [B "fleet 0987f1,,current hex = ## 0710,(previous hex = ## 0709)";
            B "0987f1 status:ocean,0987f1"]);
    reflexivity.
Defined.

(** ** scrubStepResults *)

Lemma resultsLoop_step done ch rest :
  resultsLoop done (ch :: rest) =
  match Find edgeCodePattern (ch :: rest) with
  | Some m =>
    let '(done', step') :=
      directionList (done ++ m) (skipn (length m) (ch :: rest)) in
    resultsLoop done' step'
  | None =>
    match Find unitIDPattern (ch :: rest) with
    | Some m =>
      let '(done', step') :=
        unitIDList (done ++ m) (skipn (length m) (ch :: rest)) in
      resultsLoop done' step'
    | None =>
      let '(done', step') := toComma (done ++ [ch]) rest in
      resultsLoop done' step'
    end
  end.
Proof.
  destruct (Find edgeCodePattern (ch :: rest)) as [m|] eqn:E.
  - destruct (directionList (done ++ m) (skipn (length m) (ch :: rest)))
      as [d s] eqn:E'.
    simp resultsLoop.
    generalize (inspect (Find edgeCodePattern (ch :: rest))).
    intros [[m0|] E0]; [|congruence].
    assert (m0 = m) by congruence. subst m0. simp resultsLoop.
    generalize (inspect (directionList (done ++ m) (skipn (length m) (ch :: rest)))).
    intros [[d0 s0] E0']. simp resultsLoop. congruence.
  - destruct (Find unitIDPattern (ch :: rest)) as [m|] eqn:E2.
    + destruct (unitIDList (done ++ m) (skipn (length m) (ch :: rest)))
        as [d s] eqn:E'.
      simp resultsLoop.
      generalize (inspect (Find edgeCodePattern (ch :: rest))).
      intros [[m0|] E0]; [congruence|]. simp resultsLoop.
      generalize (inspect (Find unitIDPattern (ch :: rest))).
      intros [[m1|] E1]; [|congruence].
      assert (m1 = m) by congruence. subst m1. simp resultsLoop.
      generalize (inspect (unitIDList (done ++ m) (skipn (length m) (ch :: rest)))).
      intros [[d0 s0] E0']. simp resultsLoop. congruence.
    + destruct (toComma (done ++ [ch]) rest) as [d s] eqn:E'.
      simp resultsLoop.
      generalize (inspect (Find edgeCodePattern (ch :: rest))).
      intros [[m0|] E0]; [congruence|]. simp resultsLoop.
      generalize (inspect (Find unitIDPattern (ch :: rest))).
      intros [[m1|] E1]; [congruence|]. simp resultsLoop.
      generalize (inspect (toComma (done ++ [ch]) rest)).
      intros [[d0 s0] E0']. simp resultsLoop. congruence.
Qed.

(** *** Only separators change, and only into spaces *)

Lemma blankedText_refl s : blankedText s s.
Proof. induction s; constructor; [now left | assumption]. Qed.

Lemma Find_first_class p (re : rx) b m :
  Find (seq (chr p) re) b = Some m ->
  exists ch rest, b = ch :: rest /\ p ch = true.
Proof.
  unfold Find. destruct (seq (chr p) re (startOf b)) as [|c l] eqn:E; [discriminate|].
  intros _.
  assert (H : In c (seq (chr p) re (startOf b))) by (rewrite E; now left).
  apply In_seq in H as (c1 & H1 & _).
  apply In_chr in H1 as (ch & rest & Hrest & Hp & _).
  now exists ch, rest.
Qed.

(** One round of a list loop: the element found is [ch :: body] with [ch] a
    separator; the round writes [SP :: body] and leaves what follows. *)
Lemma list_round re step m :
  Advances re ->
  (forall b m, Find re b = Some m ->
               exists ch rest, b = ch :: rest /\ isCommaOrSpace ch = true) ->
  Find re step = Some m ->
  exists ch body,
    m = ch :: body /\ isCommaOrSpace ch = true
    /\ step = ch :: body ++ skipn (length m) (blankFirst step)
    /\ firstn (length m) (blankFirst step) = SP :: body.
Proof.
  intros Hadv Hfirst H.
  destruct (Find_nonempty re step m Hadv H) as (ch & body & ->).
  destruct (Find_prefix re step _ (Advances_Consumes _ Hadv) H) as (c & _ & Hb).
  destruct (Hfirst _ _ H) as (ch' & rest & Hstep & Hsep).
  assert (ch' = ch) by (rewrite Hstep in Hb; simpl in Hb; congruence). subst ch'.
  exists ch, body. split; [reflexivity|]. split; [assumption|].
  rewrite Hb. unfold blankFirst. simpl.
  rewrite skipn_app, firstn_app, Nat.sub_diag, skipn_all, firstn_all. simpl.
  now rewrite app_nil_r.
Qed.

Lemma listDirectionPattern_first b m :
  Find listDirectionPattern b = Some m ->
  exists ch rest, b = ch :: rest /\ isCommaOrSpace ch = true.
Proof. apply Find_first_class. Qed.

Lemma listUnitIDPattern_first b m :
  Find listUnitIDPattern b = Some m ->
  exists ch rest, b = ch :: rest /\ isCommaOrSpace ch = true.
Proof. apply Find_first_class. Qed.

Lemma directionList_blanked step : forall done done' step',
  directionList done step = (done', step') ->
  exists written, done' = done ++ written /\ blankedText step (written ++ step').
Proof.
  induction step as [step IH] using bytes_length_ind.
  intros done done' step'. rewrite directionList_step.
  destruct (Find listDirectionPattern step) as [m|] eqn:E.
  - destruct (list_round _ _ _ listDirectionPattern_advances
                listDirectionPattern_first E)
      as (ch & body & -> & Hsep & Hstep & Hw).
    intros H. apply IH in H as (written & -> & Hrest).
    + exists (SP :: body ++ written). rewrite Hw. split.
      * now rewrite <- app_assoc.
      * rewrite Hstep at 1. simpl. constructor; [now right|].
        rewrite <- app_assoc. apply Forall2_app; [apply blankedText_refl | exact Hrest].
    + eapply skip_match_shorter; eauto using listDirectionPattern_advances.
      eapply blankFirst_length; eauto using listDirectionPattern_advances.
  - intros [= <- <-]. exists []. rewrite app_nil_r. split; [reflexivity|].
    apply blankedText_refl.
Qed.

Lemma unitIDList_blanked step : forall done done' step',
  unitIDList done step = (done', step') ->
  exists written, done' = done ++ written /\ blankedText step (written ++ step').
Proof.
  induction step as [step IH] using bytes_length_ind.
  intros done done' step'. rewrite unitIDList_step.
  destruct (Find listUnitIDPattern step) as [m|] eqn:E.
  - destruct (list_round _ _ _ listUnitIDPattern_advances
                listUnitIDPattern_first E)
      as (ch & body & -> & Hsep & Hstep & Hw).
    intros H. apply IH in H as (written & -> & Hrest).
    + exists (SP :: body ++ written). rewrite Hw. split.
      * now rewrite <- app_assoc.
      * rewrite Hstep at 1. simpl. constructor; [now right|].
        rewrite <- app_assoc. apply Forall2_app; [apply blankedText_refl | exact Hrest].
    + eapply skip_match_shorter; eauto using listUnitIDPattern_advances.
      eapply blankFirst_length; eauto using listUnitIDPattern_advances.
  - intros [= <- <-]. exists []. rewrite app_nil_r. split; [reflexivity|].
    apply blankedText_refl.
Qed.

Lemma toComma_app step : forall done done' step',
  toComma done step = (done', step') ->
  exists skipped, done' = done ++ skipped /\ step = skipped ++ step'.
Proof.
  induction step as [|ch rest IH]; intros done done' step'; simpl.
  - intros [= <- <-]. exists []. now rewrite app_nil_r.
  - destruct (Ascii.eqb ch ",").
    + intros [= <- <-]. exists []. now rewrite app_nil_r.
    + intros H. apply IH in H as (skipped & -> & ->).
      exists (ch :: skipped). now rewrite <- app_assoc.
Qed.

Lemma Find_skip re step m :
  Advances re -> Find re step = Some m ->
  step = m ++ skipn (length m) step.
Proof.
  intros Hadv H.
  destruct (Find_prefix re step _ (Advances_Consumes _ Hadv) H) as (c & _ & Hb).
  rewrite Hb at 2. rewrite skipn_app, Nat.sub_diag, skipn_all. simpl. exact Hb.
Qed.

Lemma blanked_trans a b c : blanked a b -> blanked b c -> blanked a c.
Proof.
  intros [Hab|[Ha Hb]] [Hbc|[Hb' Hc]]; subst; unfold blanked; auto.
Qed.

Lemma blankedText_trans x y z : blankedText x y -> blankedText y z -> blankedText x z.
Proof.
  intros Hxy. revert z. induction Hxy as [|a b x y Hab Hxy IH]; intros z Hyz.
  - inversion Hyz. constructor.
  - inversion Hyz as [|b' c y' z' Hbc Hyz']; subst.
    constructor; [eapply blanked_trans; eauto | now apply IH].
Qed.

(** Rewriting the part still to be scanned. *)
Lemma blankedText_tail x written step step' :
  blankedText x (written ++ step) -> blankedText step step' ->
  blankedText x (written ++ step').
Proof.
  intros H1 H2. eapply blankedText_trans; [exact H1|].
  apply Forall2_app; [apply blankedText_refl | exact H2].
Qed.

Lemma resultsLoop_blanked step : forall done,
  exists written,
    resultsLoop done step = done ++ written /\ blankedText step written.
Proof.
  induction step as [step IH] using bytes_length_ind. intros done.
  destruct step as [|ch rest].
  - exists []. simp resultsLoop. rewrite app_nil_r. split; [reflexivity | constructor].
  - rewrite resultsLoop_step.
    destruct (Find edgeCodePattern (ch :: rest)) as [m|] eqn:E;
      [|destruct (Find unitIDPattern (ch :: rest)) as [m|] eqn:E2].
    + destruct (directionList _ _) as [d s] eqn:El.
      pose proof (directionList_length (skipn (length m) (ch :: rest)) (done ++ m)) as Hlen.
      rewrite El in Hlen. simpl in Hlen.
      pose proof (skip_match_shorter _ _ m (fun s => s) edgeCodePattern_advances
                    E eq_refl) as Hlt.
      apply directionList_blanked in El as (w1 & -> & Hw1).
      destruct (IH s ltac:(simpl in *; lia) ((done ++ m) ++ w1)) as (w2 & -> & Hw2).
      exists (m ++ w1 ++ w2). split; [now rewrite <- !app_assoc|].
      rewrite (Find_skip _ _ _ edgeCodePattern_advances E) at 1.
      apply Forall2_app; [apply blankedText_refl|].
      eapply blankedText_tail; eauto.
    + destruct (unitIDList _ _) as [d s] eqn:El.
      pose proof (unitIDList_length (skipn (length m) (ch :: rest)) (done ++ m)) as Hlen.
      rewrite El in Hlen. simpl in Hlen.
      pose proof (skip_match_shorter _ _ m (fun s => s) unitIDPattern_advances
                    E2 eq_refl) as Hlt.
      apply unitIDList_blanked in El as (w1 & -> & Hw1).
      destruct (IH s ltac:(simpl in *; lia) ((done ++ m) ++ w1)) as (w2 & -> & Hw2).
      exists (m ++ w1 ++ w2). split; [now rewrite <- !app_assoc|].
      rewrite (Find_skip _ _ _ unitIDPattern_advances E2) at 1.
      apply Forall2_app; [apply blankedText_refl|].
      eapply blankedText_tail; eauto.
    + destruct (toComma (done ++ [ch]) rest) as [d s] eqn:Et.
      pose proof (toComma_length rest (done ++ [ch])) as Hlen.
      rewrite Et in Hlen. simpl in Hlen.
      apply toComma_app in Et as (skipped & -> & ->).
      destruct (IH s ltac:(simpl; rewrite length_app; lia) ((done ++ [ch]) ++ skipped))
        as (w2 & -> & Hw2).
      exists (ch :: skipped ++ w2). split; [now rewrite <- !app_assoc|].
      constructor; [now left|].
      apply Forall2_app; [apply blankedText_refl | exact Hw2].
Qed.

Lemma scrubStepResults_blanked line : blankedText line (scrubStepResults line).
Proof.
  unfold scrubStepResults.
  destruct (toComma [] line) as [done step] eqn:Et.
  apply toComma_app in Et as (skipped & -> & ->). simpl.
  destruct (resultsLoop_blanked step skipped) as (written & -> & Hw).
  apply Forall2_app; [apply blankedText_refl | exact Hw].
Qed.

(** C10. [scrubStepResults] keeps the length of the line, and at every
    position where the result differs from the line, the line held a comma
    or a white-space byte and the result holds a space. *)
Theorem scrubStepResults_frame (line : bytes) :
  length (scrubStepResults line) = length line
  /\ forall (i : nat) (a b : ascii),
       nth_error line i = Some a ->
       nth_error (scrubStepResults line) i = Some b ->
       a <> b ->
       isCommaOrSpace a = true /\ b = SP.
Proof.
  pose proof (scrubStepResults_blanked line) as H.
  split.
  - symmetry. exact (Forall2_length H).
  - revert H. generalize (scrubStepResults line). intros out H.
    induction H as [|x y l l' Hxy H IH]; intros i a b Ha Hb Hne.
    + destruct i; discriminate.
    + destruct i as [|i]; simpl in Ha, Hb.
      * injection Ha as <-. injection Hb as <-.
        destruct Hxy as [->|[Hsep ->]]; [congruence | auto].
      * eapply IH; eauto.
Qed.

Lemma scrubStepResults_frame_witness :
  nth_error (scrubStepResults (B ",l,n")) 2 = Some SP.
Proof.
  destruct (scrubStepResults_frame (B ",l,n")) as [_ H].
  destruct (nth_error (scrubStepResults (B ",l,n")) 2) as [b|] eqn:E;
    [|vm_compute in E; discriminate].
  f_equal.
  refine (proj2 (H 2 "," b eq_refl E _)).
  vm_compute in E. injection E as <-. discriminate.
Defined.

(** *** Matching is blind to the blanking of separators

    The scan rewrites separators into spaces behind itself.  The patterns,
    apart from the comma that opens a head, cannot tell a separator from a
    space, so they match a text and its blanked versions alike. *)

Definition blankedPrev (o o' : option ascii) : Prop :=
  match o, o' with
  | None, None => True
  | Some a, Some b => blanked a b
  | _, _ => False
  end.

Definition blankedCursor (c c' : cursor) : Prop :=
  blankedPrev (c_prev c) (c_prev c') /\ blankedText (c_rest c) (c_rest c').

Definition Blind (re : rx) : Prop :=
  forall c c', blankedCursor c c' -> Forall2 blankedCursor (re c) (re c').

Definition blindClass (p : ascii -> bool) : Prop :=
  forall a b, blanked a b -> p a = p b.

Lemma separator_cases a :
  isCommaOrSpace a = true ->
  a = "," \/ a = TAB \/ a = LF \/ a = "012" \/ a = CR \/ a = SP.
Proof.
  unfold isCommaOrSpace, isSpaceChar. simpl.
  rewrite !orb_true_iff, !Ascii.eqb_eq. intuition discriminate || auto.
Qed.

(** A class that holds of no separator is blind. *)
Lemma blindClass_no_separator p :
  p "," = false -> p TAB = false -> p LF = false -> p "012" = false ->
  p CR = false -> p SP = false -> blindClass p.
Proof.
  intros H1 H2 H3 H4 H5 H6 a b [->|[Ha ->]]; [reflexivity|].
  destruct (separator_cases a Ha) as [-> | [-> | [-> | [-> | [-> | -> ]]]]]; congruence.
Qed.

Lemma blindClass_isCommaOrSpace : blindClass isCommaOrSpace.
Proof. intros a b [->|[Ha ->]]; [reflexivity | now rewrite Ha]. Qed.

Lemma blindClass_isWordChar : blindClass isWordChar.
Proof. apply blindClass_no_separator; reflexivity. Qed.

Lemma Blind_eps : Blind eps.
Proof. intros c c' H. constructor; [exact H | constructor]. Qed.

Lemma Blind_chr p : blindClass p -> Blind (chr p).
Proof.
  intros Hp c c' [Hprev Hrest]. unfold chr.
  inversion Hrest as [|a b l l' Hab Hl Ea Eb]; [constructor|].
  rewrite (Hp a b Hab). destruct (p b); constructor; [|constructor].
  split; simpl; assumption.
Qed.

Lemma Forall2_flat_map {A} (R : A -> A -> Prop) (f g : A -> list A) l l' :
  Forall2 R l l' ->
  (forall x y, R x y -> Forall2 R (f x) (g y)) ->
  Forall2 R (flat_map f l) (flat_map g l').
Proof.
  intros H Hfg. induction H as [|x y l l' Hxy H IH]; simpl; [constructor|].
  apply Forall2_app; auto.
Qed.

Lemma Blind_seq a b : Blind a -> Blind b -> Blind (seq a b).
Proof.
  intros Ha Hb c c' H. unfold seq.
  apply Forall2_flat_map; [now apply Ha | exact Hb].
Qed.

Lemma Blind_alt a b : Blind a -> Blind b -> Blind (alt a b).
Proof. intros Ha Hb c c' H. unfold alt. apply Forall2_app; auto. Qed.

Lemma Blind_opt a : Blind a -> Blind (opt a).
Proof. intros Ha. apply Blind_alt; [assumption | apply Blind_eps]. Qed.

Lemma Blind_times n a : Blind a -> Blind (times n a).
Proof.
  intros Ha. induction n as [|n IH]; [apply Blind_eps | now apply Blind_seq].
Qed.

Lemma Blind_group n a : Blind a -> Blind (group n a).
Proof.
  intros Ha c c' H. unfold group.
  specialize (Ha c c' H). induction Ha as [|x y l l' Hxy Hl IH]; simpl;
    constructor; [exact Hxy | exact IH].
Qed.

Lemma Blind_wordBoundary : Blind wordBoundary.
Proof.
  intros c c' [Hprev Hrest]. unfold wordBoundary.
  assert (H1 : isWordAt (c_prev c) = isWordAt (c_prev c')).
  { destruct (c_prev c), (c_prev c'); simpl in *; try contradiction;
      [now apply blindClass_isWordChar | reflexivity]. }
  assert (H2 : isWordAt (hd_error (c_rest c)) = isWordAt (hd_error (c_rest c'))).
  { inversion Hrest; simpl; [reflexivity | now apply blindClass_isWordChar]. }
  rewrite H1, H2. destruct (xorb _ _); constructor; [|constructor].
  split; assumption.
Qed.

Lemma Blind_litBytes s :
  forallb (fun ch => negb (isCommaOrSpace ch)) s = true -> Blind (litBytes s).
Proof.
  induction s as [|ch s IH]; simpl; intros H; [apply Blind_eps|].
  apply andb_true_iff in H as [Hch H]. apply negb_true_iff in Hch.
  apply Blind_seq; [|now apply IH].
  apply Blind_chr. intros a b [->|[Ha ->]]; [reflexivity|].
  destruct (Ascii.eqb_spec ch a) as [->|_]; [congruence|].
  destruct (Ascii.eqb_spec ch SP) as [->|_]; [discriminate Hch | reflexivity].
Qed.

#[local] Hint Resolve Blind_eps Blind_chr Blind_seq Blind_alt Blind_opt
  Blind_times Blind_group Blind_wordBoundary blindClass_isCommaOrSpace : rx.
#[local] Hint Extern 1 (blindClass _) =>
  (apply blindClass_no_separator; reflexivity) : rx.
#[local] Hint Extern 1 (Blind (lit _)) =>
  (apply Blind_litBytes; reflexivity) : rx.

Local Open Scope rx_scope.

(** The part of a head pattern behind its opening comma. *)
Definition edgeCodeBody : rx :=
  group 1 (lit "hsm" <|> lit "l" <|> lit "lcm" <|> lit "ljm" <|> lit "lsm"
           <|> lit "o")
  ;; wordBoundary.
Definition unitIDBody : rx := unitIdWithGroup 1 ;; wordBoundary.

Local Close Scope rx_scope.

Lemma edgeCodeBody_blind : Blind edgeCodeBody.
Proof. unfold edgeCodeBody. auto 20 with rx. Qed.

Lemma unitIDBody_blind : Blind unitIDBody.
Proof. unfold unitIDBody, unitIdWithGroup, digit. auto 20 with rx. Qed.

Lemma listDirectionPattern_blind : Blind listDirectionPattern.
Proof. unfold listDirectionPattern. auto 20 with rx. Qed.

Lemma listUnitIDPattern_blind : Blind listUnitIDPattern.
Proof. unfold listUnitIDPattern, unitIdWithGroup, digit. auto 20 with rx. Qed.

Lemma startOf_blanked s s' : blankedText s s' -> blankedCursor (startOf s) (startOf s').
Proof. intros H. split; [exact I | exact H]. Qed.

(** A blind pattern finds nothing in both texts, or matches of one length. *)
Lemma results_blind (results results' : list cursor) s s' :
  Forall2 blankedCursor results results' -> blankedText s s' ->
  match
    match results with [] => None
    | c :: _ => Some (firstn (length s - length (c_rest c)) s) end,
    match results' with [] => None
    | c :: _ => Some (firstn (length s' - length (c_rest c)) s') end
  with
  | Some m, Some m' => length m = length m'
  | None, None => True
  | _, _ => False
  end.
Proof.
  intros H Hs. destruct H as [|c c' l l' [_ Hc] _]; [exact I|].
  rewrite !length_firstn, (Forall2_length Hs), (Forall2_length Hc). reflexivity.
Qed.

Lemma Find_blind re s s' :
  Blind re -> blankedText s s' ->
  match Find re s, Find re s' with
  | Some m, Some m' => length m = length m'
  | None, None => True
  | _, _ => False
  end.
Proof.
  intros Hre Hs. unfold Find.
  apply results_blind; [|exact Hs]. apply Hre, startOf_blanked, Hs.
Qed.

(** *** Heads: a comma and a body *)

Lemma head_results body ch t :
  seq (lit ",") body (startOf (ch :: t)) =
  if Ascii.eqb "," ch then body (Cursor (Some ch) t []) else [].
Proof.
  unfold lit, B. cbn [list_ascii_of_string litBytes].
  unfold seq, chr, eps, startOf. cbn [c_rest c_caps].
  destruct (Ascii.eqb "," ch); cbn [flat_map app];
    [now rewrite app_nil_r | reflexivity].
Qed.

Lemma head_needs_comma body s m :
  Find (seq (lit ",") body) s = Some m -> exists t, s = "," :: t.
Proof.
  unfold Find. destruct s as [|ch t]; [discriminate|].
  rewrite head_results. destruct (Ascii.eqb_spec "," ch) as [<-|_]; [|discriminate].
  intros _. now exists t.
Qed.

(** A head found in a blanked text was a head of the same length before. *)
Lemma Find_head_blind body s s' m' :
  Blind body -> blankedText s s' ->
  Find (seq (lit ",") body) s' = Some m' ->
  exists m, Find (seq (lit ",") body) s = Some m /\ length m = length m'.
Proof.
  intros Hbody Hs H.
  destruct (head_needs_comma _ _ _ H) as (t' & ->).
  inversion Hs as [|a b t t'' Hab Ht Ea Eb]; subst.
  assert (a = ",") by (destruct Hab as [->|[_ Hsp]]; [reflexivity | discriminate Hsp]).
  subst a. revert H. unfold Find. rewrite !head_results, Ascii.eqb_refl.
  assert (Hc : blankedCursor (Cursor (Some ",") t []) (Cursor (Some ",") t' [])).
  { split; simpl; [now left | exact Ht]. }
  pose proof (results_blind _ _ ("," :: t) ("," :: t') (Hbody _ _ Hc) Hs) as Hr.
  destruct (body (Cursor (Some ",") t [])) as [|c l];
    destruct (body (Cursor (Some ",") t' [])) as [|c' l']; try contradiction.
  - discriminate.
  - intros [= <-]. eexists. split; [reflexivity | exact Hr].
Qed.

Lemma Find_head_blind_None body s s' :
  Blind body -> blankedText s s' ->
  Find (seq (lit ",") body) s = None ->
  Find (seq (lit ",") body) s' = None.
Proof.
  intros Hbody Hs Hnone.
  destruct (Find (seq (lit ",") body) s') as [m'|] eqn:E; [|reflexivity].
  destruct (Find_head_blind _ _ _ _ Hbody Hs E) as (m & Hm & _). congruence.
Qed.

(** *** The bytes of a match behind its first byte are never commas *)

Definition notComma (ch : ascii) : Prop := ch <> ",".

Definition NoComma (re : rx) : Prop :=
  forall c c', In c' (re c) ->
               exists m, c_rest c = m ++ c_rest c' /\ Forall notComma m.

Lemma NoComma_eps : NoComma eps.
Proof. intros c c' [<-|[]]. exists []. split; [reflexivity | constructor]. Qed.

Lemma NoComma_chr p : p "," = false -> NoComma (chr p).
Proof.
  intros Hp c c' H. apply In_chr in H as (ch & rest & Hrest & Hch & ->).
  exists [ch]. split; [exact Hrest|]. constructor; [|constructor].
  intros ->. congruence.
Qed.

Lemma NoComma_seq a b : NoComma a -> NoComma b -> NoComma (seq a b).
Proof.
  intros Ha Hb c c'' H. apply In_seq in H as (c' & H1 & H2).
  destruct (Ha _ _ H1) as (m1 & E1 & F1). destruct (Hb _ _ H2) as (m2 & E2 & F2).
  exists (m1 ++ m2). split; [now rewrite E1, E2, app_assoc|].
  apply Forall_app. now split.
Qed.

Lemma NoComma_alt a b : NoComma a -> NoComma b -> NoComma (alt a b).
Proof. intros Ha Hb c c' H. apply In_alt in H as [H|H]; eauto. Qed.

Lemma NoComma_opt a : NoComma a -> NoComma (opt a).
Proof. intros Ha. apply NoComma_alt; [assumption | apply NoComma_eps]. Qed.

Lemma NoComma_times n a : NoComma a -> NoComma (times n a).
Proof.
  intros Ha. induction n as [|n IH]; [apply NoComma_eps | now apply NoComma_seq].
Qed.

Lemma NoComma_group n a : NoComma a -> NoComma (group n a).
Proof.
  intros Ha c c' H. apply in_map_iff in H as (c0 & <- & H). exact (Ha _ _ H).
Qed.

Lemma NoComma_wordBoundary : NoComma wordBoundary.
Proof.
  intros c c' H. unfold wordBoundary in H.
  destruct (xorb _ _); [|destruct H]. destruct H as [<-|[]].
  exists []. split; [reflexivity | constructor].
Qed.

Lemma NoComma_litBytes s :
  forallb (fun ch => negb (Ascii.eqb ch ",")) s = true -> NoComma (litBytes s).
Proof.
  induction s as [|ch s IH]; simpl; intros H; [apply NoComma_eps|].
  apply andb_true_iff in H as [Hch H]. apply negb_true_iff in Hch.
  apply NoComma_seq; [|now apply IH].
  apply NoComma_chr. now rewrite Ascii.eqb_sym.
Qed.

#[local] Hint Resolve NoComma_eps NoComma_seq NoComma_alt NoComma_opt
  NoComma_times NoComma_group NoComma_wordBoundary : rx.
#[local] Hint Extern 1 (NoComma (chr _)) =>
  (apply NoComma_chr; reflexivity) : rx.
#[local] Hint Extern 1 (NoComma (lit _)) =>
  (apply NoComma_litBytes; reflexivity) : rx.

Local Open Scope rx_scope.

(** The part of the direction-list pattern behind its separator. *)
Definition directionBody : rx :=
  group 1 (chr (oneOf "ns") ;; opt (chr (oneOf "ew"))) ;; wordBoundary.

Local Close Scope rx_scope.

Lemma edgeCodeBody_noComma : NoComma edgeCodeBody.
Proof. unfold edgeCodeBody. auto 20 with rx. Qed.

Lemma unitIDBody_noComma : NoComma unitIDBody.
Proof. unfold unitIDBody, unitIdWithGroup, digit. auto 20 with rx. Qed.

Lemma directionBody_noComma : NoComma directionBody.
Proof. unfold directionBody. auto 20 with rx. Qed.

Lemma element_results p body ch t :
  seq (chr p) body (startOf (ch :: t)) =
  if p ch then body (Cursor (Some ch) t []) else [].
Proof.
  unfold seq, chr, startOf. cbn [c_rest c_caps].
  destruct (p ch); cbn [flat_map app]; [now rewrite app_nil_r | reflexivity].
Qed.

Lemma firstn_match (m rest : bytes) :
  firstn (length (m ++ rest) - length rest) (m ++ rest) = m.
Proof.
  rewrite length_app, Nat.add_sub, firstn_app, Nat.sub_diag, firstn_all.
  simpl. now rewrite app_nil_r.
Qed.

Lemma Find_after_first (re body : rx) ch t m :
  re (startOf (ch :: t)) = body (Cursor (Some ch) t []) ->
  NoComma body ->
  Find re (ch :: t) = Some m ->
  exists mb, m = ch :: mb /\ Forall notComma mb.
Proof.
  intros Hre Hbody. unfold Find. rewrite Hre.
  destruct (body (Cursor (Some ch) t [])) as [|c l] eqn:E; [discriminate|].
  destruct (Hbody (Cursor (Some ch) t []) c) as (mb & Hmb & Hno);
    [rewrite E; now left|].
  simpl in Hmb. subst t.
  change (ch :: mb ++ c_rest c) with ((ch :: mb) ++ c_rest c).
  rewrite firstn_match. intros [= <-]. now exists mb.
Qed.

Lemma Find_head_body body s m :
  NoComma body -> Find (seq (lit ",") body) s = Some m ->
  exists mb, m = "," :: mb /\ Forall notComma mb.
Proof.
  intros Hbody H. destruct (head_needs_comma _ _ _ H) as (t & ->).
  apply (Find_after_first (seq (lit ",") body) body "," t m);
    [|assumption|assumption].
  now rewrite head_results, Ascii.eqb_refl.
Qed.

Lemma Find_element_body p body s ch mb :
  NoComma body -> Find (seq (chr p) body) s = Some (ch :: mb) ->
  Forall notComma mb.
Proof.
  intros Hbody H.
  destruct (Find_first_class _ _ _ _ H) as (ch' & t & -> & Hp).
  destruct (Find_after_first (seq (chr p) body) body ch' t (ch :: mb))
    as (mb' & [= _ ->] & Hno); try assumption.
  now rewrite element_results, Hp.
Qed.

(** *** An edge code is not a unit id *)

Lemma edge_unit_exclusive s m :
  Find edgeCodePattern s = Some m -> Find unitIDPattern s = None.
Proof.
  intros H.
  destruct (head_needs_comma edgeCodeBody s m H) as (t & ->).
  revert H. unfold Find.
  change edgeCodePattern with (seq (lit ",") edgeCodeBody).
  change unitIDPattern with (seq (lit ",") unitIDBody).
  rewrite !head_results, Ascii.eqb_refl.
  destruct (edgeCodeBody (Cursor (Some ",") t [])) as [|c l] eqn:E; [discriminate|].
  intros _.
  destruct (unitIDBody (Cursor (Some ",") t [])) as [|c' l'] eqn:E'; [reflexivity|].
  exfalso.
  assert (He : In c (edgeCodeBody (Cursor (Some ",") t []))) by (rewrite E; now left).
  assert (Hu : In c' (unitIDBody (Cursor (Some ",") t []))) by (rewrite E'; now left).
  clear E E'.
  (* the unit id opens with a digit *)
  unfold unitIDBody, unitIdWithGroup in Hu.
  apply In_seq in Hu as (u1 & Hu & _). apply In_seq in Hu as (u2 & Hu & _).
  simpl in Hu. apply In_seq in Hu as (u3 & Hu & _).
  apply In_chr in Hu as (d & r & Hd & Hdigit & _). simpl in Hd. subst t.
  (* the edge code opens with a letter *)
  unfold edgeCodeBody in He.
  apply In_seq in He as (e1 & He & _).
  apply In_group in He as (e0 & He & _).
  repeat (apply In_alt in He as [He|He];
          [apply In_litBytes in He; simpl in He; injection He as -> _;
           discriminate Hdigit|]).
  apply In_litBytes in He; simpl in He; injection He as -> _.
  discriminate Hdigit.
Qed.

(** *** A list loop blanks every element it walks over *)

Section ListLoop.

Variable element : rx.
Variable loop : bytes -> bytes -> bytes * bytes.

Hypothesis loop_step : forall done step,
  loop done step =
  match Find element step with
  | Some elementMatch =>
    loop (done ++ firstn (length elementMatch) (blankFirst step))
         (skipn (length elementMatch) (blankFirst step))
  | None => (done, step)
  end.
Hypothesis element_advances : Advances element.
Hypothesis element_blind : Blind element.
Hypothesis element_first : forall b m,
  Find element b = Some m ->
  exists ch rest, b = ch :: rest /\ isCommaOrSpace ch = true.
Hypothesis element_body : forall b ch mb,
  Find element b = Some (ch :: mb) -> Forall notComma mb.

Lemma blanked_no_match s s' :
  blankedText s s' -> Find element s = None -> Find element s' = None.
Proof.
  intros Hs Hnone. pose proof (Find_blind element s s' element_blind Hs) as H.
  rewrite Hnone in H. destruct (Find element s'); [contradiction | reflexivity].
Qed.

Lemma loop_walk step : forall done done' step',
  loop done step = (done', step') ->
  exists written,
    done' = done ++ written
    /\ blankedText step (written ++ step')
    /\ Forall notComma written
    /\ forall tail t em,
         blankedText step' tail ->
         listWalk element (written ++ tail) t ->
         Find element t = Some em ->
         hd_error t = Some SP.
Proof.
  induction step as [step IH] using bytes_length_ind.
  intros done done' step'. rewrite loop_step.
  destruct (Find element step) as [m|] eqn:E.
  - destruct (list_round _ _ _ element_advances element_first E)
      as (ch & body & -> & Hsep & Hstep & Hw).
    intros H. apply IH in H as (written & -> & Hrest & Hno & Hwalk).
    2:{ eapply skip_match_shorter; eauto. eapply blankFirst_length; eauto. }
    assert (Hall : blankedText step ((SP :: body ++ written) ++ step')).
    { rewrite Hstep at 1. simpl. constructor; [now right|].
      rewrite <- app_assoc. apply Forall2_app; [apply blankedText_refl | exact Hrest]. }
    exists (SP :: body ++ written). rewrite Hw.
    split; [now rewrite <- app_assoc|]. split; [exact Hall|]. split.
    { constructor; [discriminate|]. apply Forall_app. split; [|exact Hno].
      exact (element_body _ _ _ E). }
    intros tail t em Htail Hlw Hfind.
    inversion Hlw as [s Es Et | s mm t' Hmm Hnext Es Et]; subst.
    + reflexivity.
    + pose proof (Find_blind element step _ element_blind
                    (blankedText_tail _ _ _ _ Hall Htail)) as Hb.
      rewrite E, Hmm in Hb. rewrite <- Hb in Hnext.
      simpl in Hnext. rewrite <- app_assoc, skipn_app, Nat.sub_diag, skipn_all in Hnext.
      simpl in Hnext. eapply Hwalk; eauto.
  - intros [= <- <-]. exists []. rewrite app_nil_r.
    split; [reflexivity|]. split; [apply blankedText_refl|]. split; [constructor|].
    intros tail t em Htail Hlw Hfind. simpl in Hlw.
    pose proof (blanked_no_match _ _ Htail E) as Hnone.
    inversion Hlw; subst; congruence.
Qed.

End ListLoop.

Lemma listDirectionPattern_body b ch mb :
  Find listDirectionPattern b = Some (ch :: mb) -> Forall notComma mb.
Proof. apply Find_element_body, directionBody_noComma. Qed.

Lemma listUnitIDPattern_body b ch mb :
  Find listUnitIDPattern b = Some (ch :: mb) -> Forall notComma mb.
Proof. apply Find_element_body, unitIDBody_noComma. Qed.

Lemma directionList_walk step done done' step' :
  directionList done step = (done', step') ->
  exists written,
    done' = done ++ written
    /\ blankedText step (written ++ step')
    /\ Forall notComma written
    /\ forall tail t em,
         blankedText step' tail ->
         listWalk listDirectionPattern (written ++ tail) t ->
         Find listDirectionPattern t = Some em ->
         hd_error t = Some SP.
Proof.
  apply (loop_walk listDirectionPattern directionList directionList_step
           listDirectionPattern_advances listDirectionPattern_blind
           listDirectionPattern_first listDirectionPattern_body).
Qed.

Lemma unitIDList_walk step done done' step' :
  unitIDList done step = (done', step') ->
  exists written,
    done' = done ++ written
    /\ blankedText step (written ++ step')
    /\ Forall notComma written
    /\ forall tail t em,
         blankedText step' tail ->
         listWalk listUnitIDPattern (written ++ tail) t ->
         Find listUnitIDPattern t = Some em ->
         hd_error t = Some SP.
Proof.
  apply (loop_walk listUnitIDPattern unitIDList unitIDList_step
           listUnitIDPattern_advances listUnitIDPattern_blind
           listUnitIDPattern_first listUnitIDPattern_body).
Qed.

(** *** Every list behind the scan is clean *)

(** The list that a head at the start of [s] opens has only elements
    introduced by a space. *)
Definition cleanAt (headBody element : rx) (s : bytes) : Prop :=
  forall m t em,
    Find (seq (lit ",") headBody) s = Some m ->
    listWalk element (skipn (length m) s) t ->
    Find element t = Some em ->
    hd_error t = Some SP.

(** The same for every head that starts within [done], in the text
    [done ++ tail]. *)
Definition cleanIn (headBody element : rx) (done tail : bytes) : Prop :=
  forall pre ch d, done = pre ++ ch :: d -> cleanAt headBody element (ch :: d ++ tail).

Section Clean.

Variables headBody element : rx.

Lemma cleanAt_no_head s :
  Find (seq (lit ",") headBody) s = None -> cleanAt headBody element s.
Proof. intros Hnone m t em H. congruence. Qed.

Lemma cleanAt_no_comma ch s : notComma ch -> cleanAt headBody element (ch :: s).
Proof.
  intros Hch. apply cleanAt_no_head.
  destruct (Find _ (ch :: s)) as [m|] eqn:E; [|reflexivity].
  destruct (head_needs_comma _ _ _ E) as (t & [= -> _]). now elim Hch.
Qed.

Lemma cleanIn_no_commas x tail : Forall notComma x -> cleanIn headBody element x tail.
Proof.
  intros Hx pre ch d ->. apply cleanAt_no_comma.
  apply Forall_app in Hx as [_ Hx]. now inversion Hx.
Qed.

Lemma cleanIn_cons ch body tail :
  cleanAt headBody element (ch :: body ++ tail) -> Forall notComma body ->
  cleanIn headBody element (ch :: body) tail.
Proof.
  intros Hat Hbody pre c d E. destruct pre as [|c0 pre]; simpl in E.
  - injection E as <- <-. exact Hat.
  - injection E as _ ->. apply cleanAt_no_comma.
    apply Forall_app in Hbody as [_ Hbody]. now inversion Hbody.
Qed.

Lemma cleanIn_app done x tail :
  cleanIn headBody element done (x ++ tail) -> cleanIn headBody element x tail ->
  cleanIn headBody element (done ++ x) tail.
Proof.
  intros Hdone Hx pre ch d E.
  apply app_eq_app in E as (l & [[-> E]|[-> ->]]).
  - destruct l as [|c l]; simpl in E.
    + subst x. now apply (Hx []).
    + injection E as Hc Hd. subst ch d. specialize (Hdone pre c l eq_refl).
      now rewrite <- app_assoc.
  - now apply (Hx l).
Qed.

Hypothesis headBody_blind : Blind headBody.

(** No head at scan time, no head later. *)
Lemma cleanAt_blanked_no_head s s' :
  blankedText s s' -> Find (seq (lit ",") headBody) s = None ->
  cleanAt headBody element s'.
Proof.
  intros Hs Hnone. apply cleanAt_no_head.
  now apply (Find_head_blind_None headBody s s').
Qed.

End Clean.

Definition clean (done tail : bytes) : Prop :=
  cleanIn edgeCodeBody listDirectionPattern done tail
  /\ cleanIn unitIDBody listUnitIDPattern done tail.

Lemma toComma_no_commas step : forall done done' step',
  toComma done step = (done', step') ->
  exists skipped,
    done' = done ++ skipped /\ step = skipped ++ step' /\ Forall notComma skipped.
Proof.
  induction step as [|ch rest IH]; intros done done' step'; simpl.
  - intros [= <- <-]. exists []. rewrite app_nil_r. repeat split. constructor.
  - destruct (Ascii.eqb_spec ch ",") as [->|Hne].
    + intros [= <- <-]. exists []. rewrite app_nil_r. repeat split. constructor.
    + intros H. apply IH in H as (skipped & -> & -> & Hno).
      exists (ch :: skipped). rewrite <- app_assoc. repeat split.
      constructor; assumption.
Qed.

(** The head that the scan has just found opens a clean list, whatever
    happens later to the text still to be scanned. *)
Lemma cleanAt_found headBody element step m written step' tail :
  Blind headBody -> NoComma headBody ->
  Find (seq (lit ",") headBody) step = Some m ->
  blankedText (skipn (length m) step) (written ++ step') ->
  blankedText step' tail ->
  (forall t em,
      listWalk element (written ++ tail) t ->
      Find element t = Some em -> hd_error t = Some SP) ->
  cleanAt headBody element (m ++ written ++ tail).
Proof.
  intros Hblind Hnc E Hrest Htail Hwalk m' t em Hm' Hlw Hfind.
  assert (Hadv : Advances (seq (lit ",") headBody)).
  { apply Advances_seq; [apply Advances_lit|].
    intros c c' Hin. destruct (Hnc c c' Hin) as (x & Hx & _). now exists x. }
  assert (Hall : blankedText step (m ++ written ++ tail)).
  { rewrite (Find_skip _ _ _ Hadv E) at 1.
    apply Forall2_app; [apply blankedText_refl|].
    eapply blankedText_tail; eauto. }
  destruct (Find_head_blind _ _ _ _ Hblind Hall Hm') as (m0 & Hm0 & Hlen).
  assert (m0 = m) by congruence. subst m0.
  rewrite <- Hlen, skipn_app, Nat.sub_diag, skipn_all in Hlw. simpl in Hlw.
  eapply Hwalk; eauto.
Qed.

(** A text that was no head of this kind at scan time opens no list. *)
Lemma cleanAt_not_found headBody element step x tail :
  Blind headBody ->
  Find (seq (lit ",") headBody) step = None ->
  blankedText step (x ++ tail) ->
  cleanAt headBody element (x ++ tail).
Proof. intros Hblind Hnone Hall. eapply cleanAt_blanked_no_head; eauto. Qed.

Lemma resultsLoop_clean step : forall done,
  (forall tail, blankedText step tail -> clean done tail) ->
  clean (resultsLoop done step) [].
Proof.
  induction step as [step IH] using bytes_length_ind. intros done Hdone.
  destruct step as [|ch rest].
  - simp resultsLoop. apply Hdone. constructor.
  - rewrite resultsLoop_step.
    destruct (Find edgeCodePattern (ch :: rest)) as [m|] eqn:E;
      [|destruct (Find unitIDPattern (ch :: rest)) as [m|] eqn:E2].
    + (* an edge code and its directions *)
      destruct (directionList _ _) as [d s] eqn:El.
      pose proof (directionList_length (skipn (length m) (ch :: rest)) (done ++ m)) as Hlen.
      rewrite El in Hlen. simpl in Hlen.
      pose proof (skip_match_shorter _ _ m (fun s => s) edgeCodePattern_advances
                    E eq_refl) as Hlt.
      apply directionList_walk in El as (written & -> & Hrest & Hno & Hwalk).
      destruct (Find_head_body edgeCodeBody _ _ edgeCodeBody_noComma E)
        as (mb & -> & Hmb).
      apply IH; [simpl in *; lia|]. intros tail Htail.
      assert (Hall : blankedText (ch :: rest) ((("," :: mb) ++ written) ++ tail)).
      { rewrite (Find_skip _ _ _ edgeCodePattern_advances E) at 1.
        rewrite <- app_assoc. apply Forall2_app; [apply blankedText_refl|].
        eapply blankedText_tail; eauto. }
      destruct (Hdone _ Hall) as [Hd1 Hd2].
      rewrite <- app_assoc.
      split; (apply cleanIn_app; [assumption|]);
        change (("," :: mb) ++ written) with ("," :: mb ++ written);
        (apply cleanIn_cons; [|apply Forall_app; now split]).
      * replace ("," :: (mb ++ written) ++ tail)
          with (("," :: mb) ++ written ++ tail)
          by (simpl; now rewrite app_assoc).
        eapply (cleanAt_found edgeCodeBody); eauto using edgeCodeBody_blind,
          edgeCodeBody_noComma.
      * apply (cleanAt_not_found unitIDBody _ (ch :: rest)
                 ("," :: mb ++ written) tail unitIDBody_blind).
        -- exact (edge_unit_exclusive _ _ E).
        -- exact Hall.
    + (* a unit id and the unit ids behind it *)
      destruct (unitIDList _ _) as [d s] eqn:El.
      pose proof (unitIDList_length (skipn (length m) (ch :: rest)) (done ++ m)) as Hlen.
      rewrite El in Hlen. simpl in Hlen.
      pose proof (skip_match_shorter _ _ m (fun s => s) unitIDPattern_advances
                    E2 eq_refl) as Hlt.
      apply unitIDList_walk in El as (written & -> & Hrest & Hno & Hwalk).
      destruct (Find_head_body unitIDBody _ _ unitIDBody_noComma E2)
        as (mb & -> & Hmb).
      apply IH; [simpl in *; lia|]. intros tail Htail.
      assert (Hall : blankedText (ch :: rest) ((("," :: mb) ++ written) ++ tail)).
      { rewrite (Find_skip _ _ _ unitIDPattern_advances E2) at 1.
        rewrite <- app_assoc. apply Forall2_app; [apply blankedText_refl|].
        eapply blankedText_tail; eauto. }
      destruct (Hdone _ Hall) as [Hd1 Hd2].
      rewrite <- app_assoc.
      split; (apply cleanIn_app; [assumption|]);
        change (("," :: mb) ++ written) with ("," :: mb ++ written);
        (apply cleanIn_cons; [|apply Forall_app; now split]).
      * apply (cleanAt_not_found edgeCodeBody _ (ch :: rest)
                 ("," :: mb ++ written) tail edgeCodeBody_blind);
          [exact E | exact Hall].
      * replace ("," :: (mb ++ written) ++ tail)
          with (("," :: mb) ++ written ++ tail)
          by (simpl; now rewrite app_assoc).
        eapply (cleanAt_found unitIDBody); eauto using unitIDBody_blind,
          unitIDBody_noComma.
    + (* neither: on to the next comma *)
      destruct (toComma (done ++ [ch]) rest) as [d s] eqn:Et.
      pose proof (toComma_length rest (done ++ [ch])) as Hlen.
      rewrite Et in Hlen. simpl in Hlen.
      apply toComma_no_commas in Et as (skipped & -> & -> & Hno).
      apply IH; [simpl; rewrite length_app; lia|]. intros tail Htail.
      assert (Hall : blankedText (ch :: skipped ++ s) ((ch :: skipped) ++ tail)).
      { simpl. constructor; [now left|].
        apply Forall2_app; [apply blankedText_refl | exact Htail]. }
      destruct (Hdone _ Hall) as [Hd1 Hd2].
      rewrite <- app_assoc. change ([ch] ++ skipped) with (ch :: skipped).
      split; (apply cleanIn_app; [assumption|]); (apply cleanIn_cons; [|assumption]).
      * apply (cleanAt_not_found edgeCodeBody _ (ch :: skipped ++ s)
                 (ch :: skipped) tail edgeCodeBody_blind); [exact E | exact Hall].
      * apply (cleanAt_not_found unitIDBody _ (ch :: skipped ++ s)
                 (ch :: skipped) tail unitIDBody_blind); [exact E2 | exact Hall].
Qed.

Lemma scrubStepResults_clean line : clean (scrubStepResults line) [].
Proof.
  unfold scrubStepResults.
  destruct (toComma [] line) as [done step] eqn:Et.
  apply toComma_no_commas in Et as (skipped & -> & -> & Hno). simpl.
  apply resultsLoop_clean. intros tail _.
  split; now apply cleanIn_no_commas.
Qed.



(** ** The entry points *)

Section ParseFacts.

Variable ToLower : bytes -> bytes.
Variable TrimSpace : bytes -> bytes.
Variable isDocx : bytes -> bool.
Variable ReadBuffer : bytes -> bytes * option error.

Lemma ParseText_error input :
  snd (ParseText ToLower TrimSpace input) =
  if looksLikeText input then None else Some (tndocxError ErrUnknownFormat).
Proof. unfold ParseText. destruct (looksLikeText input); reflexivity. Qed.

Lemma errorsIs_refl e : errorsIs e e = true.
Proof. destruct e; simpl; apply String.eqb_refl. Qed.

Lemma ParseSections_error input e :
  snd (ParseSections ToLower TrimSpace isDocx ReadBuffer input) = Some e ->
  e = tndocxError ErrEmptyInput \/ e = tndocxError ErrUnknownFormat
  \/ (isDocx input = true /\ snd (ReadBuffer input) = Some e).
Proof.
  assert (Htext : snd (ParseText ToLower TrimSpace input) = Some e ->
                  e = tndocxError ErrUnknownFormat).
  { rewrite ParseText_error. destruct (looksLikeText input); [discriminate|].
    now intros [= <-]. }
  unfold ParseSections. destruct (length input =? 0)%nat.
  { cbn [snd]. intros [= <-]. now left. }
  unfold ParseDocx. destruct (isDocx input); cbn [negb].
  - destruct (ReadBuffer input) as [text [err|]] eqn:Er; cbn [snd].
    + destruct (errorsIs (tndocxError ErrUnknownFormat) err) eqn:Eis.
      * intros H. right; left. now apply Htext.
      * cbn [snd]. intros [= <-]. right; right. now split.
    + destruct (ParseText ToLower TrimSpace text) as [secs [e'|]] eqn:Ep.
      * pose proof (ParseText_error text) as Ht. rewrite Ep in Ht. cbn [snd] in Ht.
        destruct (looksLikeText text); [discriminate|]. injection Ht as ->.
        rewrite errorsIs_refl. intros H. right; left. now apply Htext.
      * cbn [snd]. discriminate.
  - rewrite errorsIs_refl. intros H. right; left. now apply Htext.
Qed.

End ParseFacts.

Lemma looksLikeText_spec input :
  looksLikeText input = true <->
  4 <= length input
  /\ forall i, i < 3 -> (1 <= code (nth i input zero) <= 127)%N.
Proof.
  unfold looksLikeText, isascii. rewrite !andb_true_iff, Nat.ltb_lt.
  rewrite !N.ltb_lt, !N.leb_le. split.
  - intros [[[Hlen [H0 H0']] [H1 H1']] [H2 H2']]. split; [lia|].
    intros i Hi. destruct i as [|[|[|i]]]; try lia.
  - intros [Hlen H]. pose proof (H 0 ltac:(lia)). pose proof (H 1 ltac:(lia)).
    pose proof (H 2 ltac:(lia)). repeat split; lia.
Qed.

(** C3 (amended). An empty buffer given to ParseSections yields
    ErrEmptyInput and no sections.  ParseText returns ErrUnknownFormat, and
    no sections, exactly when its check fails, that is when the input has
    fewer than four bytes or one of its first three bytes is NUL or above
    127; any other input succeeds with a nil error and the scrubbed sections
    of the lower-cased, compressed text.  ParseSections fails only with
    ErrEmptyInput, ErrUnknownFormat, or the error that docx.ReadBuffer
    reported for a buffer detected as a Word document. *)
Theorem entry_point_errors
    (ToLower TrimSpace : bytes -> bytes) (isDocx : bytes -> bool)
    (ReadBuffer : bytes -> bytes * option error) :
  ParseSections ToLower TrimSpace isDocx ReadBuffer [] =
    ([], Some (tndocxError ErrEmptyInput))
  /\ (forall input,
        looksLikeText input = true <->
        4 <= length input
        /\ forall i, i < 3 -> (1 <= code (nth i input zero) <= 127)%N)
  /\ (forall input,
        looksLikeText input = false <->
        snd (ParseText ToLower TrimSpace input) =
          Some (tndocxError ErrUnknownFormat))
  /\ (forall input,
        looksLikeText input = false ->
        ParseText ToLower TrimSpace input =
          ([], Some (tndocxError ErrUnknownFormat)))
  /\ (forall input,
        looksLikeText input = true ->
        ParseText ToLower TrimSpace input =
          (map (scrubSection TrimSpace)
               (SectionInput (CompressSpaces (ToLower input))), None))
  /\ (forall input e,
        snd (ParseSections ToLower TrimSpace isDocx ReadBuffer input) = Some e ->
        e = tndocxError ErrEmptyInput \/ e = tndocxError ErrUnknownFormat
        \/ (isDocx input = true /\ snd (ReadBuffer input) = Some e)).
Proof.
  split; [reflexivity|]. split; [exact looksLikeText_spec|].
  split; [|split; [|split]].
  - intros input. rewrite ParseText_error.
    destruct (looksLikeText input); split; congruence.
  - intros input H. unfold ParseText. now rewrite H.
  - intros input H. unfold ParseText. now rewrite H.
  - apply ParseSections_error.
Qed.

Lemma entry_point_errors_witness :
  ParseText asciiToLower asciiTrimSpace (B "Tribe 0987,  X") =
  (map (scrubSection asciiTrimSpace)
       (SectionInput (CompressSpaces (asciiToLower (B "Tribe 0987,  X")))), None).
Proof.
  refine (proj1 (proj2 (proj2 (proj2 (proj2
            (entry_point_errors asciiToLower asciiTrimSpace
               (fun _ => false) (fun b => (b, None))))))) (B "Tribe 0987,  X") _).
  reflexivity.
Defined.

(** C3 as stated fails on a text of three bytes: its first three bytes are
    plain ASCII, yet ParseText answers ErrUnknownFormat. *)
Lemma ParseText_three_bytes_unknown_format :
  firstThreeASCII_spec (B "abc") = true
  /\ ParseText asciiToLower asciiTrimSpace (B "abc") =
     ([], Some (tndocxError ErrUnknownFormat)).
Proof. split; reflexivity. Qed.

(** *** The pass that collapses adjacent separators

    What the two patterns of the pass find, stated on the text alone. *)

Fixpoint skipWhile (p : ascii -> bool) (s : bytes) : bytes :=
  match s with
  | ch :: rest => if p ch then skipWhile p rest else s
  | [] => []
  end.

Definition startsWith (p : ascii -> bool) (s : bytes) : Prop :=
  match s with
  | ch :: _ => p ch = true
  | [] => False
  end.

(** The greedy run comes first; every other way of matching [x*] stops in
    front of a byte of the class. *)
Lemma manyFrom_results p s : forall prev caps,
  exists prev' others,
    manyFrom p prev s caps = Cursor prev' (skipWhile p s) caps :: others
    /\ Forall (fun c => startsWith p (c_rest c)) others.
Proof.
  induction s as [|ch rest IH]; intros prev caps; simpl.
  - exists prev, []. split; [reflexivity | constructor].
  - destruct (p ch) eqn:Hp.
    + destruct (IH (Some ch) caps) as (prev' & others & -> & Hothers).
      exists prev', (others ++ [Cursor prev (ch :: rest) caps]).
      split; [reflexivity|]. apply Forall_app. split; [exact Hothers|].
      constructor; [exact Hp | constructor].
    + exists prev, []. split; [reflexivity | constructor].
Qed.

Lemma many1_results p c :
  match c_rest c with
  | ch :: rest =>
    if p ch then
      exists prev' others,
        many1 p c = Cursor prev' (skipWhile p rest) (c_caps c) :: others
        /\ Forall (fun c' => startsWith p (c_rest c')) others
    else many1 p c = []
  | [] => many1 p c = []
  end.
Proof.
  unfold many1, seq, chr. destruct (c_rest c) as [|ch rest]; [reflexivity|].
  destruct (p ch); [|reflexivity].
  cbn [flat_map]. rewrite app_nil_r. unfold many. cbn [c_prev c_rest c_caps].
  apply manyFrom_results.
Qed.

Lemma flat_map_nil (f : cursor -> list cursor) l :
  Forall (fun c => f c = []) l -> flat_map f l = [].
Proof. induction 1 as [|c l Hc _ IH]; simpl; [reflexivity | now rewrite Hc, IH]. Qed.

(** What is left of the text behind the first match of [x+ re] when [re]
    cannot start with a byte of the class [x]. *)
Lemma many1_then p (re : rx) c :
  (forall c', startsWith p (c_rest c') -> re c' = []) ->
  seq (many1 p) re c =
  match c_rest c with
  | ch :: rest =>
    if p ch then
      match many1 p c with
      | first :: _ => re first
      | [] => []
      end
    else []
  | [] => []
  end.
Proof.
  intros Hre. pose proof (many1_results p c) as H. unfold seq at 1.
  destruct (c_rest c) as [|ch rest]; [now rewrite H|].
  destruct (p ch); [|now rewrite H].
  destruct H as (prev' & others & -> & Hothers). cbn [flat_map].
  rewrite (flat_map_nil re others); [apply app_nil_r|].
  eapply Forall_impl; [|exact Hothers]. exact Hre.
Qed.

(** [\\+,+]: the text behind a run of backslashes and the run of commas
    that follows it. *)
Definition afterBackslashComma (s : bytes) : option bytes :=
  match s with
  | ch :: rest =>
    if isBackslash ch then
      match skipWhile isBackslash rest with
      | ch' :: rest' => if isComma ch' then Some (skipWhile isComma rest') else None
      | [] => None
      end
    else None
  | [] => None
  end.

(** [,+\\]: the text behind a run of commas and the backslash that follows
    it. *)
Definition afterCommaBackslash (s : bytes) : option bytes :=
  match s with
  | ch :: rest =>
    if isComma ch then
      match skipWhile isComma rest with
      | ch' :: rest' => if isBackslash ch' then Some rest' else None
      | [] => None
      end
    else None
  | [] => None
  end.

Lemma reBackslashComma_first prev s :
  option_map c_rest (hd_error (reBackslashComma (Cursor prev s []))) =
  afterBackslashComma s.
Proof.
  unfold reBackslashComma. rewrite many1_then.
  2:{ intros c' Hc'. pose proof (many1_results isComma c') as H.
      destruct (c_rest c') as [|ch r]; [exact H|]. simpl in Hc'.
      replace (isComma ch) with false in H; [exact H|].
      unfold isBackslash, isComma in *. apply Ascii.eqb_eq in Hc'. now subst. }
  cbn [c_rest]. unfold afterBackslashComma.
  destruct s as [|ch rest]; [reflexivity|].
  pose proof (many1_results isBackslash (Cursor prev (ch :: rest) [])) as H.
  cbn [c_rest c_caps] in H. destruct (isBackslash ch); [|reflexivity].
  destruct H as (prev' & others & -> & _).
  pose proof (many1_results isComma (Cursor prev' (skipWhile isBackslash rest) [])) as H.
  cbn [c_rest c_caps] in H.
  destruct (skipWhile isBackslash rest) as [|ch' rest']; [now rewrite H|].
  destruct (isComma ch'); [|now rewrite H].
  destruct H as (prev'' & others' & -> & _). reflexivity.
Qed.

Lemma reCommaBackslash_first prev s :
  option_map c_rest (hd_error (reCommaBackslash (Cursor prev s []))) =
  afterCommaBackslash s.
Proof.
  unfold reCommaBackslash. rewrite many1_then.
  2:{ intros c' Hc'. unfold lit, B. cbn [list_ascii_of_string litBytes].
      unfold seq, chr. destruct (c_rest c') as [|ch r]; [reflexivity|].
      simpl in Hc'. unfold isComma in Hc'. apply Ascii.eqb_eq in Hc'. subst ch.
      reflexivity. }
  cbn [c_rest]. unfold afterCommaBackslash.
  destruct s as [|ch rest]; [reflexivity|].
  pose proof (many1_results isComma (Cursor prev (ch :: rest) [])) as H.
  cbn [c_rest c_caps] in H. destruct (isComma ch); [|reflexivity].
  destruct H as (prev' & others & -> & _).
  unfold lit, B. cbn [list_ascii_of_string litBytes]. unfold seq, chr, eps.
  cbn [c_rest c_caps].
  destruct (skipWhile isComma rest) as [|ch' rest']; [reflexivity|].
  unfold isBackslash. rewrite (Ascii.eqb_sym ch' "\").
  destruct (Ascii.eqb "\" ch'); reflexivity.
Qed.

(** [ReplaceAll] with a literal replacement, for a pattern whose first
    match is known from the text. *)
Section LiteralReplace.

Variable re : rx.
Variable after : bytes -> option bytes.
Variable x : bytes.

Hypothesis re_first : forall prev s,
  option_map c_rest (hd_error (re (Cursor prev s []))) = after s.
Hypothesis after_suffix : forall s r,
  after s = Some r -> exists ch m, s = ch :: m ++ r.

Lemma replaceFrom_skip m : forall prev r,
  exists prev',
    replaceFrom re [TText x] prev (m ++ r) (length m) =
    replaceFrom re [TText x] prev' r 0.
Proof.
  induction m as [|a m IH]; intros prev r.
  - exists prev. reflexivity.
  - simpl. apply IH.
Qed.

Lemma replace_found prev s r :
  after s = Some r ->
  exists prev',
    replaceFrom re [TText x] prev s 0 = x ++ replaceFrom re [TText x] prev' r 0.
Proof.
  intros Hafter. destruct (after_suffix _ _ Hafter) as (ch & m & ->).
  pose proof (re_first prev (ch :: m ++ r)) as H. rewrite Hafter in H.
  cbn [replaceFrom].
  destruct (re (Cursor prev (ch :: m ++ r) [])) as [|c l]; [discriminate|].
  simpl in H. injection H as ->.
  replace (length (ch :: m ++ r) - length r) with (S (length m))
    by (cbn [length]; rewrite length_app; lia).
  cbn [expand]. rewrite app_nil_r.
  destruct (replaceFrom_skip m (Some ch) r) as (prev' & ->). now exists prev'.
Qed.

Lemma replace_copied prev ch rest :
  after (ch :: rest) = None ->
  replaceFrom re [TText x] prev (ch :: rest) 0 =
  ch :: replaceFrom re [TText x] (Some ch) rest 0.
Proof.
  intros Hafter. pose proof (re_first prev (ch :: rest)) as H.
  rewrite Hafter in H. cbn [replaceFrom].
  destruct (re (Cursor prev (ch :: rest) [])) as [|c l]; [reflexivity | discriminate].
Qed.

End LiteralReplace.

Lemma skipWhile_suffix p s : exists m, s = m ++ skipWhile p s.
Proof.
  induction s as [|ch rest [m IH]]; [now exists []|]. simpl.
  destruct (p ch); [exists (ch :: m); simpl; now rewrite <- IH | now exists []].
Qed.

Lemma skipWhile_stops p s : ~ startsWith p (skipWhile p s).
Proof.
  induction s as [|ch rest IH]; simpl; [tauto|].
  destruct (p ch) eqn:Hp; [exact IH | simpl; congruence].
Qed.

Lemma afterBackslashComma_suffix s r :
  afterBackslashComma s = Some r -> exists ch m, s = ch :: m ++ r.
Proof.
  destruct s as [|ch rest]; simpl; [discriminate|].
  destruct (isBackslash ch); [|discriminate].
  destruct (skipWhile_suffix isBackslash rest) as (m1 & H1).
  destruct (skipWhile isBackslash rest) as [|ch' rest']; [discriminate|].
  destruct (isComma ch'); [|discriminate]. intros [= <-].
  destruct (skipWhile_suffix isComma rest') as (m2 & H2).
  exists ch, (m1 ++ ch' :: m2). rewrite H1. rewrite H2 at 1.
  now rewrite <- app_assoc.
Qed.

Lemma afterCommaBackslash_suffix s r :
  afterCommaBackslash s = Some r -> exists m, s = m ++ "\" :: r.
Proof.
  destruct s as [|ch rest]; simpl; [discriminate|].
  destruct (isComma ch); [|discriminate].
  destruct (skipWhile_suffix isComma rest) as (m1 & H1).
  destruct (skipWhile isComma rest) as [|ch' rest']; [discriminate|].
  destruct (isBackslash ch') eqn:Hb; [|discriminate]. intros [= <-].
  apply Ascii.eqb_eq in Hb. subst ch'.
  exists (ch :: m1). simpl. now rewrite <- H1.
Qed.

Lemma afterCommaBackslash_suffix' s r :
  afterCommaBackslash s = Some r -> exists ch m, s = ch :: m ++ r.
Proof.
  intros H. destruct (afterCommaBackslash_suffix s r H) as (m & ->).
  destruct m as [|ch m].
  - exists "\", []. reflexivity.
  - exists ch, (m ++ ["\"]). simpl. now rewrite <- app_assoc.
Qed.

Lemma hasPair_suffix a b m r : hasPair a b (m ++ r) = false -> hasPair a b r = false.
Proof.
  induction m as [|ch m IH]; simpl; [auto|].
  intros H. apply orb_false_iff in H as [_ H]. now apply IH.
Qed.

Lemma hasPair_cons_false a b ch out :
  hasPair a b out = false ->
  (ch = a -> hd_error out <> Some b) ->
  hasPair a b (ch :: out) = false.
Proof.
  intros Hout Hhd. cbn [hasPair]. rewrite Hout, orb_false_r.
  destruct (Ascii.eqb_spec ch a) as [->|_]; [|reflexivity].
  destruct out as [|y out']; [reflexivity|]. simpl.
  destruct (Ascii.eqb_spec y b) as [->|_]; [|reflexivity].
  now elim (Hhd eq_refl).
Qed.

(** The first pass leaves no backslash in front of a comma. *)
Lemma replace_backslashComma s : forall prev,
  let out := replaceFrom reBackslashComma backslash prev s 0 in
  hasPair "\" "," out = false
  /\ (hd_error out = Some "," -> hd_error s = Some ",").
Proof.
  induction s as [s IH] using bytes_length_ind. intros prev.
  destruct s as [|ch rest]; [split; [reflexivity | auto]|].
  destruct (afterBackslashComma (ch :: rest)) as [r|] eqn:E.
  - destruct (replace_found _ _ ["\"] reBackslashComma_first
                afterBackslashComma_suffix prev _ _ E) as (prev' & Hout).
    unfold backslash. cbv zeta. rewrite Hout.
    destruct (afterBackslashComma_suffix _ _ E) as (ch0 & m & Hs).
    destruct (IH r) with (prev := prev') as [IH1 IH2].
    { rewrite Hs. simpl. rewrite length_app. lia. }
    split; [|discriminate].
    apply hasPair_cons_false; [exact IH1|]. intros _ Hhd.
    apply IH2 in Hhd. revert E Hhd. simpl.
    destruct (isBackslash ch); [|discriminate].
    destruct (skipWhile isBackslash rest) as [|ch' rest']; [discriminate|].
    destruct (isComma ch'); [|discriminate]. intros [= <-] Hhd.
    apply (skipWhile_stops isComma rest').
    destruct (skipWhile isComma rest') as [|y t]; [discriminate|].
    injection Hhd as ->. reflexivity.
  - unfold backslash. cbv zeta.
    rewrite (replace_copied _ _ ["\"] reBackslashComma_first prev _ _ E).
    destruct (IH rest) with (prev := Some ch) as [IH1 IH2]; [simpl; lia|].
    split; [|intros [= ->]; reflexivity].
    apply hasPair_cons_false; [exact IH1|]. intros -> Hhd.
    apply IH2 in Hhd. destruct rest as [|y rest']; [discriminate|].
    injection Hhd as ->. discriminate E.
Qed.

(** The second pass leaves no comma in front of a backslash, and brings no
    backslash in front of a comma. *)
Lemma replace_commaBackslash s : forall prev,
  hasPair "\" "," s = false ->
  let out := replaceFrom reCommaBackslash backslash prev s 0 in
  hasPair "\" "," out = false
  /\ hasPair "," "\" out = false
  /\ (hd_error out = Some "," ->
      hd_error s = Some "," /\ afterCommaBackslash s = None)
  /\ (hd_error out = Some "\" ->
      hd_error s = Some "\" \/ afterCommaBackslash s <> None).
Proof.
  induction s as [s IH] using bytes_length_ind. intros prev Hs.
  destruct s as [|ch rest].
  { split; [|split; [|split]]; try reflexivity; discriminate. }
  destruct (afterCommaBackslash (ch :: rest)) as [r|] eqn:E.
  - destruct (replace_found _ _ ["\"] reCommaBackslash_first
                afterCommaBackslash_suffix' prev _ _ E) as (prev' & Hout).
    unfold backslash. cbv zeta. rewrite Hout.
    destruct (afterCommaBackslash_suffix _ _ E) as (m & Hm).
    assert (Hr : hasPair "\" "," ("\" :: r) = false).
    { apply (hasPair_suffix _ _ m). now rewrite <- Hm. }
    destruct (IH r) with (prev := prev') as (IH1 & IH2 & IH3 & IH4).
    { rewrite Hm, length_app. simpl. lia. }
    { now apply (hasPair_suffix _ _ ["\"]). }
    split; [|split; [|split]].
    + apply hasPair_cons_false; [exact IH1|]. intros _ Hhd.
      apply IH3 in Hhd as [Hhd _]. destruct r as [|y r']; [discriminate|].
      injection Hhd as ->. discriminate Hr.
    + apply hasPair_cons_false; [exact IH2 | discriminate].
    + discriminate.
    + intros _. right. discriminate.
  - unfold backslash. cbv zeta.
    rewrite (replace_copied _ _ ["\"] reCommaBackslash_first prev _ _ E).
    assert (Hrest : hasPair "\" "," rest = false)
      by now apply (hasPair_suffix _ _ [ch]).
    destruct (IH rest) with (prev := Some ch) as (IH1 & IH2 & IH3 & IH4);
      [simpl; lia | exact Hrest |].
    split; [|split; [|split]].
    + apply hasPair_cons_false; [exact IH1|]. intros -> Hhd.
      apply IH3 in Hhd as [Hhd _]. destruct rest as [|y rest']; [discriminate|].
      injection Hhd as ->. discriminate Hs.
    + apply hasPair_cons_false; [exact IH2|]. intros -> Hhd.
      apply IH4 in Hhd. revert E. simpl.
      destruct Hhd as [Hhd|Hhd].
      * destruct rest as [|y rest']; [discriminate|]. injection Hhd as ->.
        discriminate.
      * destruct rest as [|y rest']; [now elim Hhd|]. simpl in Hhd. simpl.
        destruct (isComma y); [|now elim Hhd].
        destruct (skipWhile isComma rest') as [|z t]; [now elim Hhd|].
        destruct (isBackslash z); [discriminate | now elim Hhd].
    + intros [= ->]. split; reflexivity.
    + intros [= ->]. now left.
Qed.

(** The pass of the current PreProcessMovementLine and of the scrubbers:
    afterwards no backslash and comma are adjacent, in either order. *)
Lemma collapseSeparators_no_pair line :
  hasPair "\" "," (collapseSeparators line) = false
  /\ hasPair "," "\" (collapseSeparators line) = false.
Proof.
  unfold collapseSeparators, ReplaceAll.
  destruct (replace_backslashComma line None) as [H1 _].
  destruct (replace_commaBackslash _ None H1) as (H2 & H3 & _).
  split; assumption.
Qed.

(** ** PreProcessMovementLine *)

(** C8. The pass that collapses adjacent separators in the scrubbers of
    parse.go and in the PreProcessMovementLine declared beside SectionInput
    leaves, on every line, no backslash next to a comma in either order.
    The PreProcessMovementLine of filters.go has no pass for a backslash
    followed by a comma: on the line below the pair survives its pass and
    the whole function, where the others put a single backslash; a comma
    followed by a backslash is collapsed by all of them. *)
Theorem FiltersGo_keeps_backslash_comma :
  (forall line,
      hasPair "\" "," (collapseSeparators line) = false
      /\ hasPair "," "\" (collapseSeparators line) = false)
  /\ hasPair "\" "," (FiltersGo.collapseSeparators (B "move n-pr\,s-pr")) = true
  /\ FiltersGo.PreProcessMovementLine (B "move n-pr\,s-pr") = B "move n-pr\,s-pr"
  /\ PreProcessMovementLine (B "move n-pr\,s-pr") = B "move n-pr\s-pr"
  /\ scrubMovementLine (B "move n-pr\,s-pr") = B "move n-pr\s-pr"
  /\ scrubFleetLine (B "move n-pr\,s-pr") = B "move n-pr\s-pr"
  /\ FiltersGo.PreProcessMovementLine (B "move n-pr,\s-pr") = B "move n-pr\s-pr"
  /\ PreProcessMovementLine (B "move n-pr,\s-pr") = B "move n-pr\s-pr".
Proof.
  split; [exact collapseSeparators_no_pair|].
  repeat split; vm_compute; reflexivity.
Qed.

(** * Further properties of the package *)

(** ** ScrubEOL *)

Lemma ScrubEOL_loop input : ScrubEOL input = scrubEOLLoop input [].
Proof. destruct input; reflexivity. Qed.

#[local] Arguments ScrubEOL : simpl never.

Lemma scrubEOLLoop_output input : forall output,
  scrubEOLLoop input output = output ++ scrubEOLLoop input [].
Proof.
  induction input as [input IH] using bytes_length_ind. intros output.
  destruct input as [|ch rest]; [simpl; now rewrite app_nil_r|].
  cbn [scrubEOLLoop]. destruct (Ascii.eqb ch CR).
  - destruct rest as [|ch' rest'].
    + reflexivity.
    + destruct (Ascii.eqb ch' LF).
      * rewrite (IH rest') by (simpl; lia).
        rewrite (IH rest' ltac:(simpl; lia) ([] ++ [LF])).
        now rewrite <- !app_assoc.
      * rewrite (IH (ch' :: rest')) by (simpl; lia).
        rewrite (IH (ch' :: rest') ltac:(simpl; lia) ([] ++ [LF])).
        now rewrite <- !app_assoc.
  - rewrite (IH rest) by (simpl; lia).
    rewrite (IH rest ltac:(simpl; lia) ([] ++ [ch])).
    now rewrite <- !app_assoc.
Qed.

(** The three cases of the loop, on the function itself. *)
Lemma ScrubEOL_byte ch rest :
  Ascii.eqb ch CR = false -> ScrubEOL (ch :: rest) = ch :: ScrubEOL rest.
Proof.
  intros H. rewrite !ScrubEOL_loop. cbn [scrubEOLLoop]. rewrite H.
  now rewrite scrubEOLLoop_output.
Qed.

Lemma ScrubEOL_CRLF rest : ScrubEOL (CR :: LF :: rest) = LF :: ScrubEOL rest.
Proof.
  rewrite !ScrubEOL_loop. cbn [scrubEOLLoop].
  change (Ascii.eqb CR CR) with true. change (Ascii.eqb LF LF) with true.
  cbv iota. now rewrite scrubEOLLoop_output.
Qed.

Lemma ScrubEOL_CR rest :
  hd_error rest <> Some LF -> ScrubEOL (CR :: rest) = LF :: ScrubEOL rest.
Proof.
  intros H. rewrite !ScrubEOL_loop. cbn [scrubEOLLoop].
  change (Ascii.eqb CR CR) with true. cbv iota.
  destruct rest as [|ch' rest']; [reflexivity|].
  destruct (Ascii.eqb_spec ch' LF) as [->|_]; [now elim H|].
  now rewrite scrubEOLLoop_output.
Qed.

(** Case analysis on the head of the input, as the loop makes it. *)
Lemma ScrubEOL_cases (P : bytes -> Prop) :
  P [] ->
  (forall ch rest, Ascii.eqb ch CR = false -> P rest -> P (ch :: rest)) ->
  (forall rest, P rest -> P (CR :: LF :: rest)) ->
  (forall rest, hd_error rest <> Some LF -> P rest -> P (CR :: rest)) ->
  forall input, P input.
Proof.
  intros Hnil Hbyte Hcrlf Hcr input.
  induction input as [input IH] using bytes_length_ind.
  destruct input as [|ch rest]; [exact Hnil|].
  destruct (Ascii.eqb_spec ch CR) as [->|Hne].
  - destruct rest as [|ch' rest'].
    + apply Hcr; [discriminate | exact Hnil].
    + destruct (Ascii.eqb_spec ch' LF) as [->|Hne'].
      * apply Hcrlf. apply IH. simpl. lia.
      * apply Hcr; [intros [= E]; now elim Hne' | apply IH; simpl; lia].
  - apply Hbyte; [now apply Ascii.eqb_neq | apply IH; simpl; lia].
Qed.

(** X1. The output of [ScrubEOL] holds no carriage return, and it is never
    longer than the input. *)
Theorem ScrubEOL_no_CR (input : bytes) :
  ~ In CR (ScrubEOL input) /\ length (ScrubEOL input) <= length input.
Proof.
  induction input as [|ch rest Hch [IH1 IH2]|rest [IH1 IH2]|rest Hlf [IH1 IH2]]
    using ScrubEOL_cases.
  - split; [intros [] | reflexivity].
  - rewrite ScrubEOL_byte by assumption. split; [|simpl; lia].
    intros [E|H]; [|now apply IH1]. subst ch. discriminate Hch.
  - rewrite ScrubEOL_CRLF. split; [|simpl; lia].
    intros [E|H]; [discriminate E | now apply IH1].
  - rewrite ScrubEOL_CR by assumption. split; [|simpl; lia].
    intros [E|H]; [discriminate E | now apply IH1].
Qed.

Lemma ScrubEOL_without_CR input : ~ In CR input -> ScrubEOL input = input.
Proof.
  induction input as [|ch rest IH]; intros H; [reflexivity|].
  rewrite ScrubEOL_byte.
  - f_equal. apply IH. intros Hin. apply H. now right.
  - apply Ascii.eqb_neq. intros ->. apply H. now left.
Qed.

(** X2. [ScrubEOL] leaves a buffer as it is exactly when the buffer holds
    no carriage return; applied twice it gives what it gives once. *)
Theorem ScrubEOL_fixed_points (input : bytes) :
  (ScrubEOL input = input <-> ~ In CR input)
  /\ ScrubEOL (ScrubEOL input) = ScrubEOL input.
Proof.
  assert (Hno : forall x, ~ In CR (ScrubEOL x)).
  { intros x. clear. 
    induction x as [|ch rest Hch IH|rest IH|rest Hlf IH] using ScrubEOL_cases.
    - intros [].
    - rewrite ScrubEOL_byte by assumption.
      intros [E|H]; [|now apply IH]. subst ch. discriminate Hch.
    - rewrite ScrubEOL_CRLF. intros [E|H]; [discriminate E | now apply IH].
    - rewrite ScrubEOL_CR by assumption.
      intros [E|H]; [discriminate E | now apply IH]. }
  split; [split|].
  - intros E. rewrite <- E. apply Hno.
  - apply ScrubEOL_without_CR.
  - apply ScrubEOL_without_CR, Hno.
Qed.

Lemma ScrubEOL_app_seam a : forall b,
  seamSplitsCRLF a b = false ->
  ScrubEOL (a ++ b) = ScrubEOL a ++ ScrubEOL b.
Proof.
  induction a as [|ch rest Hch IH|rest IH|rest Hlf IH] using ScrubEOL_cases;
    intros b Hseam.
  - reflexivity.
  - simpl app. rewrite !ScrubEOL_byte by assumption. simpl. f_equal.
    apply IH. revert Hseam. unfold seamSplitsCRLF.
    destruct rest as [|c r]; [|exact (fun H => H)].
    simpl. destruct b; [reflexivity|]. now rewrite Hch.
  - simpl app. rewrite !ScrubEOL_CRLF. simpl. f_equal.
    apply IH. revert Hseam. unfold seamSplitsCRLF.
    destruct rest as [|c r]; [|exact (fun H => H)].
    simpl. destruct b; reflexivity.
  - simpl app. destruct rest as [|c r].
    + simpl app. unfold seamSplitsCRLF in Hseam. simpl in Hseam.
      apply ScrubEOL_CR. destruct b as [|y b']; [discriminate|].
      simpl. intros [= ->]. discriminate Hseam.
    + rewrite !ScrubEOL_CR.
      * simpl. f_equal. apply (IH b). exact Hseam.
      * exact Hlf.
      * simpl. simpl in Hlf. exact Hlf.
Qed.

(** X3. [ScrubEOL] works piece by piece: unless the cut falls between a CR
    and the LF that follows it, scrubbing a concatenation is concatenating
    the scrubbed pieces.  So a CR LF pair and a CR alone count alike: each
    puts one LF between what precedes and what follows. *)
Theorem ScrubEOL_concatenation (a b : bytes) :
  (seamSplitsCRLF a b = false ->
   ScrubEOL (a ++ b) = ScrubEOL a ++ ScrubEOL b)
  /\ ScrubEOL (a ++ CR :: LF :: b) = ScrubEOL a ++ LF :: ScrubEOL b
  /\ (hd_error b <> Some LF ->
      ScrubEOL (a ++ CR :: b) = ScrubEOL a ++ LF :: ScrubEOL b).
Proof.
  assert (Hseam : forall rest, seamSplitsCRLF a (CR :: rest) = false).
  { intros rest. unfold seamSplitsCRLF. destruct (lastByte a); [|reflexivity].
    change (Ascii.eqb CR LF) with false. apply andb_false_r. }
  split; [apply ScrubEOL_app_seam|]. split.
  - rewrite ScrubEOL_app_seam by apply Hseam. now rewrite ScrubEOL_CRLF.
  - intros Hb. rewrite ScrubEOL_app_seam by apply Hseam.
    now rewrite ScrubEOL_CR.
Qed.

Lemma ScrubEOL_concatenation_witness :
  ScrubEOL (B "a" ++ CR :: B "b") = ScrubEOL (B "a") ++ LF :: ScrubEOL (B "b").
Proof.
  apply (proj2 (proj2 (ScrubEOL_concatenation (B "a") (B "b")))).
  discriminate.
Defined.

(** ** CompressSpaces: what it keeps and what it leaves *)

Lemma filter_skipBlanks rest :
  filter (fun ch => negb (isBlank ch)) (skipBlanks rest) =
  filter (fun ch => negb (isBlank ch)) rest.
Proof.
  induction rest as [|ch rest IH]; [reflexivity|]. simpl.
  destruct (isBlank ch) eqn:Hch; simpl; [exact IH | now rewrite Hch].
Qed.

Lemma compressLoop_keeps input : forall prev,
  filter (fun ch => negb (isBlank ch)) (compressLoop input prev []) =
  filter (fun ch => negb (isBlank ch)) input
  /\ length (compressLoop input prev []) <= length input.
Proof.
  induction input as [input IH] using bytes_length_ind. intros prev.
  destruct input as [|ch rest]; [simp compressLoop; split; reflexivity|].
  pose proof (skipBlanks_length rest) as Hlen.
  destruct (isBlank ch) eqn:Hch.
  - rewrite compressLoop_blank by assumption.
    destruct (IH (skipBlanks rest) ltac:(simpl; lia) prev) as [IH1 IH2].
    cbn [filter]. rewrite Hch. cbn [negb].
    destruct (prev || nextCharIsDelimiter (skipBlanks rest)).
    + rewrite IH1, filter_skipBlanks. split; [reflexivity | simpl; lia].
    + rewrite compressLoop_output, filter_app, length_app, IH1, filter_skipBlanks.
      split; [reflexivity | simpl; lia].
  - rewrite compressLoop_char by assumption.
    destruct (IH rest ltac:(simpl; lia) (isSpaceDelimiter ch)) as [IH1 IH2].
    rewrite compressLoop_output, filter_app, length_app, IH1.
    cbn [filter app]. rewrite Hch. split; [reflexivity | simpl; lia].
Qed.

(** X4. [CompressSpaces] only ever removes spaces and tabs or turns a tab
    into a space: the bytes that are neither come out unchanged and in the
    same order, and the output is never longer than the input. *)
Theorem CompressSpaces_keeps_text (input : bytes) :
  filter (fun ch => negb (isBlank ch)) (CompressSpaces input) =
  filter (fun ch => negb (isBlank ch)) input
  /\ length (CompressSpaces input) <= length input.
Proof. rewrite CompressSpaces_loop. apply compressLoop_keeps. Qed.

Lemma lastByte_last (l : bytes) ch : lastByte (l ++ [ch]) = Some ch.
Proof.
  induction l as [|x l IH]; [reflexivity|].
  destruct l as [|y l]; [reflexivity|].
  change (lastByte ((x :: y :: l) ++ [ch])) with (lastByte ((y :: l) ++ [ch])).
  exact IH.
Qed.

(** The spaces of the output, for any value of the flag the loop starts
    with. *)
Lemma compressLoop_shape input : forall prev,
  (forall pre post,
      compressLoop input prev [] = pre ++ SP :: post ->
      (exists ch post', post = ch :: post' /\ ordinaryByte ch = true)
      /\ match lastByte pre with
         | Some ch => ordinaryByte ch = true
         | None => prev = false
         end)
  /\ ~ In TAB (compressLoop input prev []).
Proof.
  induction input as [input IH] using bytes_length_ind. intros prev.
  destruct input as [|ch rest].
  { simp compressLoop. split; [|intros []].
    intros [|? ?] post H; discriminate H. }
  pose proof (skipBlanks_length rest) as Hlen.
  destruct (isBlank ch) eqn:Hch.
  - rewrite compressLoop_blank by assumption.
    destruct (prev || nextCharIsDelimiter (skipBlanks rest)) eqn:Hdrop.
    + apply IH. simpl. lia.
    + apply orb_false_iff in Hdrop as [-> Hnext].
      pose proof (skipBlanks_head rest) as Hhead.
      destruct (skipBlanks rest) as [|d more] eqn:Hrest; [discriminate|].
      simpl in Hnext.
      assert (Hd : ordinaryByte d = true)
        by (unfold ordinaryByte; now rewrite Hhead, Hnext).
      destruct (IH (d :: more) ltac:(simpl in *; lia) false) as [IH1 IH2].
      rewrite compressLoop_output. cbn [app].
      assert (HX : compressLoop (d :: more) false [] =
                   d :: compressLoop more (isSpaceDelimiter d) []).
      { rewrite compressLoop_char by assumption. now rewrite compressLoop_output. }
      split.
      * intros pre post H. destruct pre as [|x pre'].
        -- injection H as <-. rewrite HX.
           split; [exists d, (compressLoop more (isSpaceDelimiter d) []); now split | reflexivity].
        -- injection H as <- H.
           destruct (IH1 pre' post H) as [Hr Hl]. split; [exact Hr|].
           destruct pre' as [|y pre''].
           ++ rewrite HX in H. injection H as -> _. discriminate Hd.
           ++ change (lastByte (SP :: y :: pre'')) with (lastByte (y :: pre'')).
              destruct (lastByte (y :: pre'')) eqn:Hlast; [exact Hl|].
              apply lastByte_None in Hlast. discriminate Hlast.
      * intros [E|H]; [discriminate E | now apply IH2].
  - rewrite compressLoop_char by assumption.
    destruct (IH rest ltac:(simpl; lia) (isSpaceDelimiter ch)) as [IH1 IH2].
    rewrite compressLoop_output. cbn [app]. split.
    + intros pre post H. destruct pre as [|x pre'].
      * injection H as -> _. discriminate Hch.
      * injection H as <- H.
        destruct (IH1 pre' post H) as [Hr Hl]. split; [exact Hr|].
        destruct pre' as [|y pre''].
        -- simpl in Hl. simpl. unfold ordinaryByte. now rewrite Hch, Hl.
        -- change (lastByte (ch :: y :: pre'')) with (lastByte (y :: pre'')).
           destruct (lastByte (y :: pre'')) eqn:Hlast; [exact Hl|].
           apply lastByte_None in Hlast. discriminate Hlast.
    + intros [E|H]; [|now apply IH2]. subst ch. discriminate Hch.
Qed.

(** X5. In the output of [CompressSpaces] there is no tab, and every space
    is significant: the byte after it is neither a blank nor a delimiter,
    and so is the byte before it, unless the space is the first byte of the
    output.  In particular no two spaces are adjacent, no space touches a
    delimiter and the output does not end with a space. *)
Theorem CompressSpaces_spaces_are_significant (input pre post : bytes) :
  ~ In TAB (CompressSpaces input)
  /\ (CompressSpaces input = pre ++ SP :: post ->
      (exists ch post', post = ch :: post' /\ ordinaryByte ch = true)
      /\ (pre = [] \/
          exists pre' ch, pre = pre' ++ [ch] /\ ordinaryByte ch = true)).
Proof.
  rewrite CompressSpaces_loop.
  destruct (compressLoop_shape input false) as [H1 H2].
  split; [exact H2|]. intros H. destruct (H1 pre post H) as [Hr Hl].
  split; [exact Hr|].
  destruct pre as [|x pre']; [now left|]. right.
  destruct (exists_last (l := x :: pre') ltac:(discriminate)) as (pre'' & ch & E).
  exists pre'', ch. split; [exact E|].
  rewrite E, lastByte_last in Hl. exact Hl.
Qed.

Lemma CompressSpaces_spaces_witness :
  CompressSpaces (B "a  b") = B "a" ++ SP :: B "b"
  /\ exists ch post', B "b" = ch :: post' /\ ordinaryByte ch = true.
Proof.
  split; [reflexivity|].
  apply (proj2 (CompressSpaces_spaces_are_significant
                  (B "a  b") (B "a") (B "b"))).
  reflexivity.
Defined.

(** ** RemoveNonMappingLines and the section splitter *)

Lemma store_unchanged p f sections :
  (forall s, f s = s) -> store p f sections = sections.
Proof.
  intros Hf. revert p.
  induction sections as [|s rest IH]; intros [|p]; simpl; auto.
  - now rewrite Hf.
  - now rewrite IH.
Qed.

(** The lines [RemoveNonMappingLines] keeps. *)
Definition isMappingLine (line : bytes) : bool :=
  if IsUnitHeader line then true
  else if IsTurnHeader line then true
  else if IsMovementLine line then true
  else if IsUnitStatus line then true
  else false.

(** A line that is dropped leaves the state of the splitter as it is. *)
Lemma sectionStep_dropped st line :
  isMappingLine line = false -> sectionStep st line = st.
Proof.
  intros H. destruct st as [sections section]. unfold sectionStep.
  destruct (length line =? 0)%nat; [reflexivity|].
  unfold isMappingLine, IsMovementLine in H.
  destruct (IsUnitHeader line); [discriminate|].
  destruct section as [p|]; [|reflexivity].
  rewrite store_unchanged; [reflexivity|].
  intros s. unfold assignLine.
  destruct (IsTurnHeader line); [discriminate|].
  destruct (IsTribeMovement line); [discriminate|].
  destruct (IsTribeFollows line); [discriminate|].
  destruct (IsTribeGoesTo line); [discriminate|].
  destruct (IsScoutLine line); [discriminate|].
  destruct (IsFleetMovement line); [discriminate|].
  destruct (IsUnitStatus line); [discriminate|].
  reflexivity.
Qed.

Lemma fold_sectionStep_filtered lines : forall st,
  fold_left sectionStep (filter isMappingLine lines) st =
  fold_left sectionStep lines st.
Proof.
  induction lines as [|line lines IH]; intros st; [reflexivity|].
  cbn [filter fold_left]. destruct (isMappingLine line) eqn:H.
  - cbn [fold_left]. apply IH.
  - rewrite sectionStep_dropped by assumption. apply IH.
Qed.

(** X6. [RemoveNonMappingLines] keeps exactly the lines that have a kind,
    in their order, and the lines it drops are lines the section splitter
    ignores: splitting the filtered lines into sections gives the same
    sections as splitting all of them. *)
Theorem RemoveNonMappingLines_keeps_sections (lines : list bytes) :
  RemoveNonMappingLines lines =
  filter (fun line => negb (kindsOf line =? 0)%nat) lines
  /\ sectionLines (RemoveNonMappingLines lines) = sectionLines lines.
Proof.
  split.
  - unfold RemoveNonMappingLines. apply filter_ext. intros line.
    unfold kindsOf, kindPredicates, IsMovementLine. cbn [filter].
    destruct (IsUnitHeader line), (IsTurnHeader line), (IsFleetMovement line),
      (IsTribeFollows line), (IsTribeGoesTo line), (IsTribeMovement line),
      (IsScoutLine line), (IsUnitStatus line); reflexivity.
  - unfold sectionLines, RemoveNonMappingLines.
    change (fun line : bytes => if IsUnitHeader line then true
              else if IsTurnHeader line then true
              else if IsMovementLine line then true
              else if IsUnitStatus line then true else false)
      with isMappingLine.
    now rewrite fold_sectionStep_filtered.
Qed.

(** ** The classifier of filters.go *)

(** A pattern that matches wherever another does. *)
Definition Weaker (re re' : rx) : Prop :=
  forall c c', In c' (re c) -> exists c'', In c'' (re' c).

Lemma Weaker_refl re : Weaker re re.
Proof. intros c c' H. now exists c'. Qed.

Lemma Weaker_seq a b b' : Weaker b b' -> Weaker (seq a b) (seq a b').
Proof.
  intros Hb c c'' H. apply In_seq in H as (c' & H1 & H2).
  destruct (Hb _ _ H2) as (c3 & H3). exists c3. apply In_seq. now exists c'.
Qed.

Lemma Weaker_Match re re' b : Weaker re re' -> Match re b = true -> Match re' b = true.
Proof.
  intros Hw H. apply Match_true in H as (c & H). apply Match_true.
  exact (Hw _ _ H).
Qed.

Lemma litBytes_app s t : forall c c',
  In c' (litBytes (s ++ t) c) -> exists c1, In c1 (litBytes s c).
Proof.
  induction s as [|ch s IH]; intros c c' H.
  - exists c. now left.
  - cbn [app litBytes] in *. apply In_seq in H as (c1 & H1 & H2).
    destruct (IH _ _ H2) as (c2 & H3). exists c2. apply In_seq. now exists c1.
Qed.

Lemma Weaker_lit_app s t : Weaker (litBytes (s ++ t)) (litBytes s).
Proof. intros c c'. apply litBytes_app. Qed.

Lemma manyFrom_here p s prev caps : In (Cursor prev s caps) (manyFrom p prev s caps).
Proof.
  destruct s as [|ch rest]; simpl; [now left|].
  destruct (p ch); [apply in_or_app; right|]; now left.
Qed.

(** One or two bytes of a class are a way of matching one or more. *)
Lemma Weaker_one_or_two p re :
  Weaker (seq (chr p) (seq (opt (chr p)) re)) (seq (many1 p) re).
Proof.
  intros c c4 H. apply In_seq in H as (c1 & H1 & H).
  apply In_seq in H as (c2 & H2 & H3).
  exists c4. apply In_seq. exists c2. split; [|exact H3].
  unfold many1. apply In_seq. exists c1. split; [exact H1|].
  apply In_chr in H1 as (ch & rest & Hrest & Hp & ->).
  unfold many. cbn [c_prev c_rest c_caps].
  apply In_alt in H2 as [H2|[<-|[]]]; [|apply manyFrom_here].
  apply In_chr in H2 as (ch' & rest' & Hrest' & Hp' & ->).
  cbn [c_rest c_caps] in *. subst rest. cbn [manyFrom]. rewrite Hp'.
  apply in_or_app. left. apply manyFrom_here.
Qed.

Lemma FiltersGo_fleet_weaker : Weaker FiltersGo.rxFleetMovement rxFleetMovement.
Proof.
  unfold FiltersGo.rxFleetMovement, rxFleetMovement.
  do 3 apply Weaker_seq.
  exact (Weaker_lit_app (B " fleet movement:") (B " move")).
Qed.

Lemma FiltersGo_scout_weaker : Weaker FiltersGo.rxScoutMovement rxScoutLine.
Proof.
  unfold FiltersGo.rxScoutMovement, rxScoutLine.
  do 2 apply Weaker_seq. exact (Weaker_lit_app (B ":") (B " scout")).
Qed.

Lemma FiltersGo_turn_weaker : Weaker FiltersGo.rxTurnHeader rxTurnHeader.
Proof.
  unfold FiltersGo.rxTurnHeader, rxTurnHeader.
  do 7 apply Weaker_seq. apply Weaker_one_or_two.
Qed.

Lemma FiltersGo_mapping_line line :
  (if IsUnitHeader line then true
   else if FiltersGo.IsTurnHeader line then true
   else if FiltersGo.IsMovementLine line then true
   else if IsUnitStatus line then true else false) = true ->
  isMappingLine line = true.
Proof.
  unfold isMappingLine, FiltersGo.IsMovementLine, IsMovementLine,
    FiltersGo.IsUnitMovement, IsTribeMovement, IsTribeFollows, IsTribeGoesTo.
  pose proof (Weaker_Match _ _ line FiltersGo_fleet_weaker) as Hf.
  pose proof (Weaker_Match _ _ line FiltersGo_scout_weaker) as Hs.
  pose proof (Weaker_Match _ _ line FiltersGo_turn_weaker) as Ht.
  fold (FiltersGo.IsFleetMovement line) (IsFleetMovement line) in Hf.
  fold (FiltersGo.IsScoutMovement line) (IsScoutLine line) in Hs.
  fold (FiltersGo.IsTurnHeader line) (IsTurnHeader line) in Ht.
  destruct (IsUnitHeader line); [reflexivity|].
  destruct (FiltersGo.IsTurnHeader line); [now rewrite Ht|].
  destruct (FiltersGo.IsScoutMovement line); [rewrite Hs by reflexivity|];
  destruct (FiltersGo.IsFleetMovement line); try rewrite Hf by reflexivity;
  destruct (IsTurnHeader line), (HasPrefix line (B "tribe movement:")),
    (HasPrefix line (B "tribe follows ")), (HasPrefix line (B "tribe goes to ")),
    (IsScoutLine line), (IsFleetMovement line), (IsUnitStatus line);
  simpl; congruence.
Qed.

(** X7. The classifier of filters.go is the stricter one: a line it takes
    for a fleet movement, a scout movement or a turn header is one for the
    classifier declared beside [SectionInput] too, its unit movements are
    the tribe movement, follows and goes-to lines, and so its
    [RemoveNonMappingLines] keeps only lines the other one keeps. *)
Theorem FiltersGo_classifier_is_stricter (line : bytes) (lines : list bytes) :
  (FiltersGo.IsFleetMovement line = true -> IsFleetMovement line = true)
  /\ (FiltersGo.IsScoutMovement line = true -> IsScoutLine line = true)
  /\ (FiltersGo.IsTurnHeader line = true -> IsTurnHeader line = true)
  /\ FiltersGo.IsUnitMovement line =
     IsTribeMovement line || IsTribeFollows line || IsTribeGoesTo line
  /\ FiltersGo.RemoveNonMappingLines (RemoveNonMappingLines lines) =
     FiltersGo.RemoveNonMappingLines lines.
Proof.
  split; [exact (Weaker_Match _ _ line FiltersGo_fleet_weaker)|].
  split; [exact (Weaker_Match _ _ line FiltersGo_scout_weaker)|].
  split; [exact (Weaker_Match _ _ line FiltersGo_turn_weaker)|].
  split; [reflexivity|].
  unfold FiltersGo.RemoveNonMappingLines, RemoveNonMappingLines.
  induction lines as [|l lines IH]; [reflexivity|].
  cbn [filter]. fold (isMappingLine l).
  destruct (isMappingLine l) eqn:Hkeep.
  - cbn [filter]. now rewrite IH.
  - rewrite IH.
    destruct (if IsUnitHeader l then true
              else if FiltersGo.IsTurnHeader l then true
              else if FiltersGo.IsMovementLine l then true
              else if IsUnitStatus l then true else false) eqn:Hold;
      [|reflexivity].
    apply FiltersGo_mapping_line in Hold. congruence.
Qed.

Lemma FiltersGo_classifier_witness :
  IsScoutLine (B "scout 1: scout n-pr") = true.
Proof.
  apply (proj1 (proj2 (FiltersGo_classifier_is_stricter
                         (B "scout 1: scout n-pr") []))).
  reflexivity.
Defined.

(** *** filters.go: the classifier on compressed text *)

(** The first piece of [Split] opens the text, and every piece is a part
    of it. *)
Lemma Split_head s : exists line lines tail,
  Split s = line :: lines /\ s = line ++ tail.
Proof.
  induction s as [|ch rest (line & lines & tail & E & Hs)].
  - now exists [], [], [].
  - cbn [Split]. destruct (Ascii.eqb ch LF).
    + now exists [], (Split rest), (ch :: rest).
    + rewrite E. exists (ch :: line), lines, tail. now rewrite Hs at 1.
Qed.

Lemma Split_part s : forall line,
  In line (Split s) -> exists pre post, s = pre ++ line ++ post.
Proof.
  induction s as [|ch rest IH]; intros line H.
  - destruct H as [<-|[]]. now exists [], [].
  - cbn [Split] in H. destruct (Ascii.eqb ch LF).
    + destruct H as [<-|H]; [now exists [], (ch :: rest)|].
      destruct (IH _ H) as (pre & post & ->). now exists (ch :: pre), post.
    + destruct (Split_head rest) as (l0 & ls & tail & E & Hs).
      rewrite E in H, IH. destruct H as [<-|H].
      * exists [], tail. now rewrite Hs at 1.
      * destruct (IH line (or_intror H)) as (pre & post & ->).
        now exists (ch :: pre), post.
Qed.

(** No delimiter of the compressed text has a space after it. *)
Lemma CompressSpaces_delimiter_space x pre d post :
  CompressSpaces x = pre ++ d :: SP :: post -> isSpaceDelimiter d = false.
Proof.
  intros H. rewrite CompressSpaces_loop in H.
  destruct (compressLoop_shape x false) as [Hshape _].
  destruct (Hshape (pre ++ [d]) post) as [_ Hl].
  { now rewrite <- app_assoc. }
  rewrite lastByte_last in Hl. unfold ordinaryByte in Hl.
  apply andb_true_iff in Hl as [_ Hl]. now apply negb_true_iff in Hl.
Qed.

Lemma FiltersGo_scout_text line :
  FiltersGo.IsScoutMovement line = true ->
  exists d tail, line = B "scout " ++ d :: ":" :: SP :: B "scout" ++ tail.
Proof.
  intros H. apply Match_true in H as (c & H).
  apply In_seq in H as (c1 & H1 & H). apply In_seq in H as (c2 & H2 & H3).
  apply In_litBytes in H1. apply In_litBytes in H3.
  apply In_chr in H2 as (d & rest & Hrest & _ & ->).
  cbn [c_rest startOf] in *. exists d, (c_rest c).
  now rewrite H1, Hrest, H3.
Qed.

Lemma FiltersGo_fleet_text line :
  FiltersGo.IsFleetMovement line = true ->
  exists pre tail, line = pre ++ B " fleet movement" ++ ":" :: SP :: B "move" ++ tail.
Proof.
  intros H. apply Match_true in H as (c & H).
  apply In_seq in H as (c1 & H1 & H). apply In_seq in H as (c2 & H2 & H).
  apply In_seq in H as (c3 & H3 & H4).
  assert (Hpre : Consumes
            (group 1 (lit "calm" <|> lit "mild" <|> lit "strong" <|> lit "gale")
             ;; lit " "
             ;; group 2 (lit "ne" <|> lit "se" <|> lit "sw" <|> lit "nw"
                         <|> lit "n" <|> lit "s"))%rx)
    by auto 20 with rx.
  destruct (Hpre (startOf line) c3) as (pre & E).
  { apply In_seq. exists c1. split; [exact H1|].
    apply In_seq. now exists c2. }
  apply In_litBytes in H4. cbn [c_rest startOf] in E.
  exists pre, (c_rest c). now rewrite E, H4.
Qed.

(** X8. On the lines of a text that went through [CompressSpaces], the
    scout and fleet patterns of filters.go never match: both ask for a
    space after a colon, and [CompressSpaces] removes every such space. *)
Theorem FiltersGo_rejects_compressed_movement (x line : bytes) :
  In line (Split (CompressSpaces x)) ->
  FiltersGo.IsScoutMovement line = false
  /\ FiltersGo.IsFleetMovement line = false.
Proof.
  intros Hin. destruct (Split_part _ _ Hin) as (pre & post & Hx).
  split.
  - destruct (FiltersGo.IsScoutMovement line) eqn:H; [|reflexivity].
    destruct (FiltersGo_scout_text line H) as (d & tail & ->).
    assert (Hd : isSpaceDelimiter ":" = false); [|discriminate Hd].
    apply (CompressSpaces_delimiter_space x (pre ++ B "scout " ++ [d])
             ":" (B "scout" ++ tail ++ post)).
    rewrite Hx, <- !app_assoc. reflexivity.
  - destruct (FiltersGo.IsFleetMovement line) eqn:H; [|reflexivity].
    destruct (FiltersGo_fleet_text line H) as (p & tail & ->).
    assert (Hd : isSpaceDelimiter ":" = false); [|discriminate Hd].
    apply (CompressSpaces_delimiter_space x (pre ++ p ++ B " fleet movement")
             ":" (B "move" ++ tail ++ post)).
    rewrite Hx, <- !app_assoc. reflexivity.
Qed.

Lemma FiltersGo_rejects_compressed_witness :
  FiltersGo.IsScoutMovement (B "scout 1:scout n-pr") = false
  /\ FiltersGo.IsFleetMovement (B "scout 1:scout n-pr") = false.
Proof.
  apply (FiltersGo_rejects_compressed_movement
           (B "scout 1: scout n-pr") (B "scout 1:scout n-pr")).
  vm_compute. now left.
Defined.

(** ** The blank-line trimmers *)

Lemma dropBlankLines_suffix lines :
  exists k, lines = repeat [] k ++ dropBlankLines lines
            /\ hd_error (dropBlankLines lines) <> Some [].
Proof.
  induction lines as [|line rest (k & E & Hhd)].
  - exists 0. split; [reflexivity | discriminate].
  - cbn [dropBlankLines]. destruct line as [|ch line].
    + exists (S k). cbn [length Nat.eqb repeat app]. split; [now f_equal | exact Hhd].
    + exists 0. split; [reflexivity | discriminate].
Qed.

(** The end index the loop of [RemoveTrailingBlankLines] stops at, line by
    line from the front. *)
Lemma lastLineEnd_cons line rest : forall e,
  lastLineEnd (line :: rest) (S e) =
  match lastLineEnd rest e with
  | O => if blankLine line then 0 else 1
  | S n => S (S n)
  end.
Proof.
  induction e as [|e IH]; [reflexivity|].
  change (lastLineEnd (line :: rest) (S (S e)))
    with (if (length (nth e rest []) =? 0)%nat
          then lastLineEnd (line :: rest) (S e) else S (S e)).
  cbn [lastLineEnd]. destruct (length (nth e rest []) =? 0)%nat; [exact IH | reflexivity].
Qed.

Definition keptLines (lines : list bytes) : list bytes :=
  firstn (lastLineEnd lines (length lines)) lines.

Lemma keptLines_cons line rest :
  keptLines (line :: rest) =
  match keptLines rest with
  | [] => if blankLine line then [] else [line]
  | _ :: _ => line :: keptLines rest
  end.
Proof.
  unfold keptLines. cbn [length]. rewrite lastLineEnd_cons.
  destruct (lastLineEnd rest (length rest)) as [|n] eqn:E.
  - cbn [firstn]. destruct (blankLine line); reflexivity.
  - cbn [firstn]. destruct rest as [|l rest']; [discriminate E | reflexivity].
Qed.

Lemma keptLines_prefix lines :
  exists k, lines = keptLines lines ++ repeat [] k
            /\ forall init, keptLines lines <> init ++ [[]].
Proof.
  induction lines as [|line rest (k & E & Hlast)].
  - exists 0. split; [reflexivity | intros [|? ?]; discriminate].
  - rewrite keptLines_cons. destruct (keptLines rest) as [|l kept] eqn:Hk.
    + destruct line as [|ch line]; cbn [blankLine length Nat.eqb].
      * exists (S k). simpl in E. split; [simpl; now f_equal|].
        intros [|? ?]; discriminate.
      * exists k. simpl in E. split; [simpl; now f_equal|].
        intros [|? [|? ?]]; discriminate.
    + exists k. split; [simpl; now f_equal|].
      intros [|x init] H; [discriminate H|].
      injection H as _ H. exact (Hlast init H).
Qed.

Lemma dropBlankLines_kept lines :
  dropBlankLines (keptLines lines) = keptLines (dropBlankLines lines).
Proof.
  induction lines as [|line rest IH]; [reflexivity|].
  rewrite keptLines_cons. cbn [dropBlankLines].
  destruct line as [|ch line]; cbn [blankLine length Nat.eqb].
  - rewrite <- IH. destruct (keptLines rest); reflexivity.
  - rewrite keptLines_cons. cbn [blankLine length Nat.eqb].
    destruct (keptLines rest); reflexivity.
Qed.

(** X9. [RemoveLeadingBlankLines] removes exactly the empty lines in front
    of the first line that is not empty, and [RemoveTrailingBlankLines]
    exactly those behind the last one; nil stays nil and a slice stays a
    slice, empty when all its lines were. *)
Theorem blank_line_trimmers_cut_the_ends (lines : list bytes) :
  RemoveLeadingBlankLines None = None
  /\ RemoveTrailingBlankLines None = None
  /\ (exists k out,
         RemoveLeadingBlankLines (Some lines) = Some out
         /\ lines = repeat [] k ++ out
         /\ hd_error out <> Some [])
  /\ (exists k out,
         RemoveTrailingBlankLines (Some lines) = Some out
         /\ lines = out ++ repeat [] k
         /\ forall init, out <> init ++ [[]]).
Proof.
  split; [reflexivity|]. split; [reflexivity|]. split.
  - destruct (dropBlankLines_suffix lines) as (k & E & H).
    exists k, (dropBlankLines lines). now split.
  - destruct (keptLines_prefix lines) as (k & E & H).
    exists k, (keptLines lines). now split.
Qed.

(** X10. The two trimmers commute, each is idempotent, and neither touches
    a line that is not empty. *)
Theorem blank_line_trimmers_commute (lines : option (list bytes)) :
  RemoveLeadingBlankLines (RemoveTrailingBlankLines lines) =
  RemoveTrailingBlankLines (RemoveLeadingBlankLines lines)
  /\ RemoveLeadingBlankLines (RemoveLeadingBlankLines lines) =
     RemoveLeadingBlankLines lines
  /\ RemoveTrailingBlankLines (RemoveTrailingBlankLines lines) =
     RemoveTrailingBlankLines lines
  /\ option_map (filter (fun line => negb (blankLine line)))
       (RemoveLeadingBlankLines (RemoveTrailingBlankLines lines)) =
     option_map (filter (fun line => negb (blankLine line))) lines.
Proof.
  destruct lines as [lines|]; [|repeat split].
  cbn [RemoveLeadingBlankLines RemoveTrailingBlankLines option_map].
  fold (keptLines lines) (keptLines (dropBlankLines lines))
       (keptLines (keptLines lines)).
  assert (Hlead : forall l, filter (fun line => negb (blankLine line)) (dropBlankLines l)
                            = filter (fun line => negb (blankLine line)) l).
  { induction l as [|line rest IH]; [reflexivity|].
    cbn [dropBlankLines filter].
    change (length line =? 0)%nat with (blankLine line).
    destruct (blankLine line) eqn:E; cbn [negb]; [exact IH|].
    cbn [filter]. now rewrite E. }
  assert (Htrail : forall l, filter (fun line => negb (blankLine line)) (keptLines l)
                             = filter (fun line => negb (blankLine line)) l).
  { induction l as [|line rest IH]; [reflexivity|].
    rewrite keptLines_cons. cbn [filter]. rewrite <- IH.
    destruct (keptLines rest); [|reflexivity].
    destruct (blankLine line) eqn:E; cbn [filter negb]; [reflexivity|].
    now rewrite E. }
  split; [now rewrite dropBlankLines_kept|]. split; [|split].
  - f_equal. induction lines as [|line rest IH]; [reflexivity|].
    cbn [dropBlankLines]. destruct (length line =? 0)%nat eqn:E; [exact IH|].
    cbn [dropBlankLines]. now rewrite E.
  - f_equal. induction lines as [|line rest IH]; [reflexivity|].
    rewrite (keptLines_cons line rest).
    destruct (keptLines rest) as [|l kept] eqn:Hk.
    + destruct (blankLine line) eqn:E; [reflexivity|].
      rewrite keptLines_cons. cbn. now rewrite E.
    + rewrite keptLines_cons, IH. reflexivity.
  - now rewrite Hlead, Htrail.
Qed.

(** ** ScrubBadUTF8: what it returns when it does *)

Lemma DecodeRune_ascii c rest :
  (code c < 128)%N -> DecodeRune (c :: rest) = (code c, 1).
Proof.
  intros H. unfold DecodeRune, first.
  assert (E : (code c <=? 127)%N = true) by (apply N.leb_le; lia).
  rewrite E. reflexivity.
Qed.

Lemma decodesCleanly_ascii input :
  Forall (fun c => (code c < 128)%N) input ->
  decodesCleanly (length input) input = true.
Proof.
  induction 1 as [|c rest Hc _ IH]; [reflexivity|].
  cbn [length decodesCleanly]. rewrite DecodeRune_ascii by assumption.
  cbn [skipn]. rewrite IH, andb_true_r.
  apply negb_true_iff, N.eqb_neq. unfold RuneError. lia.
Qed.

(** X11. [ScrubBadUTF8] scrubs nothing: whenever it returns, its result is
    its input, byte for byte.  It does return on every text made of ASCII
    bytes, after one iteration per byte. *)
Theorem ScrubBadUTF8_returns_its_input (fuel : nat) (input result : bytes) :
  (ScrubBadUTF8 fuel (Some input) = Some (Some result) -> result = input)
  /\ (Forall (fun c => (code c < 128)%N) input ->
      ScrubBadUTF8 (length input) (Some input) = Some (Some input)).
Proof.
  unfold ScrubBadUTF8. split.
  - destruct (scrubLoop fuel input []) as [out|] eqn:E; [|discriminate].
    intros [= <-]. exact (scrubLoop_copies _ _ _ _ E).
  - intros H. now rewrite scrubLoop_returns, decodesCleanly_ascii.
Qed.

Lemma ScrubBadUTF8_returns_witness :
  ScrubBadUTF8 7 (Some (B "tribe 1")) = Some (Some (B "tribe 1")).
Proof.
  apply (proj2 (ScrubBadUTF8_returns_its_input 0 (B "tribe 1") [])).
  repeat constructor.
Defined.

(** ** The entry points: which text is parsed *)

Section Dispatch.

Variable ToLower : bytes -> bytes.
Variable TrimSpace : bytes -> bytes.
Variable isDocx : bytes -> bool.
Variable ReadBuffer : bytes -> bytes * option error.

Lemma ParseText_unknown input :
  looksLikeText input = false ->
  ParseText ToLower TrimSpace input = ([], Some (tndocxError ErrUnknownFormat)).
Proof. intros H. unfold ParseText. now rewrite H. Qed.

Lemma ParseText_known input :
  looksLikeText input = true ->
  ParseText ToLower TrimSpace input =
  (map (scrubSection TrimSpace) (SectionInput (CompressSpaces (ToLower input))),
   None).
Proof. intros H. unfold ParseText. now rewrite H. Qed.

Lemma ParseSections_not_docx input :
  input <> [] -> isDocx input = false ->
  ParseSections ToLower TrimSpace isDocx ReadBuffer input =
  ParseText ToLower TrimSpace input.
Proof.
  intros Hne Hdoc. unfold ParseSections, ParseDocx.
  destruct input as [|ch rest]; [congruence|]. cbn [length Nat.eqb].
  rewrite Hdoc. cbn [negb]. now rewrite errorsIs_refl.
Qed.

Lemma ParseSections_docx input text :
  input <> [] -> isDocx input = true -> ReadBuffer input = (text, None) ->
  ParseSections ToLower TrimSpace isDocx ReadBuffer input =
  if looksLikeText text then ParseText ToLower TrimSpace text
  else ParseText ToLower TrimSpace input.
Proof.
  intros Hne Hdoc Hread. unfold ParseSections, ParseDocx.
  destruct input as [|ch rest]; [congruence|]. cbn [length Nat.eqb].
  rewrite Hdoc, Hread. cbn [negb].
  destruct (looksLikeText text) eqn:Htext.
  - now rewrite ParseText_known.
  - rewrite (ParseText_unknown text Htext). now rewrite errorsIs_refl.
Qed.

End Dispatch.

(** X12. [ParseSections] on a buffer that is not empty: if the buffer is
    not detected as a Word document the answer is that of [ParseText] on the
    buffer; if it is, and its text was read, the answer is that of
    [ParseText] on the text when the text passes the check of [ParseText],
    and otherwise that of [ParseText] on the buffer itself, the bytes of the
    document. *)
Theorem ParseSections_dispatch
    (ToLower TrimSpace : bytes -> bytes) (isDocx : bytes -> bool)
    (ReadBuffer : bytes -> bytes * option error) (input text : bytes) :
  input <> [] ->
  (isDocx input = false ->
   ParseSections ToLower TrimSpace isDocx ReadBuffer input =
   ParseText ToLower TrimSpace input)
  /\ (isDocx input = true -> ReadBuffer input = (text, None) ->
      looksLikeText text = true ->
      ParseSections ToLower TrimSpace isDocx ReadBuffer input =
      ParseText ToLower TrimSpace text)
  /\ (isDocx input = true -> ReadBuffer input = (text, None) ->
      looksLikeText text = false ->
      ParseSections ToLower TrimSpace isDocx ReadBuffer input =
      ParseText ToLower TrimSpace input).
Proof.
  intros Hne. split; [now apply ParseSections_not_docx|].
  split; intros Hdoc Hread Htext;
    rewrite (ParseSections_docx _ _ _ _ input text) by assumption;
    now rewrite Htext.
Qed.

(** A buffer taken for a Word document whose text is too short: the
    buffer itself is parsed as text. *)
Lemma ParseSections_dispatch_witness :
  ParseSections asciiToLower asciiTrimSpace (fun _ => true)
    (fun _ => (B "ab", None)) (B "tribe 0987,x") =
  ParseText asciiToLower asciiTrimSpace (B "tribe 0987,x").
Proof.
  refine (proj2 (proj2 (ParseSections_dispatch asciiToLower asciiTrimSpace
            (fun _ => true) (fun _ => (B "ab", None))
            (B "tribe 0987,x") (B "ab") _)) _ _ _);
    [discriminate | reflexivity | reflexivity | reflexivity].
Defined.

(** The scrubbers of [ParseText] touch the movement and status fields
    only. *)
Lemma scrubSection_frame TrimSpace s :
  Id (scrubSection TrimSpace s) = Id s
  /\ Header (scrubSection TrimSpace s) = Header s
  /\ Turn (scrubSection TrimSpace s) = Turn s.
Proof. repeat split. Qed.

(** X13. The sections [ParseText] returns for a text that passes its check
    are as many as the unit headers among the lines of the lower-cased,
    compressed text; their headers are those lines, unscrubbed and in
    order, and the k-th section has the ordinal k. *)
Theorem ParseText_sections
    (ToLower TrimSpace : bytes -> bytes) (input : bytes) :
  looksLikeText input = true ->
  let sections := fst (ParseText ToLower TrimSpace input) in
  let lines := Split (CompressSpaces (ToLower input)) in
  map Header sections = filter IsUnitHeader lines
  /\ map Id sections = List.seq 1 (length (filter IsUnitHeader lines))
  /\ map Turn sections = map Turn (sectionLines lines).
Proof.
  intros Htext sections lines. subst sections.
  unfold ParseText. rewrite Htext. cbn [negb fst].
  rewrite !map_map. unfold SectionInput, sectionLines. fold lines.
  destruct (fold_sectionStep_headers lines [] None) as [H1 H2].
  cbn [fst map app length Nat.add] in H1, H2.
  split; [|split].
  - rewrite <- H1. apply map_ext. intros s. reflexivity.
  - rewrite <- H2. apply map_ext. intros s. reflexivity.
  - apply map_ext. intros s. reflexivity.
Qed.

Lemma ParseText_sections_witness :
  map Header (fst (ParseText asciiToLower asciiTrimSpace (B "Tribe 0987,  X"))) =
  filter IsUnitHeader (Split (CompressSpaces (asciiToLower (B "Tribe 0987,  X")))).
Proof.
  apply (ParseText_sections asciiToLower asciiTrimSpace (B "Tribe 0987,  X")).
  reflexivity.
Defined.

(** ** The scrubbers: what their last passes leave *)

(** [kk+] for a byte [k]: the text behind a run of two or more. *)
Definition afterRun (k : ascii) (s : bytes) : option bytes :=
  match s with
  | x :: y :: rest =>
    if Ascii.eqb x k && Ascii.eqb y k
    then Some (skipWhile (fun ch => Ascii.eqb ch k) rest) else None
  | _ => None
  end.

Lemma run_first k prev s :
  option_map c_rest
    (hd_error (seq (litBytes [k]) (many1 (fun ch => Ascii.eqb ch k))
                 (Cursor prev s []))) = afterRun k s.
Proof.
  cbn [litBytes]. unfold seq at 1 2, chr, eps. cbn [c_rest c_caps].
  destruct s as [|x rest]; [reflexivity|].
  rewrite (Ascii.eqb_sym k x). unfold afterRun.
  destruct (Ascii.eqb x k) eqn:Hx.
  2:{ cbn [flat_map andb]. destruct rest; reflexivity. }
  cbn [flat_map app andb]. rewrite app_nil_r.
  pose proof (many1_results (fun ch => Ascii.eqb ch k) (Cursor (Some x) rest [])) as H.
  cbn [c_rest c_caps] in H.
  destruct rest as [|y rest']; [now rewrite H|].
  destruct (Ascii.eqb y k); [|now rewrite H].
  destruct H as (prev' & others & -> & _). reflexivity.
Qed.

Lemma skipWhile_run p s :
  exists m, s = m ++ skipWhile p s /\ Forall (fun ch => p ch = true) m.
Proof.
  induction s as [|ch rest (m & IH & Hm)]; [now exists []|]. simpl.
  destruct (p ch) eqn:Hp.
  - exists (ch :: m). split; [simpl; now rewrite <- IH | now constructor].
  - now exists [].
Qed.

Lemma afterRun_text k s r :
  afterRun k s = Some r ->
  exists m, s = k :: k :: m ++ r
            /\ Forall (fun ch => Ascii.eqb ch k = true) m
            /\ ~ startsWith (fun ch => Ascii.eqb ch k) r.
Proof.
  destruct s as [|x [|y rest]]; try discriminate. unfold afterRun.
  destruct (Ascii.eqb_spec x k) as [->|]; [|discriminate].
  destruct (Ascii.eqb_spec y k) as [->|]; [|discriminate].
  intros [= <-].
  destruct (skipWhile_run (fun ch => Ascii.eqb ch k) rest) as (m & E & Hm).
  exists m. split; [now rewrite E at 1|]. split; [exact Hm | apply skipWhile_stops].
Qed.

Lemma afterRun_suffix k s r :
  afterRun k s = Some r -> exists ch m, s = ch :: m ++ r.
Proof.
  intros H. destruct (afterRun_text k s r H) as (m & -> & _).
  now exists k, (k :: m).
Qed.

Lemma hasPair_cons a b x rest :
  hasPair a b rest = true -> hasPair a b (x :: rest) = true.
Proof. intros H. cbn [hasPair]. rewrite H. apply orb_true_r. Qed.

(** In a run of [k] followed by [b], [k] stands before [b]. *)
Lemma run_pair k b m t :
  Forall (fun ch => Ascii.eqb ch k = true) m ->
  hasPair k b (k :: m ++ b :: t) = true.
Proof.
  induction 1 as [|ch m Hch _ IH].
  - cbn. now rewrite !Ascii.eqb_refl.
  - apply Ascii.eqb_eq in Hch. subst ch.
    apply (hasPair_cons k b k (k :: m ++ b :: t)). exact IH.
Qed.

Lemma hasPair_prefix a b p q : hasPair a b (p ++ q) = false -> hasPair a b p = false.
Proof.
  induction p as [|x p IH]; [reflexivity|].
  cbn [app hasPair]. intros H. apply orb_false_iff in H as [H1 H2].
  rewrite (IH H2), orb_false_r.
  destruct p as [|y p']; [apply andb_false_r | exact H1].
Qed.

(** [ReplaceAll] of the runs of two or more [k] by one [k]. *)
Section CollapseRun.

Variable k : ascii.
Variable re : rx.
Hypothesis re_first : forall prev s,
  option_map c_rest (hd_error (re (Cursor prev s []))) = afterRun k s.

Lemma collapse_run s : forall prev,
  let out := replaceFrom re [TText [k]] prev s 0 in
  hd_error out = hd_error s
  /\ hasPair k k out = false
  /\ forall a b, hasPair a b s = false -> hasPair a b out = false.
Proof.
  induction s as [s IH] using bytes_length_ind. intros prev.
  destruct s as [|ch rest]; [repeat split|].
  destruct (afterRun k (ch :: rest)) as [r|] eqn:E.
  - destruct (replace_found _ _ [k] re_first (afterRun_suffix k) prev _ _ E)
      as (prev' & Hout).
    cbv zeta. rewrite Hout.
    destruct (afterRun_text _ _ _ E) as (m & Hs & Hm & Hstop).
    destruct (IH r) with (prev := prev') as (IH1 & IH2 & IH3).
    { rewrite Hs. simpl. rewrite length_app. lia. }
    cbn [app]. split; [|split].
    + rewrite Hs. reflexivity.
    + apply hasPair_cons_false; [exact IH2|]. intros _ Hhd.
      rewrite IH1 in Hhd. apply Hstop.
      destruct r as [|y t]; [discriminate|]. injection Hhd as ->.
      simpl. apply Ascii.eqb_refl.
    + intros a b Hab. apply hasPair_cons_false.
      * apply IH3. apply (hasPair_suffix a b (k :: k :: m)).
        now rewrite <- Hs at 1.
      * intros <- Hhd. rewrite IH1 in Hhd.
        destruct r as [|y t]; [discriminate|]. injection Hhd as ->.
        rewrite Hs in Hab.
        assert (Hp : hasPair k b (k :: k :: m ++ b :: t) = true).
        { change (k :: k :: m ++ b :: t) with (k :: (k :: m) ++ b :: t).
          apply run_pair. constructor; [apply Ascii.eqb_refl | exact Hm]. }
        congruence.
  - cbv zeta. rewrite (replace_copied _ _ [k] re_first prev _ _ E).
    destruct (IH rest) with (prev := Some ch) as (IH1 & IH2 & IH3); [simpl; lia|].
    split; [reflexivity|]. split.
    + apply hasPair_cons_false; [exact IH2|]. intros -> Hhd.
      rewrite IH1 in Hhd. destruct rest as [|y t]; [discriminate|].
      injection Hhd as ->. unfold afterRun in E.
      rewrite !Ascii.eqb_refl in E. discriminate E.
    + intros a b Hab. apply hasPair_cons_false.
      * apply IH3. now apply (hasPair_suffix a b [ch]).
      * intros -> Hhd. rewrite IH1 in Hhd.
        destruct rest as [|y t]; [discriminate|]. injection Hhd as ->.
        cbn in Hab. rewrite !Ascii.eqb_refl in Hab. discriminate Hab.
Qed.

End CollapseRun.

Lemma reRunOfBackslashes_first prev s :
  option_map c_rest (hd_error (reRunOfBackslashes (Cursor prev s []))) =
  afterRun "\" s.
Proof. exact (run_first "\" prev s). Qed.

Lemma reRunOfComma_first prev s :
  option_map c_rest (hd_error (reRunOfComma (Cursor prev s []))) =
  afterRun "," s.
Proof. exact (run_first "," prev s). Qed.

(** The pass that reduces the runs: afterwards no two backslashes and no
    two commas are adjacent, and no two bytes are that were not before. *)
Lemma collapseRuns_pairs line :
  hasPair "\" "\" (collapseRuns line) = false
  /\ hasPair "," "," (collapseRuns line) = false
  /\ forall a b, hasPair a b line = false -> hasPair a b (collapseRuns line) = false.
Proof.
  unfold collapseRuns, ReplaceAll, backslash.
  destruct (collapse_run "\" _ reRunOfBackslashes_first line None) as (_ & H1 & H2).
  destruct (collapse_run "," _ reRunOfComma_first
              (replaceFrom reRunOfBackslashes [TText ["\"]] None line 0) None)
    as (_ & H3 & H4).
  cbv zeta in *. split; [|split].
  - now apply H4.
  - exact H3.
  - intros a b Hab. now apply H4, H2.
Qed.

Lemma TrimRight_prefix s cut :
  (exists n, s = TrimRight s cut ++ repeat cut n)
  /\ lastByte (TrimRight s cut) <> Some cut.
Proof.
  induction s as [|ch rest [(n & E) Hlast]]; [split; [now exists 0 | discriminate]|].
  cbn [TrimRight]. destruct (TrimRight rest cut) as [|y kept] eqn:Hk.
  - destruct (Ascii.eqb_spec ch cut) as [->|Hne].
    + split; [|discriminate]. exists (S n). simpl in *. now f_equal.
    + split; [|simpl; congruence]. exists n. simpl in *. now f_equal.
  - split; [|exact Hlast]. exists n. simpl in *. now f_equal.
Qed.

(** The scan of the step results turns separators into spaces: it brings
    no byte other than a space next to another. *)
Lemma blankedText_pairs s s' a b :
  blankedText s s' -> a <> SP -> b <> SP ->
  hasPair a b s = false -> hasPair a b s' = false.
Proof.
  intros H Ha Hb. induction H as [|x y l l' Hxy H IH]; [reflexivity|].
  intros Hs. apply hasPair_cons_false.
  - apply IH. now apply (hasPair_suffix a b [x]).
  - intros -> Hhd.
    assert (x = a) by (destruct Hxy as [?|[_ ?]]; congruence). subst x.
    destruct H as [|x' y' l l' Hxy' _]; [discriminate|].
    injection Hhd as ->.
    assert (x' = b) by (destruct Hxy' as [?|[_ ?]]; congruence). subst x'.
    cbn in Hs. rewrite !Ascii.eqb_refl in Hs. discriminate Hs.
Qed.

(** [bytes.ReplaceAll(line, ",)", ")")] *)
Definition dropCommaParen (s : bytes) : bytes := bytesReplaceAll s (B ",)") (B ")").

Lemma dropCommaParen_found rest :
  dropCommaParen ("," :: ")" :: rest) = ")" :: dropCommaParen rest.
Proof. reflexivity. Qed.

Lemma dropCommaParen_copied ch rest :
  HasPrefix (ch :: rest) (B ",)") = false ->
  dropCommaParen (ch :: rest) = ch :: dropCommaParen rest.
Proof.
  intros H. unfold dropCommaParen, bytesReplaceAll. cbn [bytesReplaceFrom].
  now rewrite H.
Qed.

Lemma HasPrefix_commaParen s :
  HasPrefix s (B ",)") = true -> exists rest, s = "," :: ")" :: rest.
Proof.
  destruct s as [|x [|y rest]]; cbn -[Ascii.eqb]; try discriminate.
  - now rewrite andb_false_r.
  - rewrite andb_true_r. intros H. apply andb_true_iff in H as [Hx Hy].
    apply Ascii.eqb_eq in Hx, Hy. subst. now exists rest.
Qed.

Lemma dropCommaParen_pairs s :
  (hd_error (dropCommaParen s) = hd_error s
   \/ (hd_error (dropCommaParen s) = Some ")" /\ HasPrefix s (B ",)") = true))
  /\ (hasPair "," "," s = false -> hasPair "," ")" (dropCommaParen s) = false)
  /\ (forall a b, b <> ")"%char -> hasPair a b s = false ->
                  hasPair a b (dropCommaParen s) = false).
Proof.
  induction s as [s IH] using bytes_length_ind.
  destruct s as [|ch rest]; [repeat split; now left|].
  destruct (HasPrefix (ch :: rest) (B ",)")) eqn:E.
  - destruct (HasPrefix_commaParen _ E) as (rest' & [= -> ->]).
    rewrite dropCommaParen_found.
    destruct (IH rest' ltac:(simpl; lia)) as (IH1 & IH2 & IH3).
    split; [right; now split|]. split.
    + intros Hs. apply hasPair_cons_false; [|discriminate].
      apply IH2. now apply (hasPair_suffix _ _ [","; ")"]%char).
    + intros a b Hb Hs. apply hasPair_cons_false.
      * apply IH3; [exact Hb|]. now apply (hasPair_suffix _ _ [","; ")"]%char).
      * intros <- Hhd. destruct IH1 as [IH1|[IH1 _]]; [|congruence].
        rewrite IH1 in Hhd. destruct rest' as [|y t]; [discriminate|].
        injection Hhd as ->.
        apply (hasPair_suffix _ _ [","%char]) in Hs.
        cbn in Hs. rewrite !Ascii.eqb_refl in Hs. discriminate Hs.
  - rewrite dropCommaParen_copied by assumption.
    destruct (IH rest ltac:(simpl; lia)) as (IH1 & IH2 & IH3).
    split; [now left|]. split.
    + intros Hs. apply hasPair_cons_false.
      * apply IH2. now apply (hasPair_suffix _ _ [ch]).
      * intros -> Hhd. destruct IH1 as [IH1|[_ IH1]].
        -- rewrite IH1 in Hhd. destruct rest as [|y t]; [discriminate|].
           injection Hhd as ->. discriminate E.
        -- destruct (HasPrefix_commaParen _ IH1) as (t & ->).
           discriminate Hs.
    + intros a b Hb Hs. apply hasPair_cons_false.
      * apply IH3; [exact Hb|]. now apply (hasPair_suffix _ _ [ch]).
      * intros -> Hhd. destruct IH1 as [IH1|[IH1 _]]; [|congruence].
        rewrite IH1 in Hhd. destruct rest as [|y t]; [discriminate|].
        injection Hhd as ->.
        cbn in Hs. rewrite !Ascii.eqb_refl in Hs. discriminate Hs.
Qed.

Lemma TrimRight_noRuns s :
  hasPair "\" "\" s = false -> hasPair "," "," s = false ->
  noRuns (TrimRight s "\").
Proof.
  intros H1 H2. destruct (TrimRight_prefix s "\") as [(n & E) Hlast].
  rewrite E in H1, H2. repeat split.
  - exact (hasPair_prefix _ _ _ _ H1).
  - exact (hasPair_prefix _ _ _ _ H2).
  - exact Hlast.
Qed.

(** The last passes of the movement, scout and status scrubbers. *)
Lemma scrubbed_results_noRuns line :
  noRuns (TrimRight (scrubStepResults (collapseRuns line)) "\").
Proof.
  destruct (collapseRuns_pairs line) as (H1 & H2 & _).
  pose proof (scrubStepResults_blanked (collapseRuns line)) as Hb.
  apply TrimRight_noRuns.
  - apply (blankedText_pairs _ _ _ _ Hb); [discriminate | discriminate | exact H1].
  - apply (blankedText_pairs _ _ _ _ Hb); [discriminate | discriminate | exact H2].
Qed.

(** The last passes of the fleet scrubber and of PreProcessMovementLine. *)
Lemma scrubbed_observations_noRuns line :
  noRuns (TrimRight (bytesReplaceAll (collapseRuns line) (B ",)") (B ")")) "\")
  /\ hasPair "," ")"
       (TrimRight (bytesReplaceAll (collapseRuns line) (B ",)") (B ")")) "\") = false.
Proof.
  destruct (collapseRuns_pairs line) as (H1 & H2 & _).
  fold (dropCommaParen (collapseRuns line)).
  destruct (dropCommaParen_pairs (collapseRuns line)) as (_ & H3 & H4).
  split.
  - apply TrimRight_noRuns; apply H4; try assumption; discriminate.
  - destruct (TrimRight_prefix (dropCommaParen (collapseRuns line)) "\")
      as [(n & E) _].
    specialize (H3 H2). rewrite E in H3. exact (hasPair_prefix _ _ _ _ H3).
Qed.

(** X14. In what [scrubMovementLine], [scrubScoutLine] and
    [scrubStatusLine] return, no two backslashes and no two commas are
    adjacent, and the last byte is not a backslash. *)
Theorem scrubbed_lines_have_no_runs (line : bytes) :
  noRuns (scrubMovementLine line) /\ noRuns (scrubScoutLine line)
  /\ noRuns (scrubStatusLine line).
Proof.
  unfold scrubMovementLine, scrubScoutLine, scrubStatusLine.
  destruct line as [|ch rest]; [repeat split; discriminate|].
  cbv zeta. repeat split; apply scrubbed_results_noRuns.
Qed.

(** X15. In what [scrubFleetLine] and both declarations of
    [PreProcessMovementLine] return, no two backslashes and no two commas
    are adjacent, no comma stands before a closing parenthesis, and the
    last byte is not a backslash. *)
Theorem fleet_lines_have_no_runs (line : bytes) :
  (noRuns (scrubFleetLine line)
   /\ hasPair "," ")" (scrubFleetLine line) = false)
  /\ (noRuns (PreProcessMovementLine line)
      /\ hasPair "," ")" (PreProcessMovementLine line) = false)
  /\ (noRuns (FiltersGo.PreProcessMovementLine line)
      /\ hasPair "," ")" (FiltersGo.PreProcessMovementLine line) = false).
Proof.
  unfold scrubFleetLine, PreProcessMovementLine, FiltersGo.PreProcessMovementLine.
  split; [|split; apply scrubbed_observations_noRuns].
  destruct line as [|ch rest]; [repeat split; discriminate|].
  apply scrubbed_observations_noRuns.
Qed.

(** ** The scrubbers: backslashes and commas stay apart *)

(** Bytes other than the two separators of the steps. *)
Definition plainByte (ch : ascii) : bool :=
  negb (isBackslash ch) && negb (isComma ch).

(** A pattern whose matches are made of plain bytes and close no group. *)
Definition Plain (re : rx) : Prop :=
  forall c c', In c' (re c) ->
    c_caps c' = c_caps c
    /\ exists m, c_rest c = m ++ c_rest c' /\ forallb plainByte m = true.

Lemma Plain_eps : Plain eps.
Proof. intros c c' [<-|[]]. split; [reflexivity | now exists []]. Qed.

Lemma Plain_chr p :
  p "\"%char = false -> p ","%char = false -> Plain (chr p).
Proof.
  intros Hb Hc c c' H. apply In_chr in H as (ch & rest & Hrest & Hch & ->).
  split; [reflexivity|]. exists [ch]. split; [exact Hrest|].
  cbn [forallb]. rewrite andb_true_r. unfold plainByte, isBackslash, isComma.
  destruct (Ascii.eqb_spec ch "\") as [->|_]; [congruence|].
  destruct (Ascii.eqb_spec ch ",") as [->|_]; [congruence | reflexivity].
Qed.

Lemma Plain_seq a b : Plain a -> Plain b -> Plain (seq a b).
Proof.
  intros Ha Hb c c'' H. apply In_seq in H as (c' & H1 & H2).
  destruct (Ha _ _ H1) as (C1 & m1 & E1 & F1).
  destruct (Hb _ _ H2) as (C2 & m2 & E2 & F2).
  split; [congruence|]. exists (m1 ++ m2).
  split; [now rewrite E1, E2, app_assoc|].
  rewrite forallb_app. now rewrite F1, F2.
Qed.

Lemma Plain_alt a b : Plain a -> Plain b -> Plain (alt a b).
Proof. intros Ha Hb c c' H. apply In_alt in H as [H|H]; eauto. Qed.

Lemma Plain_opt a : Plain a -> Plain (opt a).
Proof. intros Ha. apply Plain_alt; [assumption | apply Plain_eps]. Qed.

Lemma Plain_times n a : Plain a -> Plain (times n a).
Proof.
  intros Ha. induction n as [|n IH]; [apply Plain_eps | now apply Plain_seq].
Qed.

Lemma Plain_litBytes s : forallb plainByte s = true -> Plain (litBytes s).
Proof.
  induction s as [|ch s IH]; cbn [forallb litBytes]; intros H; [apply Plain_eps|].
  apply andb_true_iff in H as [Hch H].
  apply Plain_seq; [|now apply IH].
  unfold plainByte, isBackslash, isComma in Hch.
  apply andb_true_iff in Hch as [H1 H2].
  apply negb_true_iff in H1, H2.
  apply Plain_chr; now rewrite Ascii.eqb_sym.
Qed.

Lemma Plain_wordBoundary : Plain wordBoundary.
Proof.
  intros c c' H. unfold wordBoundary in H.
  destruct (xorb _ _); [|destruct H]. destruct H as [<-|[]].
  split; [reflexivity | now exists []].
Qed.

Lemma Plain_unitId : Plain unitId.
Proof.
  unfold unitId, digit.
  repeat first [ apply Plain_eps | apply Plain_seq | apply Plain_times
               | apply Plain_opt | apply Plain_chr; reflexivity ].
Qed.

Lemma Plain_direction : Plain direction.
Proof.
  unfold direction.
  repeat first [ apply Plain_alt | apply Plain_litBytes; reflexivity ].
Qed.

Lemma Advances_unitId : Advances unitId.
Proof. unfold unitId, digit. cbn [times]. auto 20 with rx. Qed.

Lemma Advances_direction : Advances direction.
Proof. unfold direction. auto 20 with rx. Qed.

(** What a capture group of plain text records. *)
Lemma In_group_plain n a c c' :
  Plain a -> Advances a -> In c' (group n a c) ->
  exists ch m, c_rest c = ch :: m ++ c_rest c'
               /\ forallb plainByte (ch :: m) = true
               /\ c_caps c' = (n, ch :: m) :: c_caps c.
Proof.
  intros Hp Ha H. apply in_map_iff in H as (c0 & <- & H).
  destruct (Hp _ _ H) as (Hcaps & m & E & Hm).
  destruct (Ha _ _ H) as (ch & m' & E').
  assert (m = ch :: m').
  { apply (app_inv_tail (c_rest c0)). now rewrite <- E, E'. }
  subst m. exists ch, m'. cbn [c_rest c_caps].
  split; [exact E'|]. split; [exact Hm|].
  rewrite Hcaps. rewrite E at 1 2.
  now rewrite (firstn_match (ch :: m') (c_rest c0)).
Qed.

Lemma manyFrom_caps p s : forall prev caps c,
  In c (manyFrom p prev s caps) -> c_caps c = caps.
Proof.
  induction s as [|ch rest IH]; intros prev caps c; simpl.
  - now intros [<-|[]].
  - destruct (p ch).
    + intros H. apply in_app_iff in H as [H|[<-|[]]]; [now apply (IH _ _ _ H) | reflexivity].
    + now intros [<-|[]].
Qed.

Lemma In_many1 p c c' :
  In c' (many1 p c) ->
  exists ch m, c_rest c = ch :: m ++ c_rest c' /\ p ch = true
               /\ c_caps c' = c_caps c.
Proof.
  intros H. apply In_seq in H as (c1 & H1 & H2).
  apply In_chr in H1 as (ch & rest & Hrest & Hp & ->).
  destruct (Consumes_many p _ _ H2) as (m & E). cbn [c_rest] in E.
  exists ch, m. split; [now rewrite Hrest, E|]. split; [exact Hp|].
  exact (manyFrom_caps _ _ _ _ _ H2).
Qed.

(** [ReplaceAll] with any template: at the first match and elsewhere. *)
Section TemplateReplace.

Variable re : rx.
Variable template : list templateItem.

Lemma replaceFrom_passes m : forall prev r,
  exists prev',
    replaceFrom re template prev (m ++ r) (length m) =
    replaceFrom re template prev' r 0.
Proof.
  induction m as [|a m IH]; intros prev r.
  - exists prev. reflexivity.
  - simpl. apply IH.
Qed.

Lemma replace_matched prev ch m c l :
  re (Cursor prev (ch :: m ++ c_rest c) []) = c :: l ->
  exists prev',
    replaceFrom re template prev (ch :: m ++ c_rest c) 0 =
    expand template (c_caps c) ++ replaceFrom re template prev' (c_rest c) 0.
Proof.
  intros E. cbn [replaceFrom]. rewrite E.
  replace (length (ch :: m ++ c_rest c) - length (c_rest c)) with (S (length m))
    by (cbn [length]; rewrite length_app; lia).
  destruct (replaceFrom_passes m (Some ch) (c_rest c)) as (prev' & ->).
  now exists prev'.
Qed.

Lemma replace_unmatched prev ch rest :
  re (Cursor prev (ch :: rest) []) = [] ->
  replaceFrom re template prev (ch :: rest) 0 =
  ch :: replaceFrom re template (Some ch) rest 0.
Proof. intros E. cbn [replaceFrom]. now rewrite E. Qed.

End TemplateReplace.

Lemma separated_suffix m r : separated (m ++ r) -> separated r.
Proof. intros [H1 H2]. split; eapply hasPair_suffix; eassumption. Qed.

Lemma separated_prefix p q : separated (p ++ q) -> separated p.
Proof. intros [H1 H2]. split; eapply hasPair_prefix; eassumption. Qed.

Lemma plainByte_not ch :
  plainByte ch = true -> ch <> "\"%char /\ ch <> ","%char.
Proof.
  unfold plainByte, isBackslash, isComma. intros H.
  apply andb_true_iff in H as [H1 H2]. apply negb_true_iff in H1, H2.
  split; intros ->; discriminate.
Qed.

Lemma separated_plain_cons ch t :
  plainByte ch = true -> separated t -> separated (ch :: t).
Proof.
  intros Hch [H1 H2]. destruct (plainByte_not ch Hch) as [Hb Hc].
  split; (apply hasPair_cons_false; [assumption | congruence]).
Qed.

Lemma separated_plain_app m t :
  forallb plainByte m = true -> separated t -> separated (m ++ t).
Proof.
  induction m as [|ch m IH]; cbn [forallb app]; [auto|].
  intros H Ht. apply andb_true_iff in H as [Hch H].
  apply separated_plain_cons; auto.
Qed.

(** A comma in front of plain text. *)
Lemma separated_comma ch m t :
  forallb plainByte (ch :: m) = true -> separated t ->
  separated ("," :: (ch :: m) ++ t).
Proof.
  intros Hm Ht. pose proof (separated_plain_app _ _ Hm Ht) as [H1 H2].
  cbn [forallb] in Hm. apply andb_true_iff in Hm as [Hch _].
  destruct (plainByte_not ch Hch) as [Hb _].
  split; (apply hasPair_cons_false; [assumption|]).
  - discriminate.
  - intros _ [= E]. congruence.
Qed.

(** What the two patterns of the pass match, and what is put instead. *)
Lemma reBackslashUnit_match prev s c :
  In c (reBackslashUnit (Cursor prev s [])) ->
  exists bs ch m,
    s = "\"%char :: bs ++ (ch :: m) ++ c_rest c
    /\ forallb plainByte (ch :: m) = true
    /\ expand [TText [","%char]; TGroup 1] (c_caps c) = ","%char :: ch :: m.
Proof.
  intros H. apply In_seq in H as (c1 & H1 & H2).
  apply In_many1 in H1 as (b & bs & E1 & Hb & C1).
  apply (In_group_plain 1 unitId) in H2 as (ch & m & E2 & Hm & C2);
    [|apply Plain_unitId|apply Advances_unitId].
  apply Ascii.eqb_eq in Hb. subst b. cbn [c_rest c_caps] in *.
  exists bs, ch, m. split; [now rewrite E1, E2|]. split; [exact Hm|].
  rewrite C2. cbn. now rewrite app_nil_r.
Qed.

Lemma reDirectionUnit_match prev s c :
  In c (reDirectionUnit (Cursor prev s [])) ->
  exists d dir ch m,
    s = (d :: dir) ++ SP :: (ch :: m) ++ c_rest c
    /\ forallb plainByte (d :: dir) = true
    /\ forallb plainByte (ch :: m) = true
    /\ expand [TGroup 1; TText [","%char]; TGroup 2] (c_caps c) =
       (d :: dir) ++ ","%char :: ch :: m.
Proof.
  intros H. apply In_seq in H as (c0 & H0 & H).
  destruct (Plain_wordBoundary _ _ H0) as (C0 & _).
  unfold wordBoundary in H0. destruct (xorb _ _); [|destruct H0].
  destruct H0 as [<-|[]].
  apply In_seq in H as (c1 & H1 & H). apply In_seq in H as (c2 & H2 & H3).
  apply (In_group_plain 1 direction) in H1 as (d & dir & E1 & Hd & C1);
    [|apply Plain_direction|apply Advances_direction].
  destruct (Plain_litBytes (B " ") eq_refl _ _ H2) as (C2 & _).
  apply In_litBytes in H2.
  apply (In_group_plain 2 unitId) in H3 as (ch & m & E3 & Hm & C3);
    [|apply Plain_unitId|apply Advances_unitId].
  cbn [c_rest c_caps] in *.
  exists d, dir, ch, m. split; [|split; [exact Hd|split; [exact Hm|]]].
  - rewrite E1, H2, E3. cbn [B list_ascii_of_string app]. reflexivity.
  - rewrite C3, C2, C1. cbn. now rewrite app_nil_r.
Qed.

(** A longer run of backslashes in front of a unit is matched as well. *)
Lemma reBackslashUnit_longer_run p p' t :
  reBackslashUnit (Cursor p' ("\"%char :: t) []) <> [] ->
  reBackslashUnit (Cursor p ("\"%char :: "\"%char :: t) []) <> [].
Proof.
  unfold reBackslashUnit, many1. unfold seq at 1 2 3 4, chr.
  cbn [c_rest c_caps]. change (isBackslash "\") with true. cbn iota.
  cbn [flat_map]. rewrite !app_nil_r. unfold many. cbn [c_prev c_rest c_caps].
  cbn [manyFrom]. change (isBackslash "\") with true. cbn iota.
  rewrite flat_map_app. intros H Hnil. apply app_eq_nil in Hnil as [Hnil _].
  now apply H.
Qed.

(** The pass that puts a comma for the backslashes in front of a unit. *)
Lemma separate_backslash_unit s : forall prev,
  let out := replaceFrom reBackslashUnit [TText [","%char]; TGroup 1] prev s 0 in
  (hd_error out = Some "\"%char -> hd_error s = Some "\"%char)
  /\ (hd_error out = Some ","%char ->
      hd_error s = Some ","%char
      \/ (hd_error s = Some "\"%char /\ reBackslashUnit (Cursor prev s []) <> []))
  /\ (separated s -> separated out).
Proof.
  induction s as [s IH] using bytes_length_ind. intros prev.
  destruct s as [|x rest].
  { cbv zeta. cbn. repeat split; try discriminate; auto. }
  destruct (reBackslashUnit (Cursor prev (x :: rest) [])) as [|c l] eqn:E.
  - cbv zeta. rewrite (replace_unmatched _ _ prev x rest E).
    destruct (IH rest ltac:(simpl; lia) (Some x)) as (IH1 & IH2 & IH3).
    cbv zeta in IH1, IH2, IH3.
    split; [intros [= ->]; reflexivity|].
    split; [intros [= ->]; now left|].
    intros Hs. pose proof (separated_suffix [x] rest Hs) as Hrest.
    destruct (IH3 Hrest) as [H1 H2]. destruct Hs as [Hs1 Hs2].
    split; (apply hasPair_cons_false; [assumption|]).
    + intros -> Hhd. destruct (IH2 Hhd) as [Hr|[Hr Hm]];
        (destruct rest as [|y t]; [discriminate|]); injection Hr as ->.
      * discriminate Hs1.
      * apply (reBackslashUnit_longer_run prev) in Hm. congruence.
    + intros -> Hhd. apply IH1 in Hhd.
      destruct rest as [|y t]; [discriminate|]. injection Hhd as ->.
      discriminate Hs2.
  - destruct (reBackslashUnit_match prev (x :: rest) c) as (bs & ch & m & Hs & Hm & Hx).
    { rewrite E. now left. }
    injection Hs as -> ->.
    assert (Es : bs ++ ch :: m ++ c_rest c = (bs ++ ch :: m) ++ c_rest c)
      by now rewrite <- app_assoc.
    rewrite Es in *.
    destruct (replace_matched _ [TText [","%char]; TGroup 1] prev _ _ c l E)
      as (prev' & Hout).
    cbv zeta. rewrite Hout, Hx.
    destruct (IH (c_rest c)) with (prev := prev') as (_ & _ & IH3).
    { simpl. rewrite length_app. lia. }
    cbv zeta in IH3.
    split; [discriminate|]. split.
    + intros _. right. split; [reflexivity | discriminate].
    + intros Hsep.
      change ("\"%char :: (bs ++ ch :: m) ++ c_rest c)
        with (("\"%char :: bs ++ ch :: m) ++ c_rest c) in Hsep.
      apply separated_suffix in Hsep.
      exact (separated_comma ch m _ Hm (IH3 Hsep)).
Qed.

(** The pass that puts a comma for the space between a direction and a
    unit. *)
Lemma separate_direction_unit s : forall prev,
  let out := replaceFrom reDirectionUnit
               [TGroup 1; TText [","%char]; TGroup 2] prev s 0 in
  hd_error out = hd_error s /\ (separated s -> separated out).
Proof.
  induction s as [s IH] using bytes_length_ind. intros prev.
  destruct s as [|x rest]; [now split|].
  destruct (reDirectionUnit (Cursor prev (x :: rest) [])) as [|c l] eqn:E.
  - cbv zeta. rewrite (replace_unmatched _ _ prev x rest E).
    destruct (IH rest ltac:(simpl; lia) (Some x)) as (IH1 & IH2).
    cbv zeta in IH1, IH2. split; [reflexivity|].
    intros Hs. pose proof (separated_suffix [x] rest Hs) as Hrest.
    destruct (IH2 Hrest) as [H1 H2]. destruct Hs as [Hs1 Hs2].
    split; (apply hasPair_cons_false; [assumption|]);
      intros -> Hhd; rewrite IH1 in Hhd;
      (destruct rest as [|y t]; [discriminate|]); injection Hhd as ->.
    + discriminate Hs1.
    + discriminate Hs2.
  - destruct (reDirectionUnit_match prev (x :: rest) c)
      as (d & dir & ch & m & Hs & Hd & Hm & Hx).
    { rewrite E. now left. }
    cbn [app] in Hs. injection Hs as -> ->.
    assert (Es : dir ++ SP :: ch :: m ++ c_rest c =
                 (dir ++ SP :: ch :: m) ++ c_rest c)
      by (rewrite <- app_assoc; reflexivity).
    rewrite Es in *.
    destruct (replace_matched _ [TGroup 1; TText [","%char]; TGroup 2]
                prev _ _ c l E) as (prev' & Hout).
    cbv zeta. rewrite Hout, Hx.
    destruct (IH (c_rest c)) with (prev := prev') as (_ & IH2).
    { simpl. rewrite length_app. lia. }
    cbv zeta in IH2. split; [reflexivity|].
    intros Hsep.
    change (d :: (dir ++ SP :: ch :: m) ++ c_rest c)
      with ((d :: dir ++ SP :: ch :: m) ++ c_rest c) in Hsep.
    apply separated_suffix in Hsep.
    rewrite <- app_assoc.
    apply separated_plain_app; [exact Hd|].
    exact (separated_comma ch m _ Hm (IH2 Hsep)).
Qed.

Lemma separateUnits_separated line :
  separated line -> separated (separateUnits line).
Proof.
  intros H. unfold separateUnits, ReplaceAll.
  destruct (separate_backslash_unit line None) as (_ & _ & H1).
  destruct (separate_direction_unit
              (replaceFrom reBackslashUnit [TText [","%char]; TGroup 1] None line 0)
              None) as (_ & H2).
  cbv zeta in *. auto.
Qed.

Lemma collapseRuns_separated line :
  separated line -> separated (collapseRuns line).
Proof.
  intros [H1 H2]. destruct (collapseRuns_pairs line) as (_ & _ & H).
  split; now apply H.
Qed.

(** The front of every scrubber: the passes up to the reduction of the
    runs. *)
Lemma scrub_front_separated line :
  separated (collapseRuns (separateUnits
               (collapseSeparators (collapseBackslashDash line)))).
Proof.
  apply collapseRuns_separated, separateUnits_separated.
  exact (collapseSeparators_no_pair _).
Qed.

(** X16. In what [scrubMovementLine], [scrubScoutLine], [scrubStatusLine]
    and [scrubFleetLine] of parse.go and the [PreProcessMovementLine]
    declared beside [SectionInput] return, no backslash stands next to a
    comma, in either order: the passes behind the one that collapses such
    pairs bring none back. *)
Theorem scrubbed_lines_are_separated (line : bytes) :
  separated (scrubMovementLine line) /\ separated (scrubScoutLine line)
  /\ separated (scrubStatusLine line) /\ separated (scrubFleetLine line)
  /\ separated (PreProcessMovementLine line).
Proof.
  pose proof (scrub_front_separated line) as H.
  assert (Hresults : separated
            (TrimRight (scrubStepResults (collapseRuns (separateUnits
               (collapseSeparators (collapseBackslashDash line))))) "\")).
  { destruct (TrimRight_prefix (scrubStepResults (collapseRuns (separateUnits
               (collapseSeparators (collapseBackslashDash line))))) "\")
      as [(n & E) _].
    apply (separated_prefix _ (repeat "\"%char n)). rewrite <- E.
    destruct H as [H1 H2].
    split; (eapply blankedText_pairs;
            [apply scrubStepResults_blanked | discriminate | discriminate
            | assumption]). }
  assert (Hobs : separated
            (TrimRight (bytesReplaceAll (collapseRuns (separateUnits
               (collapseSeparators (collapseBackslashDash line))))
               (B ",)") (B ")")) "\")).
  { fold (dropCommaParen (collapseRuns (separateUnits
               (collapseSeparators (collapseBackslashDash line))))).
    destruct (TrimRight_prefix (dropCommaParen (collapseRuns (separateUnits
               (collapseSeparators (collapseBackslashDash line))))) "\")
      as [(n & E) _].
    apply (separated_prefix _ (repeat "\"%char n)). rewrite <- E.
    destruct (dropCommaParen_pairs (collapseRuns (separateUnits
               (collapseSeparators (collapseBackslashDash line)))))
      as (_ & _ & Hp).
    destruct H as [H1 H2].
    split; (apply Hp; [discriminate | assumption]). }
  unfold scrubMovementLine, scrubScoutLine, scrubStatusLine, scrubFleetLine,
    PreProcessMovementLine.
  destruct line as [|ch rest]; [repeat split; exact Hobs|].
  cbv zeta. repeat split; first [apply Hresults | apply Hobs].
Qed.

(** ** scrubStepResults: a second scan changes nothing *)

(** Every list of the text has only elements introduced by a space. *)
Definition settled (s : bytes) : Prop :=
  forall pre t, s = pre ++ t ->
    cleanAt edgeCodeBody listDirectionPattern t
    /\ cleanAt unitIDBody listUnitIDPattern t.

Lemma settled_suffix m s : settled (m ++ s) -> settled s.
Proof. intros H pre t ->. apply (H (m ++ pre)). now rewrite app_assoc. Qed.

Lemma clean_settled out : clean out [] -> settled out.
Proof.
  intros [H1 H2] pre t ->. destruct t as [|ch d].
  - split; intros m t em Hm; apply head_needs_comma in Hm as (? & Hm);
      discriminate Hm.
  - specialize (H1 pre ch d eq_refl). specialize (H2 pre ch d eq_refl).
    rewrite app_nil_r in H1, H2. now split.
Qed.

(** A list loop over elements that are introduced by spaces writes what it
    reads. *)
Section SettledList.

Variable element : rx.
Variable loop : bytes -> bytes -> bytes * bytes.

Hypothesis loop_step : forall done step,
  loop done step =
  match Find element step with
  | Some elementMatch =>
    loop (done ++ firstn (length elementMatch) (blankFirst step))
         (skipn (length elementMatch) (blankFirst step))
  | None => (done, step)
  end.
Hypothesis element_advances : Advances element.

Lemma loop_settled step : forall done,
  (forall t em, listWalk element step t -> Find element t = Some em ->
                hd_error t = Some SP) ->
  exists written step',
    loop done step = (done ++ written, step') /\ step = written ++ step'.
Proof.
  induction step as [step IH] using bytes_length_ind. intros done Hwalk.
  rewrite loop_step. destruct (Find element step) as [m|] eqn:E.
  - assert (Hsame : blankFirst step = step).
    { specialize (Hwalk step m (walk_here _ _) E).
      destruct step as [|x rest]; [discriminate|]. injection Hwalk as ->.
      reflexivity. }
    rewrite Hsame.
    destruct (IH (skipn (length m) step)) with (done := done ++ firstn (length m) step)
      as (written & step' & Hloop & Hstep).
    { exact (skip_match_shorter _ _ m (fun s => s) element_advances E eq_refl). }
    { intros t em Ht. apply Hwalk. exact (walk_next _ _ m _ E Ht). }
    exists (firstn (length m) step ++ written), step'. split.
    + now rewrite Hloop, app_assoc.
    + rewrite <- app_assoc, <- Hstep. now rewrite firstn_skipn.
  - exists [], step. now rewrite app_nil_r.
Qed.

End SettledList.

Lemma resultsLoop_settled step : forall done,
  settled step -> resultsLoop done step = done ++ step.
Proof.
  induction step as [step IH] using bytes_length_ind. intros done Hs.
  destruct step as [|ch rest]; [simp resultsLoop; now rewrite app_nil_r|].
  rewrite resultsLoop_step.
  destruct (Hs [] (ch :: rest) eq_refl) as [Hedge Hunit].
  destruct (Find edgeCodePattern (ch :: rest)) as [m|] eqn:E;
    [|destruct (Find unitIDPattern (ch :: rest)) as [m|] eqn:E2].
  - pose proof (Find_skip _ _ _ edgeCodePattern_advances E) as Hskip.
    destruct (loop_settled listDirectionPattern directionList directionList_step
                listDirectionPattern_advances (skipn (length m) (ch :: rest))
                (done ++ m))
      as (written & step' & Hloop & Hstep).
    { intros t em. exact (Hedge m t em E). }
    rewrite Hloop.
    pose proof (skip_match_shorter _ _ m (fun s => s) edgeCodePattern_advances
                  E eq_refl) as Hlt.
    cbv beta in Hlt. rewrite Hstep in Hskip, Hlt. rewrite IH.
    + rewrite Hskip. now rewrite <- !app_assoc.
    + rewrite length_app in Hlt. lia.
    + apply (settled_suffix (m ++ written)). now rewrite <- app_assoc, <- Hskip.
  - pose proof (Find_skip _ _ _ unitIDPattern_advances E2) as Hskip.
    destruct (loop_settled listUnitIDPattern unitIDList unitIDList_step
                listUnitIDPattern_advances (skipn (length m) (ch :: rest))
                (done ++ m))
      as (written & step' & Hloop & Hstep).
    { intros t em. exact (Hunit m t em E2). }
    rewrite Hloop.
    pose proof (skip_match_shorter _ _ m (fun s => s) unitIDPattern_advances
                  E2 eq_refl) as Hlt.
    cbv beta in Hlt. rewrite Hstep in Hskip, Hlt. rewrite IH.
    + rewrite Hskip. now rewrite <- !app_assoc.
    + rewrite length_app in Hlt. lia.
    + apply (settled_suffix (m ++ written)). now rewrite <- app_assoc, <- Hskip.
  - destruct (toComma (done ++ [ch]) rest) as [d s] eqn:Et.
    apply toComma_app in Et as (skipped & -> & ->).
    rewrite IH.
    + now rewrite <- !app_assoc.
    + simpl. rewrite length_app. lia.
    + apply (settled_suffix (ch :: skipped)). exact Hs.
Qed.

(** X17. [scrubStepResults] is idempotent: scanning a line that was
    scanned before changes no byte of it. *)
Theorem scrubStepResults_idempotent (line : bytes) :
  scrubStepResults (scrubStepResults line) = scrubStepResults line.
Proof.
  pose proof (clean_settled _ (scrubStepResults_clean line)) as Hs.
  revert Hs. generalize (scrubStepResults line). intros out Hs.
  unfold scrubStepResults.
  destruct (toComma [] out) as [done step] eqn:Et.
  apply toComma_app in Et as (skipped & -> & ->). cbn [app].
  apply resultsLoop_settled. exact (settled_suffix _ _ Hs).
Qed.

(** ** parseElementHeader *)

(** A pattern without groups has no submatch at index 1. *)
Lemma FindSubmatch_no_group re field :
  match FindSubmatch re 0 field with
  | Some match_ => Match re field = true /\ nth_error match_ 1 = None
  | None => Match re field = false
  end.
Proof.
  unfold FindSubmatch, Match.
  destruct (re (startOf field)) as [|c l]; [reflexivity | now split].
Qed.

Lemma elementId_unit field :
  elementId field =
  if isUnitName field then None
  else Some (Node.make "element-id" (Some ErrInvalidElementId) field [] []).
Proof.
  unfold elementId, isUnitName, valueOfGroup.
  pose proof (FindSubmatch_no_group rxUnitCourier field) as H1.
  pose proof (FindSubmatch_no_group rxUnitElement field) as H2.
  pose proof (FindSubmatch_no_group rxUnitFleet field) as H3.
  pose proof (FindSubmatch_no_group rxUnitGarrison field) as H4.
  pose proof (FindSubmatch_no_group rxUnitTribe field) as H5.
  destruct (FindSubmatch rxUnitCourier 0 field) as [m|];
    [destruct H1 as [-> ->]; reflexivity | rewrite H1].
  destruct (FindSubmatch rxUnitElement 0 field) as [m|];
    [destruct H2 as [-> ->]; reflexivity | rewrite H2].
  destruct (FindSubmatch rxUnitFleet 0 field) as [m|];
    [destruct H3 as [-> ->]; reflexivity | rewrite H3].
  destruct (FindSubmatch rxUnitGarrison 0 field) as [m|];
    [destruct H4 as [-> ->]; reflexivity | rewrite H4].
  destruct (FindSubmatch rxUnitTribe 0 field) as [m|];
    [destruct H5 as [-> ->]; reflexivity | rewrite H5].
  reflexivity.
Qed.

Lemma SplitOn_length sep input :
  length (SplitOn sep input) =
  S (length (filter (fun ch => Ascii.eqb ch sep) input)).
Proof.
  induction input as [|ch rest IH]; [reflexivity|].
  cbn [SplitOn filter]. destruct (Ascii.eqb ch sep); cbn [length].
  - now rewrite IH.
  - destruct (SplitOn sep rest); [discriminate IH | exact IH].
Qed.

Lemma Split_SplitOn input : Split input = SplitOn LF input.
Proof.
  induction input as [|ch rest IH]; [reflexivity|].
  cbn [Split SplitOn]. now rewrite IH.
Qed.

Lemma fieldNode_read TrimSpace kind fields i keep :
  fieldNode TrimSpace kind fields i keep =
  if (length fields <? i + 1)%nat
  then Some (Node.make kind (Some ErrMissingField) [] [] [])
  else if (length fields <? i + 2)%nat then None
  else Some (Node.make kind None []
               (if keep then TrimSpace (nth (i + 1) fields []) else []) []).
Proof.
  unfold fieldNode. destruct (length fields <? i + 1)%nat eqn:E1; [reflexivity|].
  destruct (length fields <? i + 2)%nat eqn:E2.
  - apply Nat.ltb_lt in E2. apply Nat.ltb_ge in E1.
    assert (Hn : nth_error fields (i + 1) = None) by (apply nth_error_None; lia).
    now rewrite Hn.
  - apply Nat.ltb_ge in E2.
    destruct (nth_error fields (i + 1)) as [field|] eqn:Hn.
    + now rewrite (nth_error_nth fields _ [] Hn).
    + apply nth_error_None in Hn. lia.
Qed.

(** X18. [parseElementHeader] indexes the submatch of a pattern that has no
    capture group, and reads the fields 1 to 3 of the header whenever the
    header has any field: it panics when the first field, trimmed, is the
    name of a courier, element, fleet, garrison or tribe, and when the
    header has fewer than three commas.  On every other header it returns,
    and the node of the element id then carries ErrInvalidElementId and
    the trimmed first field as its input. *)
Theorem parseElementHeader_returns_only_errors
    (TrimSpace : bytes -> bytes) (elementHeader : bytes) :
  let fields := SplitOn "," elementHeader in
  let commas := length (filter (fun ch => Ascii.eqb ch ",") elementHeader) in
  let field := TrimSpace (hd [] fields) in
  (isUnitName field = true \/ commas < 3 ->
   parseElementHeader TrimSpace elementHeader = None)
  /\ (isUnitName field = false -> 3 <= commas ->
      exists root element others,
        parseElementHeader TrimSpace elementHeader = Some root
        /\ Node.Children root = element :: others
        /\ Node.Error element = Some ErrInvalidElementId
        /\ Node.Input element = field
        /\ length others = if (commas =? 3)%nat then 3 else 4).
Proof.
  intros fields commas field.
  assert (Hlen : length fields = S commas) by apply SplitOn_length.
  assert (Hfirst : nth_error fields 0 = Some (hd [] fields)).
  { destruct fields; [discriminate Hlen | reflexivity]. }
  unfold parseElementHeader. fold fields. rewrite Hfirst. fold field.
  rewrite elementId_unit, !fieldNode_read, Hlen. split.
  - intros [Hunit|Hfew]; [now rewrite Hunit|].
    destruct (isUnitName field); [reflexivity|].
    destruct commas as [|[|[|n]]]; [reflexivity | reflexivity | reflexivity | lia].
  - intros Hunit Hmany. rewrite Hunit.
    destruct commas as [|[|[|n]]]; try lia.
    cbn [Nat.ltb Nat.leb Nat.add].
    eexists _, _, _. split; [reflexivity|]. cbn [Node.Children app].
    split; [reflexivity|]. split; [reflexivity|]. split; [reflexivity|].
    destruct n; reflexivity.
Qed.

(** The header of a tribe, as [SectionInput] stores it. *)
Lemma parseElementHeader_witness :
  parseElementHeader asciiTrimSpace
    (B "tribe 0987,,current hex = ## 0709,(previous hex = ## 0709)") = None.
Proof.
  apply (proj1 (parseElementHeader_returns_only_errors asciiTrimSpace
           (B "tribe 0987,,current hex = ## 0709,(previous hex = ## 0709)"))).
  left. reflexivity.
Defined.

(** ** SectionInput: what a section can hold *)

Lemma fieldOf_more p lines line field :
  fieldOf p lines field -> fieldOf p (lines ++ [line]) field.
Proof.
  intros [->|[Hp Hin]]; [now left|]. right. split; [exact Hp|].
  apply in_or_app. now left.
Qed.

Lemma fieldOf_line p lines line :
  p line = true -> fieldOf p (lines ++ [line]) line.
Proof. intros Hp. right. split; [exact Hp|]. apply in_or_app. right. now left. Qed.

Lemma sectionOfLines_more lines line s :
  sectionOfLines lines s -> sectionOfLines (lines ++ [line]) s.
Proof.
  intros (H1 & H2 & H3 & H4 & H5 & H6 & H7 & H8 & H9).
  repeat split; try (apply fieldOf_more; assumption); try assumption.
  - apply in_or_app. now left.
  - eapply Forall_impl; [|exact H8]. intros l [Hl Hin]. split; [exact Hl|].
    apply in_or_app. now left.
Qed.

Lemma assignLine_sectionOfLines lines line s :
  sectionOfLines lines s -> sectionOfLines (lines ++ [line]) (assignLine line s).
Proof.
  intros Hs. apply (sectionOfLines_more lines line) in Hs.
  destruct Hs as (H1 & H2 & H3 & H4 & H5 & H6 & H7 & H8 & H9).
  unfold assignLine, setMoves.
  destruct (IsFleetMovement line) eqn:E1;
    [|destruct (IsTribeFollows line) eqn:E2;
      [|destruct (IsTribeGoesTo line) eqn:E3;
        [|destruct (IsTribeMovement line) eqn:E4;
          [|destruct (IsScoutLine line) eqn:E5;
            [|destruct (IsTurnHeader line) eqn:E6;
              [|destruct (IsUnitStatus line) eqn:E7]]]]]];
    cbn [Id Header Turn Moves Status Movement Follows GoesTo Fleet Scouts];
    repeat split; try assumption; try (apply fieldOf_line; assumption).
  apply Forall_app. split; [exact H8|]. constructor; [|constructor].
  split; [exact E5|]. apply in_or_app. right. now left.
Qed.

Lemma store_Forall (P Q : Section -> Prop) p f sections :
  (forall s, P s -> Q (f s)) -> (forall s, P s -> Q s) ->
  Forall P sections -> Forall Q (store p f sections).
Proof.
  intros Hf Hq H. revert p. induction H as [|s rest Hs Hrest IH]; intros p.
  - destruct p; constructor.
  - destruct p as [|p]; cbn [store]; constructor; auto.
    eapply Forall_impl; [|exact Hrest]. exact Hq.
Qed.

Lemma fold_sectionStep_sectionOfLines lines : forall seen sections section,
  Forall (sectionOfLines seen) sections ->
  Forall (sectionOfLines (seen ++ lines))
         (fst (fold_left sectionStep lines (sections, section))).
Proof.
  induction lines as [|line lines IH]; intros seen sections section H.
  - now rewrite app_nil_r.
  - cbn [fold_left].
    replace (seen ++ line :: lines) with ((seen ++ [line]) ++ lines)
      by (now rewrite <- app_assoc).
    assert (Hmore : Forall (sectionOfLines (seen ++ [line])) sections).
    { eapply Forall_impl; [|exact H]. intros s. apply sectionOfLines_more. }
    unfold sectionStep at 2.
    destruct (length line =? 0)%nat; [now apply IH|].
    destruct (IsUnitHeader line) eqn:Hh.
    + apply IH. apply Forall_app. split; [exact Hmore|].
      constructor; [|constructor]. unfold sectionOfLines, newSection, fieldOf.
      cbn [Id Header Turn Moves Status Movement Follows GoesTo Fleet Scouts].
      repeat split; auto. apply in_or_app. right. now left.
    + destruct section as [p|]; [|now apply IH].
      apply IH. apply (store_Forall (sectionOfLines seen)); [| |exact H].
      * intros s. apply assignLine_sectionOfLines.
      * intros s. apply sectionOfLines_more.
Qed.

(** X19. Whatever the text, every section of [SectionInput] has a line
    accepted by [IsUnitHeader] as its header, each of its other fields is
    either unassigned or a line of the text of the kind of the field, and
    its scouts are scout lines of the text. *)
Theorem SectionInput_sections_hold_lines (input : bytes) :
  Forall (sectionOfLines (Split input)) (SectionInput input).
Proof.
  unfold SectionInput, sectionLines.
  exact (fold_sectionStep_sectionOfLines (Split input) [] [] None (Forall_nil _)).
Qed.

(** ** The text file written by main *)

Lemma Split_line line : ~ In LF line -> Split line = [line].
Proof.
  induction line as [|ch rest IH]; [reflexivity|].
  intros H. cbn [Split]. destruct (Ascii.eqb_spec ch LF) as [->|_].
  - elim H. now left.
  - rewrite IH; [reflexivity|]. intros Hin. apply H. now right.
Qed.

Lemma Split_app_LF line rest :
  ~ In LF line -> Split (line ++ LF :: rest) = line :: Split rest.
Proof.
  induction line as [|ch line IH]; intros H.
  - cbn [app Split]. now rewrite Ascii.eqb_refl.
  - cbn [app Split]. destruct (Ascii.eqb_spec ch LF) as [->|_].
    + elim H. now left.
    + rewrite IH; [reflexivity|]. intros Hin. apply H. now right.
Qed.

Lemma Split_Join lines :
  lines <> [] -> Forall (fun line => ~ In LF line) lines ->
  Split (Join lines LF) = lines.
Proof.
  intros Hne H. induction H as [|line rest Hline Hrest IH]; [congruence|].
  destruct rest as [|next rest'].
  - now apply Split_line.
  - change (Join (line :: next :: rest') LF)
      with (line ++ LF :: Join (next :: rest') LF).
    rewrite Split_app_LF by assumption. f_equal. apply IH. discriminate.
Qed.

Lemma Split_no_LF input : Forall (fun line => ~ In LF line) (Split input).
Proof.
  induction input as [|ch rest IH]; [repeat constructor; auto|].
  cbn [Split]. destruct (Ascii.eqb_spec ch LF) as [->|Hne].
  - constructor; auto.
  - destruct (Split rest) as [|line lines]; [repeat constructor; intros [?|[]]; congruence|].
    inversion IH as [|? ? Hline Hlines]; subst. constructor; [|exact Hlines].
    intros [E|Hin]; [congruence | now apply Hline].
Qed.



(** ** CompressSpaces: the texts it leaves alone *)

Lemma significantFrom_tail prev ch rest :
  isBlank ch = false ->
  significantFrom prev (ch :: rest) ->
  significantFrom (isSpaceDelimiter ch) rest.
Proof.
  intros Hch [Htab H]. split; [intros Hin; apply Htab; now right|].
  intros pre post E. destruct (H (ch :: pre) post) as [Hr Hl]; [now rewrite E|].
  split; [exact Hr|]. destruct pre as [|y pre'].
  - simpl in Hl. unfold ordinaryByte in Hl.
    apply andb_true_iff in Hl as [_ Hl]. now apply negb_true_iff in Hl.
  - change (lastByte (ch :: y :: pre')) with (lastByte (y :: pre')) in Hl.
    destruct (lastByte (y :: pre')) eqn:Hlast; [exact Hl|].
    apply lastByte_None in Hlast. discriminate Hlast.
Qed.

Lemma compressLoop_significant input : forall prev,
  significantFrom prev input -> compressLoop input prev [] = input.
Proof.
  induction input as [input IH] using bytes_length_ind. intros prev Hs.
  destruct input as [|ch rest]; [now simp compressLoop|].
  destruct (isBlank ch) eqn:Hch.
  - assert (ch = SP).
    { destruct Hs as [Htab _]. unfold isBlank in Hch.
      apply orb_true_iff in Hch as [Hch|Hch]; apply Ascii.eqb_eq in Hch;
        [exact Hch|]. elim Htab. left. now symmetry. }
    subst ch. destruct Hs as [Htab H].
    destruct (H [] rest eq_refl) as [(d & more & -> & Hd) Hprev].
    cbn [lastByte] in Hprev. subst prev.
    unfold ordinaryByte in Hd. apply andb_true_iff in Hd as [Hd1 Hd2].
    apply negb_true_iff in Hd1, Hd2.
    rewrite compressLoop_blank by reflexivity.
    cbn [skipBlanks]. rewrite Hd1. cbn [nextCharIsDelimiter orb]. rewrite Hd2.
    rewrite compressLoop_output. cbn [app]. f_equal.
    apply IH; [simpl; lia|]. split; [intros Hin; apply Htab; now right|].
    intros pre post E. destruct (H (SP :: pre) post) as [Hr Hl]; [now rewrite E|].
    split; [exact Hr|]. destruct pre as [|y pre'].
    + discriminate Hl.
    + change (lastByte (SP :: y :: pre')) with (lastByte (y :: pre')) in Hl.
      destruct (lastByte (y :: pre')) eqn:Hlast; [exact Hl|].
      apply lastByte_None in Hlast. discriminate Hlast.
  - rewrite compressLoop_char by assumption.
    rewrite compressLoop_output. cbn [app]. f_equal.
    apply IH; [simpl; lia|]. exact (significantFrom_tail prev ch rest Hch Hs).
Qed.

(** X21. The texts [CompressSpaces] returns unchanged are exactly those
    with no tab in which every space is followed by a byte that is neither
    a blank nor a delimiter and, unless it is the first byte of the text,
    preceded by one. *)
Theorem CompressSpaces_fixed_points (input : bytes) :
  CompressSpaces input = input <-> significantFrom false input.
Proof.
  rewrite CompressSpaces_loop. split.
  - intros E. pose proof (compressLoop_shape input false) as [H1 H2].
    rewrite E in H1, H2. now split.
  - apply compressLoop_significant.
Qed.

(** ** The iterators of main *)

Lemma sameText_eq a b : sameText a b = true <-> a = b.
Proof. unfold sameText. destruct (list_eq_dec ascii_dec a b); split; congruence. Qed.

Lemma sameText_refl a : sameText a a = true.
Proof. now apply sameText_eq. Qed.

Lemma count_occ_flat_map {A} (f : A -> list bytes) (l : list A) (x : bytes) (k : A -> nat) :
  (forall a, In a l -> count_occ (list_eq_dec ascii_dec) (f a) x = k a) ->
  count_occ (list_eq_dec ascii_dec) (flat_map f l) x = list_sum (map k l).
Proof.
  induction l as [|a l IH]; intros H; [reflexivity|].
  cbn [flat_map map list_sum]. rewrite count_occ_app, H by now left.
  change (list_sum (k a :: map k l)) with (k a + list_sum (map k l)).
  f_equal. apply IH. intros b Hb. apply H. now right.
Qed.

Lemma TurnReports_names items turnId ext name :
  In name (TurnReports items turnId ext) ->
  exists item matches,
    In item items /\ Name item = name
    /\ FindSubmatch rxTurnReport 3 name = Some matches
    /\ nth 1 matches [] = turnId /\ nth 3 matches [] = ext.
Proof.
  unfold TurnReports. intros H. apply in_flat_map in H as (item & Hin & H).
  destruct (FindSubmatch rxTurnReport 3 (Name item)) as [matches|] eqn:E;
    [|destruct H].
  destruct (sameText turnId (nth 1 matches [])) eqn:E1;
    [|destruct H].
  destruct (sameText ext (nth 3 matches [])) eqn:E3; [|destruct H].
  destruct H as [<-|[]]. apply sameText_eq in E1, E3.
  exists item, matches. now repeat split.
Qed.

Lemma TurnReports_cons item items turnId ext :
  TurnReports (item :: items) turnId ext =
  TurnReports [item] turnId ext ++ TurnReports items turnId ext.
Proof. unfold TurnReports. cbn [flat_map]. now rewrite app_nil_r. Qed.

(** How often a turn yields the name of one of its Word documents. *)
Lemma TurnReports_count items : forall item matches turnId,
  NoDup (map Name items) -> In item items ->
  FindSubmatch rxTurnReport 3 (Name item) = Some matches ->
  nth 3 matches [] = B "docx" ->
  count_occ (list_eq_dec ascii_dec) (TurnReports items turnId (B "docx"))
            (Name item) =
  if sameText turnId (nth 1 matches []) then 1 else 0.
Proof.
  induction items as [|e rest IH]; intros item matches turnId Hnd Hin Hm Hext;
    [destruct Hin|].
  cbn [map] in Hnd. inversion Hnd as [|? ? Hfresh Hnd']; subst.
  rewrite (TurnReports_cons e rest), count_occ_app. destruct Hin as [->|Hin].
  - match goal with |- _ + ?b = _ => assert (Hrest : b = 0) end.
    { apply count_occ_not_In. intros H.
      apply TurnReports_names in H as (item' & _ & Hin' & Hname & _).
      apply Hfresh. rewrite <- Hname. now apply in_map. }
    rewrite Hrest, Nat.add_0_r. unfold TurnReports. cbn [flat_map].
    rewrite Hm, Hext, sameText_refl, andb_true_r, app_nil_r.
    destruct (sameText turnId (nth 1 matches [])); cbn [negb count_occ];
      [|reflexivity].
    destruct (list_eq_dec ascii_dec (Name item) (Name item)); congruence.
  - match goal with |- ?a + _ = _ => assert (Hhead : a = 0) end.
    { apply count_occ_not_In. intros H.
      apply TurnReports_names in H as (item' & _ & [<-|[]] & Hname & _).
      apply Hfresh. rewrite Hname. now apply in_map. }
    rewrite Hhead. cbn [Nat.add].
    exact (IH item matches turnId Hnd' Hin Hm Hext).
Qed.

Lemma count_matching (l : list bytes) (x : bytes) :
  list_sum (map (fun t => if sameText t x then 1 else 0) l) =
  count_occ (list_eq_dec ascii_dec) l x.
Proof.
  induction l as [|t l IH]; [reflexivity|].
  cbn [map count_occ].
  change (list_sum ((if sameText t x then 1 else 0)
                    :: map (fun t => if sameText t x then 1 else 0) l))
    with ((if sameText t x then 1 else 0)
          + list_sum (map (fun t => if sameText t x then 1 else 0) l)).
  rewrite IH. unfold sameText.
  destruct (list_eq_dec ascii_dec t x); reflexivity.
Qed.

(** X22. From a folder whose listing does not change, the loops of [main]
    load only Word documents named as turn reports, and they load each of
    them once for every entry of the folder, document or text file, that is
    named as a report of the same turn: at least once, and more than once
    where a turn has several reports. *)
Theorem reportsLoaded_once_per_entry_of_the_turn
    (items : list DirEntry) (item : DirEntry) (matches : list bytes) :
  NoDup (map Name items) ->
  In item items ->
  FindSubmatch rxTurnReport 3 (Name item) = Some matches ->
  nth 3 matches [] = B "docx" ->
  count_occ (list_eq_dec ascii_dec) (reportsLoaded items) (Name item) =
  count_occ (list_eq_dec ascii_dec) (TurnIds items) (nth 1 matches [])
  /\ 1 <= count_occ (list_eq_dec ascii_dec) (reportsLoaded items) (Name item)
  /\ forall name, In name (reportsLoaded items) ->
       exists other found,
         In other items /\ Name other = name
         /\ FindSubmatch rxTurnReport 3 name = Some found
         /\ nth 3 found [] = B "docx".
Proof.
  intros Hnd Hin Hm Hext.
  assert (Hcount : count_occ (list_eq_dec ascii_dec) (reportsLoaded items) (Name item) =
                   count_occ (list_eq_dec ascii_dec) (TurnIds items) (nth 1 matches [])).
  { unfold reportsLoaded.
    rewrite (count_occ_flat_map _ _ _
               (fun t => if sameText t (nth 1 matches []) then 1 else 0)).
    - apply count_matching.
    - intros t _. now apply TurnReports_count. }
  split; [exact Hcount|]. split.
  - rewrite Hcount. apply count_occ_In. unfold TurnIds.
    apply in_flat_map. exists item. split; [exact Hin|]. rewrite Hm. now left.
  - intros name H. unfold reportsLoaded in H.
    apply in_flat_map in H as (t & _ & H).
    apply TurnReports_names in H as (other & found & H1 & H2 & H3 & _ & H4).
    now exists other, found.
Qed.

(** A folder with the Word document of a report and the text file written
    for it on an earlier run: the document is loaded twice. *)
Lemma reportsLoaded_witness :
  count_occ (list_eq_dec ascii_dec)
    (reportsLoaded [mkDirEntry (B "0900-01.0987.report.docx") false;
                    mkDirEntry (B "0900-01.0987.report.txt") false])
    (B "0900-01.0987.report.docx") = 2.
Proof.
  refine (eq_trans (proj1 (reportsLoaded_once_per_entry_of_the_turn
            [mkDirEntry (B "0900-01.0987.report.docx") false;
             mkDirEntry (B "0900-01.0987.report.txt") false]
            (mkDirEntry (B "0900-01.0987.report.docx") false)
            [B "0900-01.0987.report.docx"; B "0900-01"; B "0987"; B "docx"]
            _ _ _ _)) _).
  - repeat constructor; simpl; intuition discriminate.
  - now left.
  - vm_compute. reflexivity.
  - reflexivity.
  - vm_compute. reflexivity.
Defined.

Lemma rxClanId_names name :
  FindSubmatch rxClanId 0 name <> None <-> isClanName name = true.
Proof.
  unfold FindSubmatch, rxClanId, isClanName, lit, digit.
  cbn [B list_ascii_of_string litBytes]. unfold seq, chr, eps, endOfText, startOf.
  cbn [c_rest c_caps].
  destruct name as [|z [|d1 [|d2 [|d3 [|d4 rest]]]]];
    cbn [flat_map app c_rest c_caps];
    try (split; [intros H; now elim H | discriminate]).
  - destruct (Ascii.eqb "0" z); cbn [flat_map app];
      (split; [intros H; now elim H | discriminate]).
  - destruct (Ascii.eqb "0" z); cbn [flat_map app c_rest c_caps andb];
      [|split; [intros H; now elim H | discriminate]].
    destruct (isDigit d1); cbn [flat_map app c_rest c_caps andb];
      (split; [intros H; now elim H | discriminate]).
  - destruct (Ascii.eqb "0" z); cbn [flat_map app c_rest c_caps andb];
      [|split; [intros H; now elim H | discriminate]].
    destruct (isDigit d1); cbn [flat_map app c_rest c_caps andb];
      [|split; [intros H; now elim H | discriminate]].
    destruct (isDigit d2); cbn [flat_map app c_rest c_caps andb];
      (split; [intros H; now elim H | discriminate]).
  - rewrite (Ascii.eqb_sym z "0").
    destruct (Ascii.eqb "0" z); cbn [flat_map app c_rest c_caps andb];
      [|split; [intros H; now elim H | discriminate]].
    destruct (isDigit d1); cbn [flat_map app c_rest c_caps andb];
      [|split; [intros H; now elim H | discriminate]].
    destruct (isDigit d2); cbn [flat_map app c_rest c_caps andb];
      [|split; [intros H; now elim H | discriminate]].
    destruct (isDigit d3); cbn [flat_map app c_rest c_caps andb];
      [split; [reflexivity | discriminate]
      |split; [intros H; now elim H | discriminate]].
  - destruct (Ascii.eqb "0" z); cbn [flat_map app c_rest c_caps andb];
      [|split; [intros H; now elim H | discriminate]].
    destruct (isDigit d1); cbn [flat_map app c_rest c_caps andb];
      [|split; [intros H; now elim H | discriminate]].
    destruct (isDigit d2); cbn [flat_map app c_rest c_caps andb];
      [|split; [intros H; now elim H | discriminate]].
    destruct (isDigit d3); cbn [flat_map app c_rest c_caps andb];
      (split; [intros H; now elim H | discriminate]).
Qed.

(** X23. [Clans] yields, in the order of the listing, the names of the
    entries that are folders and whose name is a zero followed by three
    digits, and nothing else. *)
Theorem Clans_are_the_clan_folders (items : list DirEntry) :
  Clans items =
  map Name (filter (fun item => IsDir item && isClanName (Name item)) items).
Proof.
  unfold Clans. induction items as [|item items IH]; [reflexivity|].
  cbn [flat_map filter]. rewrite IH.
  destruct (IsDir item); cbn [negb andb]; [|reflexivity].
  pose proof (rxClanId_names (Name item)) as H.
  destruct (FindSubmatch rxClanId 0 (Name item)) as [m|].
  - rewrite (proj1 H) by discriminate. reflexivity.
  - destruct (isClanName (Name item)); [|reflexivity].
    now elim (proj2 H eq_refl).
Qed.
